(** * WRS-Dojo: the tile tokenizer and the lesson-text importer

    A shallow embedding of [parseWordToTiles], [parseCSVLine] and
    [parseLessonText] (the utility file that follows the application component
    in [src/App.tsx]) and the properties the specification states about them.

    Strings.  A JavaScript string is a sequence of UTF-16 code units.  This
    development works with the code units U+0000..U+00FF: a string is a
    [string] of the standard library and the character with code [n] stands
    for the code unit [n].  On that range [toLowerCase] never changes the
    length of a string, [trim] and the regular-expression class [\s] remove
    the seven characters of [isWhitespace], and the two bullet characters of
    [cleanLine] that lie outside the range cannot occur in an input.

    Outcomes.  A call either returns, throws (the only exception these
    functions can raise is a TypeError on a property read of [undefined]) or,
    in the model only, runs out of the fuel that bounds a loop or a
    self-invocation. *)

From Stdlib Require Import String Ascii List Bool Arith Lia.
Import ListNotations.
Local Open Scope list_scope.
Local Open Scope string_scope.

Inductive outcome (A : Type) : Type :=
| Returned (a : A)
| Thrown
| OutOfFuel.
Arguments Returned {A} a.
Arguments Thrown {A}.
Arguments OutOfFuel {A}.

(** ** String primitives of the host language *)
Module JS.

Definition chr (n : nat) : ascii := ascii_of_nat n.

Definition newline : ascii := chr 10.
Definition tab : ascii := chr 9.
Definition dquote : ascii := chr 34.

Definition inRange (lo hi : nat) (c : ascii) : bool :=
  (lo <=? nat_of_ascii c)%nat && (nat_of_ascii c <=? hi)%nat.

Definition isDigit (c : ascii) : bool := inRange 48 57 c.
Definition isUpper (c : ascii) : bool := inRange 65 90 c.
Definition isLower (c : ascii) : bool := inRange 97 122 c.
Definition isLetter (c : ascii) : bool := isUpper c || isLower c.
(** [[a-zA-Z0-9]] *)
Definition isAlnum (c : ascii) : bool := isLetter c || isDigit c.
(** [\w] *)
Definition isWordChar (c : ascii) : bool := isAlnum c || Ascii.eqb c "_".
(** [\s], and what [trim] removes: TAB, LF, VT, FF, CR, SP, NBSP. *)
Definition isWhitespace (c : ascii) : bool :=
  inRange 9 13 c || Ascii.eqb c " " || Ascii.eqb c (chr 160).
(** What [.] does not match: LF and CR. *)
Definition isLineTerminator (c : ascii) : bool :=
  Ascii.eqb c newline || Ascii.eqb c (chr 13).

Definition lowerChar (c : ascii) : ascii :=
  if isUpper c || (inRange 192 222 c && negb (Ascii.eqb c (chr 215)))
  then chr (nat_of_ascii c + 32) else c.

Fixpoint toLowerCase (s : string) : string :=
  match s with
  | EmptyString => EmptyString
  | String c s' => String (lowerChar c) (toLowerCase s')
  end.

Fixpoint startsWith (s p : string) {struct p} : bool :=
  match p with
  | EmptyString => true
  | String c p' =>
      match s with
      | EmptyString => false
      | String d s' => Ascii.eqb d c && startsWith s' p'
      end
  end.

Fixpoint includes (s p : string) : bool :=
  startsWith s p ||
  match s with
  | EmptyString => false
  | String _ s' => includes s' p
  end.

(** [s.slice(n)] and [s.substring(n)], for [0 <= n]. *)
Fixpoint slice (n : nat) (s : string) : string :=
  match n, s with
  | 0, _ => s
  | S n', String _ s' => slice n' s'
  | S _, EmptyString => EmptyString
  end.

(** [s.substring(0, n)]. *)
Fixpoint take (n : nat) (s : string) : string :=
  match n, s with
  | 0, _ => EmptyString
  | S n', String c s' => String c (take n' s')
  | S _, EmptyString => EmptyString
  end.

(** [s.substring(a, b)]: the two indices are swapped when [a > b] and both
    are clamped to the length. *)
Definition substring (a b : nat) (s : string) : string :=
  take (Nat.max a b - Nat.min a b) (slice (Nat.min a b) s).

(** [s.indexOf(c)] for a one-character needle; [None] stands for [-1]. *)
Fixpoint indexOf (s : string) (c : ascii) : option nat :=
  match s with
  | EmptyString => None
  | String d s' => if Ascii.eqb d c then Some 0 else option_map S (indexOf s' c)
  end.

(** [s.indexOf(c, from)]. *)
Definition indexOfFrom (s : string) (c : ascii) (from : nat) : option nat :=
  option_map (Nat.add from) (indexOf (slice from s) c).

Fixpoint takeWhile (p : ascii -> bool) (s : string) : string :=
  match s with
  | EmptyString => EmptyString
  | String c s' => if p c then String c (takeWhile p s') else EmptyString
  end.

Fixpoint dropWhile (p : ascii -> bool) (s : string) : string :=
  match s with
  | EmptyString => EmptyString
  | String c s' => if p c then dropWhile p s' else s
  end.

Definition isEmpty (s : string) : bool :=
  match s with EmptyString => true | String _ _ => false end.

Definition trimStart (s : string) : string := dropWhile isWhitespace s.

Fixpoint trimEnd (s : string) : string :=
  match s with
  | EmptyString => EmptyString
  | String c s' =>
      let end' := trimEnd s' in
      if isWhitespace c && isEmpty end' then EmptyString else String c end'
  end.

Definition trim (s : string) : string := trimEnd (trimStart s).

(** [s.split(sep)] for a one-character string [sep], and [s.split(re)] for a
    regular expression that is an alternation of single characters.  The
    result is never empty: the empty string splits into one empty piece. *)
Fixpoint splitOn (sep : ascii -> bool) (s : string) : list string :=
  match s with
  | EmptyString => [EmptyString]
  | String c s' =>
      if sep c then EmptyString :: splitOn sep s'
      else match splitOn sep s' with
           | [] => [String c EmptyString]
           | piece :: pieces => String c piece :: pieces
           end
  end.

(** [s.replace(re, '')] for a global single-character class [re]. *)
Fixpoint removeAll (p : ascii -> bool) (s : string) : string :=
  match s with
  | EmptyString => EmptyString
  | String c s' => if p c then removeAll p s' else String c (removeAll p s')
  end.

(** A value in a boolean position: a string is truthy when it is not empty. *)
Definition truthy (s : string) : bool := negb (isEmpty s).

End JS.

(** ** The tile tokenizer *)
Module Tiles.
Import JS.

Inductive TileType : Type :=
| consonant | vowel | vowelTeam | digraph | welded
| suffix | rControl | prefix | syllable | space.

Record TileData : Type := mkTile { text : string; type : TileType }.

Definition weldedSounds : list string :=
  ["all"; "am"; "an"; "ang"; "ing"; "ong"; "ung"; "ank"; "ink"; "onk"; "unk";
   "ild"; "ind"; "old"; "ost"; "olt"; "ive"].

Definition vowelTeams : list string :=
  ["eigh"; "igh";
   "ai"; "ay"; "ee"; "ea"; "ey"; "oi"; "oy"; "oa"; "oe"; "ow"; "ou"; "oo";
   "ue"; "ew"; "au"; "aw"; "ie"; "ei"; "ui"].

Definition digraphs : list string :=
  ["sh"; "ch"; "th"; "wh"; "ck"; "ph"; "qu"; "wr"; "kn"; "gn"; "mb"; "tch"; "dge"].

Definition vowels : list ascii := ["a"; "e"; "i"; "o"; "u"; "y"]%char.

Definition rControlled : list string := ["ar"; "or"; "er"; "ir"; "ur"].

(** The result of matching [remaining] against the syllable pattern (a bar
    at the start, the characters up to the next bar as the group, that bar):
    the whole match and the group. *)
Definition syllableMatch (remaining : string) : option (string * string) :=
  match remaining with
  | String c rest =>
      if Ascii.eqb c "|" then
        match indexOf rest "|" with
        | Some k => Some (String "|" (take k rest ++ "|"), take k rest)
        | None => None
        end
      else None
  | EmptyString => None
  end.

(** The whole match of [remaining.match(/^-([a-zA-Z0-9]+)/)]. *)
Definition suffixMatch (remaining : string) : option string :=
  match remaining with
  | String c rest =>
      if Ascii.eqb c "-" && negb (isEmpty (takeWhile isAlnum rest))
      then Some (String "-" (takeWhile isAlnum rest))
      else None
  | EmptyString => None
  end.

(** The whole match of [remaining.match(/^([a-zA-Z0-9]+)-/)]: the greedy run
    is followed by a hyphen or nothing matches, as a shorter run is followed
    by an alphanumeric character. *)
Definition prefixMatch (remaining : string) : option string :=
  if negb (isEmpty (takeWhile isAlnum remaining))
     && startsWith (dropWhile isAlnum remaining) "-"
  then Some (takeWhile isAlnum remaining ++ "-")
  else None.

(** The override rules 1.5, 4, 5 and 6 share one shape: an opening
    character, a search for the closing one, the interior as the text. *)
Definition delimited (open : string) (close : option nat) (ty : TileType)
    (remaining : string) : option (TileData * string) :=
  if startsWith remaining open then
    match close with
    | Some close =>
        Some (mkTile (substring 1 close remaining) ty,
              slice (close + 1) remaining)
    | None => None
    end
  else None.

(** One [for (const p of table)] block of the automatic cascade. *)
Fixpoint tableMatch (table : list string) (ty : TileType)
    (current remaining : string) : option (TileData * string) :=
  match table with
  | [] => None
  | p :: table' =>
      if startsWith current p
      then Some (mkTile (substring 0 (String.length p) remaining) ty,
                 slice (String.length p) remaining)
      else tableMatch table' ty current remaining
  end.

Definition orElse {A : Type} (o : option A) (k : outcome A) : outcome A :=
  match o with
  | Some a => Returned a
  | None => k
  end.
Notation "o 'otherwise' k" := (orElse o k)
  (at level 61, right associativity, only parsing).

(** The body of the [while] loop: the tile it pushes and the new value of
    [remaining].  Reading [remaining[0]] of an empty string gives
    [undefined], whose [toLowerCase] throws. *)
Definition body (remaining : string) : outcome (TileData * string) :=
  (if startsWith remaining " "
   then Some (mkTile EmptyString space, slice 1 remaining) else None)
  otherwise
  match syllableMatch remaining with
  | Some (m0, m1) => Some (mkTile m1 syllable, slice (String.length m0) remaining)
  | None => None
  end
  otherwise
  delimited "<" (indexOf remaining ">") suffix remaining
  otherwise
  match suffixMatch remaining with
  | Some m0 => Some (mkTile m0 suffix, slice (String.length m0) remaining)
  | None => None
  end
  otherwise
  match prefixMatch remaining with
  | Some m0 => Some (mkTile m0 prefix, slice (String.length m0) remaining)
  | None => None
  end
  otherwise
  delimited "[" (indexOf remaining "]") vowel remaining
  otherwise
  delimited "{" (indexOf remaining "}") consonant remaining
  otherwise
  delimited "/" (indexOfFrom remaining "/" 1) welded remaining
  otherwise
  let current := toLowerCase remaining in
  tableMatch weldedSounds welded current remaining
  otherwise
  tableMatch vowelTeams vowelTeam current remaining
  otherwise
  tableMatch rControlled rControl current remaining
  otherwise
  tableMatch digraphs digraph current remaining
  otherwise
  match remaining with
  | EmptyString => Thrown
  | String char _ =>
      let charLower := lowerChar char in
      if existsb (Ascii.eqb charLower) vowels
      then Returned (mkTile (String char EmptyString) vowel, slice 1 remaining)
      else Returned (mkTile (String char EmptyString) consonant, slice 1 remaining)
  end.

(** The [while (remaining.length > 0)] loop, with the tiles pushed so far. *)
Fixpoint loop (fuel : nat) (tiles : list TileData) (remaining : string)
    : outcome (list TileData) :=
  if (0 <? String.length remaining)%nat then
    match fuel with
    | 0 => OutOfFuel
    | S fuel' =>
        match body remaining with
        | Returned (tile, remaining') => loop fuel' (tiles ++ [tile])%list remaining'
        | Thrown => Thrown
        | OutOfFuel => OutOfFuel
        end
    end
  else Returned tiles.

(** Every iteration removes at least one character ([body_advances] below),
    so the length of the word is fuel enough. *)
Definition parseWordToTiles (word : string) : outcome (list TileData) :=
  loop (String.length word) [] word.

End Tiles.

(** ** The lesson-text importer *)
Module Lessons.
Import JS.

Inductive CardType : Type := regular | nonsense | hfw.

Record WordCard : Type := mkCard { id : string; text : string; type : CardType }.

Module DictationSection.
Record t : Type := mk {
  sounds : list string;
  realWords : list string;
  wordElements : list string;
  nonsenseWords : list string;
  phrases : list string;
  sentences : list string
}.
Definition empty : t := mk [] [] [] [] [] [].
End DictationSection.

(** The fields of [Partial<Lesson>] the importer writes.  The five that the
    initial record sets are always present; [step], [substep] and [passage]
    are [undefined] until they are assigned. *)
Record Lesson : Type := mkLesson {
  step : option string;
  substep : option string;
  quickDrill : list string;
  hfwList : list string;
  wordCards : list WordCard;
  sentences : list string;
  dictation : DictationSection.t;
  passage : option string
}.

Definition initial : Lesson :=
  mkLesson None None [] [] [] [] DictationSection.empty None.

(** [Math.random] is the one piece of state outside the functions.  It is
    modelled by the identifiers that the successive calls of [generateId]
    return, [draws 0], [draws 1], ..., and the number of calls made so far. *)
Record Rng : Type := mkRng { draws : nat -> string; next : nat }.

Definition generateId (rng : Rng) : string * Rng :=
  (draws rng (next rng), mkRng (draws rng) (S (next rng))).

(** *** The CSV helper *)

(** The [for] loop of [parseCSVLine] over the characters that are left;
    [i++] inside the loop skips the second quote of an escaped pair. *)
Fixpoint csvLoop (line current : string) (inQuotes : bool) (result : list string)
    : list string :=
  match line with
  | EmptyString => (result ++ [current])%list
  | String char rest =>
      if Ascii.eqb char dquote then
        match rest with
        | String char' rest' =>
            if inQuotes && Ascii.eqb char' dquote
            then csvLoop rest' (current ++ String dquote EmptyString) inQuotes result
            else csvLoop rest current (negb inQuotes) result
        | EmptyString => csvLoop rest current (negb inQuotes) result
        end
      else if Ascii.eqb char "," && negb inQuotes
      then csvLoop rest EmptyString inQuotes (result ++ [current])%list
      else csvLoop rest (current ++ String char EmptyString) inQuotes result
  end.

(** [s] without the quote at its end, when it ends with one. *)
Fixpoint dropLastQuote (s : string) : string :=
  match s with
  | EmptyString => EmptyString
  | String c s' =>
      if isEmpty s' then (if Ascii.eqb c dquote then EmptyString else s)
      else String c (dropLastQuote s')
  end.

(** [s.replace(re, '')] where the global [re] matches a quote at the start
    or a quote at the end: the two matches do not overlap, so the quote at
    the end is looked for in what is left after the one at the start. *)
Definition stripQuotes (s : string) : string :=
  match s with
  | String c s' => if Ascii.eqb c dquote then dropLastQuote s' else dropLastQuote s
  | EmptyString => EmptyString
  end.

Definition parseCSVLine (line : string) : list string :=
  map (fun s => trim (stripQuotes (trim s))) (csvLoop line EmptyString false []).

(** *** The CSV path *)

(** [indices]: the object the header loop fills, newest assignment first;
    a later header with the same name overrides an earlier one.  The object
    is read at the fixed names of [getCol] and at the lesson-plan name only,
    none of which a plain object inherits; at these names it is the map
    that this list is. *)
Definition Indices : Type := list (string * nat).

Fixpoint getIndex (indices : Indices) (key : string) : option nat :=
  match indices with
  | [] => None
  | (k, i) :: indices' => if String.eqb k key then Some i else getIndex indices' key
  end.

Definition buildIndices (headerRow : list string) : Indices :=
  fold_left (fun indices hi => (trim (toLowerCase (fst hi)), snd hi) :: indices)
            (combine headerRow (seq 0 (List.length headerRow))) [].

Definition truthyOpt (o : option string) : bool :=
  match o with
  | Some s => truthy s
  | None => false
  end.

Definition targetIdentifierOf (targetStep targetSubstep : option string)
    : option string :=
  match targetStep, targetSubstep with
  | Some a, Some b => if truthy a && truthy b then Some (a ++ "." ++ b) else None
  | _, _ => None
  end.

(** The search for the data row, over the lines after the first.  A row
    shorter than the position of the lesson-plan column leaves
    [colLessonPlan] undefined, and [colLessonPlan.startsWith] then throws. *)
Fixpoint findDataRow (indices : Indices) (targetIdentifier : option string)
    (rows : list string) : outcome (option (list string)) :=
  match rows with
  | [] => Returned None
  | l :: rows' =>
      let row := parseCSVLine l in
      if (List.length row <? 2)%nat then findDataRow indices targetIdentifier rows'
      else
        let col0 := option_map trim (nth_error row 0) in
        let colLessonPlan :=
          match getIndex indices "lesson plan" with
          | Some idx => option_map trim (nth_error row idx)
          | None => Some EmptyString
          end in
        match targetIdentifier with
        | Some tid =>
            if match col0 with Some c => String.eqb c tid | None => false end
            then Returned (Some row)
            else match colLessonPlan with
                 | None => Thrown
                 | Some clp =>
                     if startsWith clp tid then Returned (Some row)
                     else findDataRow indices targetIdentifier rows'
                 end
        | None =>
            if truthyOpt col0 || truthyOpt colLessonPlan then Returned (Some row)
            else findDataRow indices targetIdentifier rows'
        end
  end.

Fixpoint getCol (indices : Indices) (dataRow : list string)
    (possibleHeaders : list string) : string :=
  match possibleHeaders with
  | [] => EmptyString
  | h :: hs =>
      match getIndex indices (toLowerCase h) with
      | Some idx =>
          match nth_error dataRow idx with
          | Some cell => if truthy cell then cell else getCol indices dataRow hs
          | None => getCol indices dataRow hs
          end
      | None => getCol indices dataRow hs
      end
  end.

Definition getList (indices : Indices) (dataRow : list string)
    (possibleHeaders : list string) : list string :=
  let raw := getCol indices dataRow possibleHeaders in
  if truthy raw
  then filter truthy
         (map trim (splitOn (fun c => Ascii.eqb c "," || Ascii.eqb c newline) raw))
  else [].

(** [words.map(w => ({ id: generateId(), text: w, type: 'regular' }))]. *)
Fixpoint makeCards (rng : Rng) (words : list string) : list WordCard * Rng :=
  match words with
  | [] => ([], rng)
  | w :: ws =>
      let (i, rng1) := generateId rng in
      let (cards, rng2) := makeCards rng1 ws in
      (mkCard i w regular :: cards, rng2)
  end.

(** The record after the extraction from [dataRow], before the dictation
    cell is looked at. *)
Definition extractRow (indices : Indices) (dataRow : list string) (rng : Rng)
    : Lesson * Rng :=
  let hfwList' := getList indices dataRow ["new sight words"; "sight words"] in
  let quickDrill' :=
    getList indices dataRow ["new sound cards"; "pa drill"; "spelling sounds"] in
  let vocab1 := getList indices dataRow ["new vocab words"] in
  let vocab2 := getList indices dataRow ["vocab from sentences"] in
  let vocab3 := getList indices dataRow ["vocab from connected text"] in
  let allVocab := (vocab1 ++ vocab2 ++ vocab3)%list in
  let (cards, rng1) := makeCards rng allVocab in
  let rawSentences := getCol indices dataRow ["sentences"; "reading sentences"] in
  let sentences' :=
    if truthy rawSentences
    then filter (fun s => (5 <? String.length s)%nat)
           (map trim (splitOn (Ascii.eqb newline) rawSentences))
    else [] in
  let passage' := getCol indices dataRow ["connected text"; "reader"] in
  (mkLesson None None quickDrill' hfwList' cards sentences'
            DictationSection.empty (Some passage'), rng1).

(** The end of the CSV path: the dictation of the reparsed cell, when there is
    one, and the targets as step and substep. *)
Definition finishRow (extracted : Lesson) (dictationData : option Lesson)
    (targetStep targetSubstep : option string) : Lesson :=
  let dictation' :=
    match dictationData with
    | Some d => dictation d
    | None => dictation extracted
    end in
  let step' :=
    if negb (truthyOpt (step extracted)) && truthyOpt targetStep
    then targetStep else step extracted in
  let substep' :=
    if negb (truthyOpt (substep extracted)) && truthyOpt targetSubstep
    then targetSubstep else substep extracted in
  mkLesson step' substep' (quickDrill extracted) (hfwList extracted)
           (wordCards extracted) (sentences extracted) dictation'
           (passage extracted).

(** *** The standard text parser *)

(** The group of [re.exec] for the pattern: digits, a dot, digits, a word
    boundary, anchored at the start of [s].  Both runs of digits are the
    longest ones: a shorter run is followed by a digit, which is neither the
    dot nor a word boundary. *)
Definition numberPair (s : string) : option (string * string) :=
  let d1 := takeWhile isDigit s in
  match dropWhile isDigit s with
  | String c r =>
      let d2 := takeWhile isDigit r in
      if truthy d1 && Ascii.eqb c "." && truthy d2
         && match dropWhile isDigit r with
            | String c' _ => negb (isWordChar c')
            | EmptyString => true
            end
      then Some (d1, d2) else None
  | EmptyString => None
  end.

(** The same after the word Step in any case and any white space. *)
Definition stepPair (s : string) : option (string * string) :=
  if String.eqb (toLowerCase (take 4 s)) "step"
  then numberPair (trimStart (slice 4 s)) else None.

(** The leftmost match of a pattern that starts with a word boundary and a
    word character: it may start where the character before is not a word
    character. *)
Fixpoint search (tryAt : string -> option (string * string)) (afterWord : bool)
    (s : string) : option (string * string) :=
  match (if afterWord then None else tryAt s) with
  | Some m => Some m
  | None =>
      match s with
      | EmptyString => None
      | String c s' => search tryAt (isWordChar c) s'
      end
  end.

Definition stepMatch (text : string) : option (string * string) :=
  match search stepPair false text with
  | Some m => Some m
  | None => search numberPair false text
  end.

(** The bullets of [cleanLine] among the code units of the model: the hyphen
    and the asterisk. *)
Definition isBullet (c : ascii) : bool := Ascii.eqb c "-" || Ascii.eqb c "*".
Definition isBracket (c : ascii) : bool := Ascii.eqb c "[" || Ascii.eqb c "]".

(** The first [replace] of [cleanLine]: a bullet and the white space after
    it, when there is some. *)
Definition stripBullet (l : string) : string :=
  match l with
  | String c rest =>
      if isBullet c && truthy (takeWhile isWhitespace rest)
      then trimStart rest else l
  | EmptyString => EmptyString
  end.

Fixpoint tabsToSpaces (l : string) : string :=
  match l with
  | EmptyString => EmptyString
  | String c l' => String (if Ascii.eqb c tab then " "%char else c) (tabsToSpaces l')
  end.

Definition cleanLine (l : string) : string :=
  tabsToSpaces (removeAll isBracket (stripBullet (trim l))).

Definition rawLinesOf (text : string) : list string :=
  filter (fun l => (0 <? String.length l)%nat)
         (map trim (splitOn (Ascii.eqb newline) text)).

(** Element 1 of [str.split(re)] for the pattern: a colon and the group of
    one or more characters of its line.  The first colon with a character
    of its line after it matches; the group runs to the end of that line. *)
Fixpoint colonGroup (str : string) : option string :=
  match str with
  | EmptyString => None
  | String c str' =>
      if Ascii.eqb c ":" && truthy (takeWhile (fun d => negb (isLineTerminator d)) str')
      then Some (takeWhile (fun d => negb (isLineTerminator d)) str')
      else colonGroup str'
  end.

Definition afterColon (str : string) : string :=
  match colonGroup str with
  | Some g => g
  | None => EmptyString
  end.

(** [str.replace(re, '')] for the pattern: at the start, digits, a dot or a
    closing parenthesis, any white space. *)
Definition stripNumbering (str : string) : string :=
  match dropWhile isDigit str with
  | String c r =>
      if truthy (takeWhile isDigit str) && (Ascii.eqb c "." || Ascii.eqb c ")")
      then trimStart r else str
  | EmptyString => str
  end.

Definition consChar (c : ascii) (pieces : list string) : list string :=
  match pieces with
  | [] => [String c EmptyString]
  | piece :: pieces' => String c piece :: pieces'
  end.

(** [str.split(re)] for the alternation: a comma, a semicolon, a tab, two or
    more white-space characters.  [inRun] is set inside a white-space
    separator, whose match is the longest run. *)
Fixpoint splitItems (inRun : bool) (str : string) : list string :=
  match str with
  | EmptyString => [EmptyString]
  | String c str' =>
      if inRun && isWhitespace c then splitItems true str'
      else if Ascii.eqb c "," || Ascii.eqb c ";" || Ascii.eqb c tab
      then EmptyString :: splitItems false str'
      else if isWhitespace c
              && match str' with
                 | String c' _ => isWhitespace c'
                 | EmptyString => false
                 end
      then EmptyString :: splitItems true str'
      else consChar c (splitItems false str')
  end.

Definition extractList (str : string) : list string :=
  let str1 := if includes str ":" then afterColon str else str in
  let str2 := stripNumbering str1 in
  filter (fun s => (0 <? String.length s)%nat
                   && negb (includes (toLowerCase s) "word count"))
         (map trim (splitItems false str2)).

Inductive SectionName : Type :=
| secNone | secQuickDrill | secHfw | secWordCards
| secSentences | secDictation | secPassage.

Inductive SubMode : Type :=
| subNone | subSounds | subReal | subElements
| subNonsense | subPhrases | subSentences.

(** The variables of the line loop. *)
Record LoopState : Type := mkState {
  extracted : Lesson;
  currentSection : SectionName;
  dictationSubMode : SubMode;
  rng : Rng
}.

Definition setQuickDrill (v : list string) (l : Lesson) : Lesson :=
  mkLesson (step l) (substep l) v (hfwList l) (wordCards l) (sentences l)
           (dictation l) (passage l).
Definition setHfwList (v : list string) (l : Lesson) : Lesson :=
  mkLesson (step l) (substep l) (quickDrill l) v (wordCards l) (sentences l)
           (dictation l) (passage l).
Definition setWordCards (v : list WordCard) (l : Lesson) : Lesson :=
  mkLesson (step l) (substep l) (quickDrill l) (hfwList l) v (sentences l)
           (dictation l) (passage l).
Definition setSentences (v : list string) (l : Lesson) : Lesson :=
  mkLesson (step l) (substep l) (quickDrill l) (hfwList l) (wordCards l) v
           (dictation l) (passage l).
Definition setDictation (v : DictationSection.t) (l : Lesson) : Lesson :=
  mkLesson (step l) (substep l) (quickDrill l) (hfwList l) (wordCards l)
           (sentences l) v (passage l).
Definition setPassage (v : option string) (l : Lesson) : Lesson :=
  mkLesson (step l) (substep l) (quickDrill l) (hfwList l) (wordCards l)
           (sentences l) (dictation l) v.

(** [line.split(re)[1]] for the pattern of one colon, and the test
    [content && content.trim()]. *)
Definition headerContent (line : string) : option string :=
  match nth_error (splitOn (Ascii.eqb ":") line) 1 with
  | Some content => if truthy content && truthy (trim content) then Some content else None
  | None => None
  end.

Definition startsWithNumber (n : string) (rawLine : string) : bool :=
  startsWith rawLine (n ++ ".") || startsWith rawLine (n ++ ")").

(** The sub-mode a line of the dictation section selects. *)
Definition detectSubMode (dictationSubMode : SubMode) (lower rawLine : string)
    : SubMode :=
  let detectedSubMode :=
    if startsWith lower "sound" || includes lower "sounds:" || includes lower "sounds"
    then subSounds
    else if startsWith lower "real" || includes lower "real words:"
            || includes lower "words"
    then subReal
    else if startsWith lower "element" || includes lower "word elements:"
            || includes lower "welded"
    then subElements
    else if startsWith lower "nonsense" || includes lower "nonsense words:"
    then subNonsense
    else if startsWith lower "phrase" || includes lower "phrases:"
    then subPhrases
    else if startsWith lower "sentence" || includes lower "sentences:"
    then subSentences
    else dictationSubMode in
  let same :=
    match detectedSubMode, dictationSubMode with
    | subNone, subNone | subSounds, subSounds | subReal, subReal
    | subElements, subElements | subNonsense, subNonsense
    | subPhrases, subPhrases | subSentences, subSentences => true
    | _, _ => false
    end in
  if same then
    if startsWithNumber "1" rawLine then subSounds
    else if startsWithNumber "2" rawLine then subReal
    else if startsWithNumber "3" rawLine then subElements
    else if startsWithNumber "4" rawLine then subNonsense
    else if startsWithNumber "5" rawLine then subPhrases
    else if startsWithNumber "6" rawLine then subSentences
    else detectedSubMode
  else detectedSubMode.

(** The pushes of one line of the dictation section. *)
Definition pushDictation (mode : SubMode) (line : string)
    (d : DictationSection.t) : DictationSection.t :=
  let contentToProcess :=
    if includes line ":" then afterColon line else stripNumbering line in
  if truthy contentToProcess && truthy (trim contentToProcess) then
    let items := extractList contentToProcess in
    let '(DictationSection.mk so re el no ph se) := d in
    match mode with
    | subSounds => DictationSection.mk (so ++ items) re el no ph se
    | subReal => DictationSection.mk so (re ++ items) el no ph se
    | subNonsense => DictationSection.mk so re el (no ++ items) ph se
    | subElements => DictationSection.mk so re (el ++ items) no ph se
    | subPhrases => DictationSection.mk so re el no (ph ++ items) se
    | subSentences =>
        let cleanSentence := stripNumbering (trim contentToProcess) in
        if (5 <? String.length cleanSentence)%nat
           && negb (includes (toLowerCase cleanSentence) "sentences")
        then DictationSection.mk so re el no ph (se ++ [cleanSentence])
        else d
    | subNone => d
    end
  else d.

Definition anyIncluded (lower : string) (keywords : list string) : bool :=
  existsb (includes lower) keywords.

(** One iteration of the loop over [rawLines]. *)
Definition processLine (st : LoopState) (rawLine : string) : LoopState :=
  let line := cleanLine rawLine in
  let lower := toLowerCase line in
  let ex := extracted st in
  if anyIncluded lower ["quick drill"; "visual drill"; "part 1"] then
    match headerContent line with
    | Some content =>
        mkState (setQuickDrill (quickDrill ex ++ extractList content) ex)
                secQuickDrill (dictationSubMode st) (rng st)
    | None => mkState ex secQuickDrill (dictationSubMode st) (rng st)
    end
  else if anyIncluded lower ["word cards"; "word list"; "part 3"; "words for reading"] then
    match headerContent line with
    | Some content =>
        let (newCards, rng') := makeCards (rng st) (extractList content) in
        mkState (setWordCards (wordCards ex ++ newCards) ex)
                secWordCards (dictationSubMode st) rng'
    | None => mkState ex secWordCards (dictationSubMode st) (rng st)
    end
  else if anyIncluded lower ["sight words"; "hfw"; "high frequency"] then
    match headerContent line with
    | Some content =>
        mkState (setHfwList (hfwList ex ++ extractList content) ex)
                secHfw (dictationSubMode st) (rng st)
    | None => mkState ex secHfw (dictationSubMode st) (rng st)
    end
  else if anyIncluded lower ["sentences for reading"; "part 5"; "reading sentences"] then
    mkState ex secSentences (dictationSubMode st) (rng st)
  else if anyIncluded lower ["dictation"; "part 8"] then
    mkState ex secDictation subNone (rng st)
  else if anyIncluded lower ["passage"; "story"; "part 9"] then
    mkState ex secPassage (dictationSubMode st) (rng st)
  else
    match currentSection st with
    | secQuickDrill =>
        if negb (includes line ":") && negb (includes (toLowerCase line) "part")
        then mkState (setQuickDrill (quickDrill ex ++ extractList line) ex)
                     secQuickDrill (dictationSubMode st) (rng st)
        else st
    | secHfw =>
        if negb (includes line ":")
        then mkState (setHfwList (hfwList ex ++ extractList line) ex)
                     secHfw (dictationSubMode st) (rng st)
        else st
    | secWordCards =>
        if negb (includes line ":")
        then
          let (newCards, rng') := makeCards (rng st) (extractList line) in
          mkState (setWordCards (wordCards ex ++ newCards) ex)
                  secWordCards (dictationSubMode st) rng'
        else st
    | secSentences =>
        if (5 <? String.length line)%nat && includes line " "
           && negb (includes lower "part 6")
        then mkState (setSentences (sentences ex ++ [line]) ex)
                     secSentences (dictationSubMode st) (rng st)
        else st
    | secPassage =>
        let before := match passage ex with Some p => p | None => EmptyString end in
        mkState (setPassage
                   (Some (before ++ line ++ String newline (String newline EmptyString)))
                   ex)
                secPassage (dictationSubMode st) (rng st)
    | secDictation =>
        let mode := detectSubMode (dictationSubMode st) lower rawLine in
        mkState (setDictation (pushDictation mode line (dictation ex)) ex)
                secDictation mode (rng st)
    | secNone => st
    end.

(** The part of [parseLessonText] after the CSV block. *)
Definition standardTextParser (rng : Rng) (text : string) : Lesson * Rng :=
  let extracted0 :=
    match stepMatch text with
    | Some (s1, s2) =>
        mkLesson (Some s1) (Some s2) [] [] [] [] DictationSection.empty None
    | None => initial
    end in
  let final :=
    fold_left processLine (rawLinesOf text) (mkState extracted0 secNone subNone rng) in
  (extracted final, Lessons.rng final).

Definition isCSV (firstLine : string) (lines : list string) : bool :=
  startsWith firstLine ",," || (includes firstLine "," && (2 <? List.length lines)%nat).

(** The block under [if (isCSV)].  [Returned (Some r)] is its [return] of
    [r]; [Returned None] is the way out of the block when no data row is
    found, to the standard text parser.  [reparse] is the call of
    [parseLessonText] on the dictation cell, with no target. *)
Definition csvBlock (reparse : Rng -> string -> outcome (Lesson * Rng))
    (rng : Rng) (firstLine : string) (rows : list string)
    (targetStep targetSubstep : option string) : outcome (option (Lesson * Rng)) :=
  let headerRow := parseCSVLine firstLine in
  let indices := buildIndices headerRow in
  let targetIdentifier := targetIdentifierOf targetStep targetSubstep in
  match findDataRow indices targetIdentifier rows with
  | Returned (Some dataRow) =>
      let (extracted, rng1) := extractRow indices dataRow rng in
      let dictationText := getCol indices dataRow ["dictation"] in
      if truthy dictationText then
        match reparse rng1 dictationText with
        | Returned (dictationData, rng2) =>
            Returned (Some (finishRow extracted (Some dictationData)
                                      targetStep targetSubstep, rng2))
        | Thrown => Thrown
        | OutOfFuel => OutOfFuel
        end
      else Returned (Some (finishRow extracted None targetStep targetSubstep, rng1))
  | Returned None => Returned None
  | Thrown => Thrown
  | OutOfFuel => OutOfFuel
  end.

(** [parseLessonText]; [fuel] bounds the depth of the self-invocation on the
    dictation cell, and [None] stands for an argument that is left out. *)
Fixpoint parseLessonText (fuel : nat) (rng : Rng) (text : string)
    (targetStep targetSubstep : option string) : outcome (Lesson * Rng) :=
  match fuel with
  | 0 => OutOfFuel
  | S fuel' =>
      let lines := splitOn (Ascii.eqb newline) text in
      match lines with
      | [] => Thrown
      | line0 :: rows =>
          let firstLine := trim line0 in
          if isCSV firstLine lines then
            match csvBlock (fun rng1 cell => parseLessonText fuel' rng1 cell None None)
                           rng firstLine rows targetStep targetSubstep with
            | Returned (Some r) => Returned r
            | Returned None => Returned (standardTextParser rng text)
            | Thrown => Thrown
            | OutOfFuel => OutOfFuel
            end
          else Returned (standardTextParser rng text)
      end
  end.

End Lessons.

(** ** The callers of the two parsers *)
Module Callers.
Import JS.

(** [getTileColor]: the classes of the six card colours. *)
Definition peach : string := "bg-[#FFD6B5] border-[#EBC2A1] text-black".
Definition green : string := "bg-[#A6D785] border-[#95C674] text-black".
Definition yellow : string := "bg-[#FFF275] border-[#EBE064] text-black".
Definition white : string := "bg-white border-[#CCCCCC] text-black min-w-[5rem]".
Definition invisible : string := "bg-transparent border-transparent shadow-none".
Definition ivory : string := "bg-[#FFF8E7] border-[#E6DFC0] text-black".

Definition getTileColor (type : Tiles.TileType) : string :=
  match type with
  | Tiles.vowel | Tiles.vowelTeam | Tiles.rControl => peach
  | Tiles.welded => green
  | Tiles.suffix | Tiles.prefix => yellow
  | Tiles.syllable => white
  | Tiles.space => invisible
  | Tiles.digraph | Tiles.consonant => ivory
  end.

(** [getGameTile] of the teaching board: the tile of a text that is one
    tile, a syllable card with the whole text otherwise. *)
Definition getGameTile (text : string) : outcome Tiles.TileData :=
  match Tiles.parseWordToTiles text with
  | Returned parsed =>
      match parsed with
      | [tile] => Returned tile
      | _ => Returned (Tiles.mkTile text Tiles.syllable)
      end
  | Thrown => Thrown
  | OutOfFuel => OutOfFuel
  end.

(** The last part of [renderCardVisual], after its two early returns: the
    text that the face of a card displays and the classes of its
    background. *)
Definition cardFace (text : string) (type : Lessons.CardType)
    : outcome (string * string) :=
  match Tiles.parseWordToTiles text with
  | Returned tiles =>
      match tiles, type with
      | [_], Lessons.hfw => Returned (text, "bg-white border-stone-300")
      | [tile], _ => Returned (Tiles.text tile, getTileColor (Tiles.type tile))
      | _, _ => Returned (text, "bg-white border-stone-300")
      end
  | Thrown => Thrown
  | OutOfFuel => OutOfFuel
  end.

(** What [renderCardVisual] draws: the red card of the OOPS game, the back
    of a card, or a face with its text and the classes of its background. *)
Inductive CardVisual : Type :=
| oopsCard
| cardBack
| face (displayText cardBgClass : string).

(** [renderCardVisual]: the card that says OOPS! is drawn red when it lies
    face up, a card that lies face down shows its back, and only then is
    the text tokenized. *)
Definition renderCardVisual (text : string) (type : Lessons.CardType)
    (isFaceUp : bool) : outcome CardVisual :=
  if String.eqb text "OOPS!" && isFaceUp then Returned oopsCard
  else if negb isFaceUp then Returned cardBack
  else
    match cardFace text type with
    | Returned (displayText, cardBgClass) => Returned (face displayText cardBgClass)
    | Thrown => Thrown
    | OutOfFuel => OutOfFuel
    end.

(** The lesson of the form: the fields an import can write, and [rest] for
    all the others. *)
Record FormData (Rest : Type) : Type := mkForm {
  step : string;
  substep : string;
  quickDrill : list string;
  hfwList : list string;
  wordCards : list Lessons.WordCard;
  sentences : list string;
  dictation : Lessons.DictationSection.t;
  passage : option string;
  rest : Rest
}.
Arguments mkForm {Rest}.
Arguments step {Rest}.
Arguments substep {Rest}.
Arguments quickDrill {Rest}.
Arguments hfwList {Rest}.
Arguments wordCards {Rest}.
Arguments sentences {Rest}.
Arguments dictation {Rest}.
Arguments passage {Rest}.
Arguments rest {Rest}.

(** The spread of the form and then of the parsed record: a field of the
    parsed record wins when it is present. *)
Definition merge {Rest : Type} (prev : FormData Rest) (parsed : Lessons.Lesson)
    : FormData Rest :=
  mkForm (match Lessons.step parsed with Some s => s | None => step prev end)
         (match Lessons.substep parsed with Some s => s | None => substep prev end)
         (Lessons.quickDrill parsed) (Lessons.hfwList parsed)
         (Lessons.wordCards parsed) (Lessons.sentences parsed)
         (Lessons.dictation parsed)
         (match Lessons.passage parsed with Some p => Some p | None => passage prev end)
         (rest prev).

(** [handleImport] of the lesson form: the new form, or the exception that
    leaves the form as it is.  Two nested calls are all that
    [parseLessonText] ever makes. *)
Definition handleImport {Rest : Type} (formData : FormData Rest)
    (importText : string) (rng : Lessons.Rng)
    : outcome (FormData Rest * Lessons.Rng) :=
  match Lessons.parseLessonText 2 rng importText
          (Some (step formData)) (Some (substep formData)) with
  | Returned (parsed, rng') => Returned (merge formData parsed, rng')
  | Thrown => Thrown
  | OutOfFuel => OutOfFuel
  end.

End Callers.

(** ** Facts about the string primitives *)
Module StringFacts.
Import JS.

(** Every character of [s] satisfies [p]. *)
Fixpoint allChars (p : ascii -> bool) (s : string) : bool :=
  match s with
  | EmptyString => true
  | String c s' => p c && allChars p s'
  end.

Fixpoint countChars (p : ascii -> bool) (s : string) : nat :=
  match s with
  | EmptyString => 0
  | String c s' => (if p c then 1 else 0) + countChars p s'
  end.

Lemma append_nil_r (s : string) : s ++ EmptyString = s.
Proof. induction s as [|c s IH]; simpl; [reflexivity | now rewrite IH]. Qed.

Lemma append_assoc (a b c : string) : (a ++ b) ++ c = a ++ b ++ c.
Proof. induction a as [|x a IH]; simpl; [reflexivity | now rewrite IH]. Qed.

Lemma length_append (a b : string) :
  String.length (a ++ b) = String.length a + String.length b.
Proof. induction a as [|x a IH]; simpl; [reflexivity | now rewrite IH]. Qed.

Lemma length_zero (s : string) : String.length s = 0 -> s = EmptyString.
Proof. destruct s; simpl; [reflexivity | discriminate]. Qed.

Lemma take_slice (n : nat) (s : string) : take n s ++ slice n s = s.
Proof.
  revert s; induction n as [|n IH]; intros [|c s]; simpl; try reflexivity.
  now rewrite IH.
Qed.

Lemma length_slice (n : nat) (s : string) :
  String.length (slice n s) = String.length s - n.
Proof.
  revert s; induction n as [|n IH]; intros [|c s]; simpl; try reflexivity.
  apply IH.
Qed.

Lemma takeWhile_dropWhile (p : ascii -> bool) (s : string) :
  takeWhile p s ++ dropWhile p s = s.
Proof.
  induction s as [|c s IH]; simpl; [reflexivity|].
  destruct (p c); simpl; [now rewrite IH | reflexivity].
Qed.

Lemma slice_append (a b : string) : slice (String.length a) (a ++ b) = b.
Proof. induction a as [|x a IH]; simpl; [now destruct b | exact IH]. Qed.

Lemma slice_of_split (s a b : string) :
  s = a ++ b -> s = a ++ slice (String.length a) s.
Proof. intros ->. now rewrite slice_append. Qed.

Lemma substring_from_zero (n : nat) (s : string) : substring 0 n s = take n s.
Proof. unfold substring; simpl. now rewrite Nat.sub_0_r. Qed.

Lemma substring_interior (k : nat) (o : ascii) (rest : string) :
  substring 1 (S k) (String o rest) = take k rest.
Proof. unfold substring; simpl. now rewrite Nat.sub_0_r. Qed.

Lemma indexOf_Some (s : string) (c : ascii) (k : nat) :
  indexOf s c = Some k ->
  s = take k s ++ String c (slice (S k) s)
  /\ indexOf (take k s) c = None /\ String.length (take k s) = k.
Proof.
  revert k; induction s as [|d s IH]; simpl; intros k H; [discriminate|].
  destruct (Ascii.eqb d c) eqn:E.
  - injection H as <-. apply Ascii.eqb_eq in E. subst d. now destruct s.
  - destruct (indexOf s c) as [j|] eqn:Ej; simpl in H; [|discriminate].
    injection H as <-. destruct (IH j eq_refl) as (IH1 & IH2 & IH3).
    simpl. rewrite E, IH2, IH3. repeat split.
    f_equal. exact IH1.
Qed.

Lemma indexOf_append (a b : string) (c : ascii) :
  indexOf a c = None -> indexOf (a ++ String c b) c = Some (String.length a).
Proof.
  induction a as [|d a IH]; simpl; intros H.
  - now rewrite Ascii.eqb_refl.
  - destruct (Ascii.eqb d c); [discriminate|].
    destruct (indexOf a c); [discriminate|]. now rewrite IH.
Qed.

Lemma take_append (a b : string) : take (String.length a) (a ++ b) = a.
Proof. induction a as [|x a IH]; simpl; [reflexivity | now rewrite IH]. Qed.

Lemma removeAll_append (p : ascii -> bool) (a b : string) :
  removeAll p (a ++ b) = removeAll p a ++ removeAll p b.
Proof.
  induction a as [|x a IH]; simpl; [reflexivity|].
  destruct (p x); simpl; now rewrite IH.
Qed.

Lemma allChars_append p a b :
  allChars p (a ++ b) = allChars p a && allChars p b.
Proof. induction a as [|c a IH]; simpl; [reflexivity | now rewrite IH, andb_assoc]. Qed.

Lemma allChars_takeWhile p q s : allChars p s = true -> allChars p (takeWhile q s) = true.
Proof.
  induction s as [|c s IH]; simpl; [reflexivity|].
  intros [Hc Hs]%andb_true_iff. destruct (q c); simpl; [|reflexivity].
  now rewrite Hc, IH.
Qed.

Lemma allChars_dropWhile p q s : allChars p s = true -> allChars p (dropWhile q s) = true.
Proof.
  induction s as [|c s IH]; simpl; [reflexivity|].
  intros H. destruct (q c); simpl; [|exact H].
  apply andb_true_iff in H as [_ Hs]. now apply IH.
Qed.

Lemma allChars_trimEnd p s : allChars p s = true -> allChars p (trimEnd s) = true.
Proof.
  induction s as [|c s IH]; simpl; [reflexivity|].
  intros [Hc Hs]%andb_true_iff.
  destruct (isWhitespace c && isEmpty (trimEnd s)); simpl; [reflexivity|].
  now rewrite Hc, IH.
Qed.

Lemma allChars_trim p s : allChars p s = true -> allChars p (trim s) = true.
Proof. intros H. now apply allChars_trimEnd, allChars_dropWhile. Qed.

(** A split has a first piece, the text before the first separator, and as
    many further pieces as there are separators. *)
Lemma splitOn_head sep s :
  splitOn sep s = takeWhile (fun c => negb (sep c)) s :: tl (splitOn sep s).
Proof.
  induction s as [|c s IH]; simpl; [reflexivity|].
  destruct (sep c); simpl; [reflexivity|].
  rewrite IH. reflexivity.
Qed.

Lemma splitOn_length sep s :
  List.length (splitOn sep s) = S (countChars sep s).
Proof.
  induction s as [|c s IH]; simpl; [reflexivity|].
  destruct (sep c); simpl; [now rewrite IH|].
  rewrite splitOn_head. simpl. rewrite splitOn_head in IH. exact IH.
Qed.

Lemma splitOn_pieces sep s :
  Forall (fun piece => allChars (fun c => negb (sep c)) piece = true) (splitOn sep s).
Proof.
  induction s as [|c s IH]; simpl; [now repeat constructor|].
  destruct (sep c) eqn:E; [now constructor|].
  destruct (splitOn sep s) as [|piece pieces]; [now repeat constructor; simpl; rewrite E|].
  inversion IH as [|? ? Hpiece Hpieces]; subst.
  constructor; [simpl; now rewrite E, Hpiece | exact Hpieces].
Qed.

Lemma splitOn_single sep s :
  allChars (fun c => negb (sep c)) s = true -> splitOn sep s = [s].
Proof.
  induction s as [|c s IH]; simpl; [reflexivity|].
  intros [Hc Hs]%andb_true_iff. apply negb_true_iff in Hc. rewrite Hc, (IH Hs).
  reflexivity.
Qed.

End StringFacts.

(** ** Properties of the tile tokenizer *)
Module TilesSpec.
Import JS Tiles StringFacts.

(** The stretch of the input a tile stands for: a space for a space tile,
    the text between its delimiters for an override, the text itself for
    the shorthands and the automatic cascade. *)
Definition covers (t : TileData) (segment : string) : Prop :=
  match type t with
  | space => text t = EmptyString /\ segment = " "
  | syllable => segment = "|" ++ text t ++ "|"
  | suffix => segment = "<" ++ text t ++ ">" \/ segment = text t
  | vowel => segment = "[" ++ text t ++ "]" \/ segment = text t
  | consonant => segment = "{" ++ text t ++ "}" \/ segment = text t
  | welded => segment = "/" ++ text t ++ "/" \/ segment = text t
  | prefix | vowelTeam | digraph | rControl => segment = text t
  end.

Definition joined (segments : list string) : string :=
  fold_right append EmptyString segments.

(** One iteration removes a non-empty segment from the front of [remaining]
    and pushes a tile that stands for it. *)
Definition advances (remaining : string) (r : TileData * string) : Prop :=
  exists segment,
    covers (fst r) segment /\ remaining = segment ++ snd r
    /\ 0 < String.length segment.

(** What a tile shows: its text, and one space for a space tile. *)
Definition shown (t : TileData) : string :=
  match type t with
  | space => " "
  | _ => text t
  end.

Definition tilesText (tiles : list TileData) : string :=
  joined (map shown tiles).

Definition isDelimiter (c : ascii) : bool :=
  existsb (Ascii.eqb c) ["|"; "<"; ">"; "["; "]"; "{"; "}"; "/"]%char.

(** The delimiter-stripped form of a string. *)
Definition strip (s : string) : string := removeAll isDelimiter s.

Definition delimiterFree (s : string) : bool :=
  allChars (fun c => negb (isDelimiter c)) s.

(** The inputs of the round-trip property: letters, spaces and the
    delimiters of the overrides. *)
Definition lettersSpacesDelimiters (s : string) : bool :=
  allChars (fun c => isLetter c || Ascii.eqb c " " || isDelimiter c) s.

Lemma space_advances remaining r :
  (if startsWith remaining " "
   then Some (mkTile EmptyString space, slice 1 remaining) else None) = Some r ->
  advances remaining r.
Proof.
  destruct remaining as [|c rest]; simpl; [discriminate|].
  rewrite andb_true_r. destruct (Ascii.eqb c " ") eqn:E; [|discriminate].
  apply Ascii.eqb_eq in E; subst c. intros [= <-].
  exists " "; simpl. repeat split; auto.
Qed.

Lemma syllable_advances remaining r :
  match syllableMatch remaining with
  | Some (m0, m1) => Some (mkTile m1 syllable, slice (String.length m0) remaining)
  | None => None
  end = Some r ->
  advances remaining r.
Proof.
  destruct remaining as [|c rest]; simpl; [discriminate|].
  destruct (Ascii.eqb c "|") eqn:E; [|discriminate].
  apply Ascii.eqb_eq in E; subst c.
  destruct (indexOf rest "|") as [k|] eqn:Ek; [|discriminate].
  intros [= <-]. destruct (indexOf_Some _ _ _ Ek) as (Hrest & _ & Hlen).
  exists ("|" ++ take k rest ++ "|"); simpl. repeat split; [|lia].
  rewrite length_append, Hlen; simpl. replace (k + 1) with (S k) by lia.
  f_equal. rewrite append_assoc. exact Hrest.
Qed.

Lemma slice_takeWhile (p : ascii -> bool) (s : string) :
  slice (String.length (takeWhile p s)) s = dropWhile p s.
Proof. rewrite <- (takeWhile_dropWhile p s) at 2. apply slice_append. Qed.

Lemma delimited_advances (o c : ascii) ty close remaining r :
  (forall t, covers (mkTile t ty) (String o (t ++ String c EmptyString))) ->
  (forall rest, remaining = String o rest -> close = option_map S (indexOf rest c)) ->
  delimited (String o EmptyString) close ty remaining = Some r ->
  advances remaining r.
Proof.
  intros Hcov Hclose. unfold delimited.
  destruct remaining as [|d rest]; [discriminate|].
  cbn [startsWith]. rewrite andb_true_r.
  destruct (Ascii.eqb d o) eqn:E; [|discriminate].
  apply Ascii.eqb_eq in E; subst d. rewrite (Hclose rest eq_refl).
  destruct (indexOf rest c) as [k|] eqn:Ek; [|discriminate].
  cbn [option_map]. rewrite substring_interior. intros [= <-].
  destruct (indexOf_Some _ _ _ Ek) as (Hrest & _ & Hlen).
  exists (String o (take k rest ++ String c EmptyString)).
  split; [apply Hcov|]. cbn [fst snd]. split; [|simpl; lia].
  replace (k + 1) with (S k) by lia. cbn [append].
  f_equal. rewrite append_assoc. exact Hrest.
Qed.

Lemma suffix_advances remaining r :
  match suffixMatch remaining with
  | Some m0 => Some (mkTile m0 suffix, slice (String.length m0) remaining)
  | None => None
  end = Some r ->
  advances remaining r.
Proof.
  destruct remaining as [|c rest]; simpl; [discriminate|].
  destruct (Ascii.eqb c "-") eqn:E; [|discriminate].
  apply Ascii.eqb_eq in E; subst c.
  destruct (isEmpty (takeWhile isAlnum rest)); simpl; [discriminate|].
  intros [= <-]. exists (String "-" (takeWhile isAlnum rest)).
  split; [now right|]. simpl. split; [|lia].
  now rewrite slice_takeWhile, takeWhile_dropWhile.
Qed.

Lemma startsWith_split (s p : string) :
  startsWith s p = true -> s = p ++ slice (String.length p) s.
Proof.
  revert s; induction p as [|c p IH]; intros s H; simpl in *; [now destruct s|].
  destruct s as [|d s]; [discriminate|].
  apply andb_true_iff in H as [E H]. apply Ascii.eqb_eq in E; subst d.
  f_equal. now apply IH.
Qed.

Lemma prefix_advances remaining r :
  match prefixMatch remaining with
  | Some m0 => Some (mkTile m0 prefix, slice (String.length m0) remaining)
  | None => None
  end = Some r ->
  advances remaining r.
Proof.
  unfold prefixMatch.
  destruct (negb (isEmpty (takeWhile isAlnum remaining))
            && startsWith (dropWhile isAlnum remaining) "-") eqn:E; [|discriminate].
  apply andb_true_iff in E as [_ E]. apply startsWith_split in E.
  intros [= <-]. exists (takeWhile isAlnum remaining ++ "-").
  split; [reflexivity|]. cbn [fst snd].
  assert (H : remaining =
              (takeWhile isAlnum remaining ++ "-")
              ++ slice 1 (dropWhile isAlnum remaining)).
  { rewrite append_assoc. change ("-" ++ ?x) with (String "-" x).
    rewrite <- (takeWhile_dropWhile isAlnum remaining) at 1.
    f_equal. exact E. }
  split.
  - exact (slice_of_split _ _ _ H).
  - rewrite length_append. simpl. lia.
Qed.

Lemma take_nonempty (n : nat) (s : string) :
  0 < n -> s <> EmptyString -> 0 < String.length (take n s).
Proof. destruct n, s; simpl; intros; try lia; congruence. Qed.

Lemma tableMatch_advances table ty current remaining r :
  Forall (fun p => 0 < String.length p) table ->
  (forall t, covers (mkTile t ty) t) ->
  remaining <> EmptyString ->
  tableMatch table ty current remaining = Some r ->
  advances remaining r.
Proof.
  intros Htable Hcov Hne.
  induction Htable as [|p table Hp _ IH]; simpl; [discriminate|].
  destruct (startsWith current p); [|exact IH].
  intros [= <-]. rewrite substring_from_zero.
  exists (take (String.length p) remaining). cbn [fst snd].
  split; [apply Hcov|]. split; [now rewrite take_slice|].
  now apply take_nonempty.
Qed.

Lemma tables_nonempty :
  Forall (fun p => 0 < String.length p)
         (weldedSounds ++ vowelTeams ++ rControlled ++ digraphs)%list.
Proof. repeat constructor. Qed.

Lemma table_nonempty table :
  incl table (weldedSounds ++ vowelTeams ++ rControlled ++ digraphs)%list ->
  Forall (fun p => 0 < String.length p) table.
Proof.
  intros H. apply Forall_forall. intros p Hp.
  exact (proj1 (Forall_forall _ _) tables_nonempty p (H p Hp)).
Qed.

(** One rule of the cascade: it fires and advances, or the next one is tried. *)
Ltac rule lemma :=
  match goal with
  | |- exists r, orElse ?o _ = Returned r /\ _ =>
      let E := fresh "E" in
      destruct o as [r|] eqn:E;
      [ exists r; split; [reflexivity | revert E; lemma] | cbn [orElse]; clear E ]
  end.

(** The loop body never throws on a non-empty [remaining], and it advances. *)
Lemma body_advances remaining :
  remaining <> EmptyString ->
  exists r, body remaining = Returned r /\ advances remaining r.
Proof.
  intros Hne. unfold body.
  rule ltac:(apply space_advances).
  rule ltac:(apply syllable_advances).
  rule ltac:(apply (delimited_advances "<" ">");
             [ intros t; now left
             | intros rest ->; reflexivity ]).
  rule ltac:(apply suffix_advances).
  rule ltac:(apply prefix_advances).
  rule ltac:(apply (delimited_advances "[" "]");
             [ intros t; now left
             | intros rest ->; reflexivity ]).
  rule ltac:(apply (delimited_advances "{" "}");
             [ intros t; now left
             | intros rest ->; reflexivity ]).
  rule ltac:(apply (delimited_advances "/" "/");
             [ intros t; now left
             | intros rest ->; unfold indexOfFrom; cbn [slice];
               now destruct (indexOf rest "/") ]).
  cbv zeta.
  rule ltac:(apply tableMatch_advances;
             [ apply table_nonempty; intros p Hp; apply in_or_app; now left
             | intros t; now right | exact Hne ]).
  rule ltac:(apply tableMatch_advances;
             [ apply table_nonempty; intros p Hp;
               apply in_or_app; right; apply in_or_app; now left
             | reflexivity | exact Hne ]).
  rule ltac:(apply tableMatch_advances;
             [ apply table_nonempty; intros p Hp;
               do 2 (apply in_or_app; right); apply in_or_app; now left
             | reflexivity | exact Hne ]).
  rule ltac:(apply tableMatch_advances;
             [ apply table_nonempty; intros p Hp;
               do 3 (apply in_or_app; right); exact Hp
             | reflexivity | exact Hne ]).
  destruct remaining as [|char rest]; [congruence|].
  destruct (existsb (Ascii.eqb (lowerChar char)) vowels);
    eexists; (split; [reflexivity|]);
    exists (String char EmptyString); cbn; repeat split; auto.
Qed.

Lemma loop_step fuel tiles c rest :
  loop (S fuel) tiles (String c rest) =
  match body (String c rest) with
  | Returned (tile, remaining') => loop fuel (tiles ++ [tile])%list remaining'
  | Thrown => Thrown
  | OutOfFuel => OutOfFuel
  end.
Proof. reflexivity. Qed.

Lemma loop_done fuel tiles : loop fuel tiles EmptyString = Returned tiles.
Proof. destruct fuel; reflexivity. Qed.

(** With fuel for every character the loop returns, and the tiles it has
    pushed stand for segments that make up [remaining]. *)
Lemma loop_covers fuel :
  forall tiles remaining,
    String.length remaining <= fuel ->
    exists new segments,
      loop fuel tiles remaining = Returned (tiles ++ new)%list
      /\ Forall2 covers new segments /\ joined segments = remaining.
Proof.
  induction fuel as [|fuel IH]; intros tiles remaining Hlen.
  - apply Nat.le_0_r, length_zero in Hlen; subst remaining.
    exists [], []. rewrite app_nil_r. repeat split. constructor.
  - destruct remaining as [|c rest].
    { exists [], []. rewrite app_nil_r. repeat split. constructor. }
    destruct (body_advances (String c rest)) as ([tile rest'] & Hbody & Hadv);
      [discriminate|].
    rewrite loop_step, Hbody.
    destruct Hadv as (segment & Hcov & Hsplit & Hpos). cbn [fst snd] in *.
    destruct (IH (tiles ++ [tile])%list rest') as (new & segments & Hloop & Hall & Hjoin).
    { apply (f_equal String.length) in Hsplit.
      rewrite length_append in Hsplit. simpl in Hlen, Hsplit. lia. }
    exists (tile :: new), (segment :: segments).
    rewrite Hloop, <- app_assoc. repeat split.
    + now constructor.
    + simpl. now rewrite Hjoin.
Qed.

Lemma loop_more_fuel fuel :
  forall tiles remaining result extra,
    loop fuel tiles remaining = Returned result ->
    loop (fuel + extra) tiles remaining = Returned result.
Proof.
  induction fuel as [|fuel IH]; intros tiles remaining result extra.
  - destruct remaining; [now rewrite !loop_done | discriminate].
  - destruct remaining as [|c rest]; [now rewrite !loop_done|].
    cbn [Nat.add]. rewrite !loop_step.
    destruct (body (String c rest)) as [[tile rest']| |]; try discriminate.
    apply IH.
Qed.

Lemma shown_strip t segment :
  covers t segment -> strip (shown t) = strip segment.
Proof.
  unfold covers, shown, strip. destruct t as [txt []]; cbn [type text];
    repeat match goal with
           | |- _ \/ _ -> _ => intros [-> | ->]
           | |- _ /\ _ -> _ => intros [-> ->]
           | |- _ = _ -> _ => intros ->
           end;
    try reflexivity;
    cbn; rewrite removeAll_append; cbn; now rewrite append_nil_r.
Qed.

Lemma shown_delimiterFree t segment :
  covers t segment -> delimiterFree segment = true -> shown t = segment.
Proof.
  unfold covers, shown, delimiterFree. destruct t as [txt []]; cbn [type text];
    repeat match goal with
           | |- _ \/ _ -> _ => intros [-> | ->]
           | |- _ /\ _ -> _ => intros [-> ->]
           | |- _ = _ -> _ => intros ->
           end;
    try reflexivity; cbn; discriminate.
Qed.

Lemma tilesText_strip tiles segments :
  Forall2 covers tiles segments ->
  strip (tilesText tiles) = strip (joined segments).
Proof.
  unfold tilesText. induction 1 as [|t seg tiles segments Hcov _ IH]; [reflexivity|].
  cbn [map joined fold_right]. unfold strip in *.
  rewrite !removeAll_append. f_equal; [now apply shown_strip | exact IH].
Qed.

Lemma tilesText_delimiterFree tiles segments :
  Forall2 covers tiles segments ->
  delimiterFree (joined segments) = true ->
  tilesText tiles = joined segments.
Proof.
  unfold tilesText. induction 1 as [|t seg tiles segments Hcov _ IH]; [reflexivity|].
  cbn [map joined fold_right]. unfold delimiterFree in *.
  rewrite allChars_append. intros [H1 H2]%andb_true_iff.
  f_equal; [now apply shown_delimiterFree | now apply IH].
Qed.

(** *** The claims about the tokenizer *)

(** C2. Override precedence: a braced, a bracketed and a slashed text each
    give exactly one tile of the kind of the override, whatever the
    automatic cascade makes of the interior ([a] alone is a vowel tile, [an]
    alone a welded tile). *)
Theorem override_precedence :
  parseWordToTiles "{a}" = Returned [mkTile "a" consonant]
  /\ parseWordToTiles "[a]" = Returned [mkTile "a" vowel]
  /\ parseWordToTiles "/an/" = Returned [mkTile "an" welded]
  /\ parseWordToTiles "a" = Returned [mkTile "a" vowel]
  /\ parseWordToTiles "{a}" <> Returned [mkTile "a" vowel]
  /\ parseWordToTiles "{an}" = Returned [mkTile "an" consonant]
  /\ parseWordToTiles "[sh]" = Returned [mkTile "sh" vowel].
Proof. repeat split; try reflexivity. discriminate. Qed.

(** The tokenizer returns on every word, with tiles that stand for segments
    that make up the word, and more fuel changes nothing. *)
Lemma tokenizer_covers word :
  exists tiles segments,
    parseWordToTiles word = Returned tiles
    /\ Forall2 covers tiles segments /\ joined segments = word
    /\ forall extra, loop (String.length word + extra) [] word = Returned tiles.
Proof.
  unfold parseWordToTiles.
  destruct (loop_covers (String.length word) [] word (le_n _))
    as (tiles & segments & Hloop & Hcov & Hjoin).
  exists tiles, segments. cbn [app] in Hloop. repeat split; auto.
  intros extra. now apply loop_more_fuel.
Qed.

(** C3. The tokenizer is total: on every word it returns (it neither throws
    nor runs out of the fuel of the length of the word, and more fuel gives
    the same tiles), its tiles stand for segments that make up the whole
    word, and the empty word gives no tile. *)
Theorem parseWordToTiles_total :
  (forall word,
     exists tiles segments,
       parseWordToTiles word = Returned tiles
       /\ Forall2 covers tiles segments /\ joined segments = word
       /\ forall extra, loop (String.length word + extra) [] word = Returned tiles)
  /\ parseWordToTiles EmptyString = Returned [].
Proof. split; [exact tokenizer_covers | reflexivity]. Qed.

(** C1, as stated, fails on an opener that is never closed: the brace is a
    consonant tile, so the text of the tiles is the word itself and not its
    delimiter-stripped form. *)
Lemma unmatched_opener_kept :
  lettersSpacesDelimiters "{cat" = true
  /\ parseWordToTiles "{cat"
     = Returned [mkTile "{" consonant; mkTile "c" consonant;
                 mkTile "a" vowel; mkTile "t" consonant]
  /\ tilesText [mkTile "{" consonant; mkTile "c" consonant;
                mkTile "a" vowel; mkTile "t" consonant] = "{cat"
  /\ strip "{cat" = "cat".
Proof. repeat split. Qed.

(** C7, as the code has it. The search for the closing slash starts right
    after the opening one, so the opening slash is never its own closer: the
    tile holds the text up to the next slash, which may be empty. *)
Theorem welded_override_interior :
  forall interior rest,
    indexOf interior "/" = None ->
    body ("/" ++ interior ++ "/" ++ rest) = Returned (mkTile interior welded, rest).
Proof.
  intros interior rest H. unfold body.
  cbn [append startsWith syllableMatch suffixMatch delimited Ascii.eqb Bool.eqb
       andb orElse].
  unfold prefixMatch. cbn [takeWhile isEmpty negb andb orElse].
  replace (isAlnum "/") with false by reflexivity. cbn [isEmpty negb andb orElse].
  unfold indexOfFrom. cbn [slice]. rewrite (indexOf_append _ _ _ H).
  cbn [option_map Nat.add]. rewrite substring_interior, take_append.
  cbn [orElse]. do 2 f_equal.
  replace (String.length interior + 1) with (String.length (interior ++ "/"))
    by (rewrite length_append; reflexivity).
  cbn [slice]. change (String "/" rest) with ("/" ++ rest).
  now rewrite <- append_assoc, slice_append.
Qed.

Lemma welded_override_interior_witness :
  indexOf "an" "/" = None
  /\ body ("/" ++ "an" ++ "/" ++ "ts") = Returned (mkTile "an" welded, "ts").
Proof.
  split; [reflexivity | apply (welded_override_interior "an" "ts"); reflexivity].
Defined.

(** C7, as stated, fails on two slashes: the closing slash is found at
    index 1 and the welded tile has an empty text. *)
Lemma empty_welded_tile :
  parseWordToTiles "//" = Returned [mkTile EmptyString welded]
  /\ body "//" = Returned (mkTile EmptyString welded, EmptyString).
Proof. split; reflexivity. Qed.

End TilesSpec.

(** ** Properties of the lesson-text importer *)
Module LessonsSpec.
Import JS Lessons StringFacts.

(** Closed facts about concrete texts are settled by evaluation. *)
Ltac evaluate :=
  cbv zeta; repeat match goal with |- _ /\ _ => split end; vm_compute; reflexivity.

Definition nl : string := String newline EmptyString.
Definition dq : string := String dquote EmptyString.
Definition quoted (s : string) : string := dq ++ s ++ dq.

(** A random source whose draws are all different. *)
Definition countingIds : Rng :=
  mkRng (fun n => "id" ++ String (chr (48 + n)) EmptyString) 0.

Definition returnedLesson (o : outcome (Lesson * Rng)) : option Lesson :=
  match o with
  | Returned (l, _) => Some l
  | _ => None
  end.

(** The header and the data row of the CSV example, with a line break
    between them and none after the row. *)
Definition csvExample : string :=
  "Lesson Plan,New Sight Words,Sentences" ++ nl
  ++ quoted "3.1" ++ "," ++ quoted "full,pull" ++ ","
  ++ quoted "The cat sat. More text here.".

(** A header with the lesson-plan column in third place and a row of two
    cells. *)
Definition shortRowCsv : string :=
  "Step,Notes,Lesson Plan" ++ nl ++ "1.1,review" ++ nl.

(** C4. A row shorter than the header throws when a target is given: the
    lesson-plan cell of the row is undefined, the first cell is not the
    target, and [startsWith] is read from [undefined]. *)
Theorem short_row_throws :
  forall fuel rng,
    parseLessonText (S fuel) rng shortRowCsv (Some "3") (Some "1") = Thrown.
Proof. intros fuel rng. evaluate. Qed.

(** C6, as the code has it. With a line break after the data row the
    document has three lines, the CSV detector accepts it, and the row that
    matches the target gives the two sight words and the sentence cell as
    one sentence. *)
Theorem csv_round_trip :
  forall fuel rng,
    let result :=
      returnedLesson
        (parseLessonText (S fuel) rng (csvExample ++ nl) (Some "3") (Some "1")) in
    option_map hfwList result = Some ["full"; "pull"]
    /\ option_map sentences result = Some ["The cat sat. More text here."]
    /\ option_map step result = Some (Some "3")
    /\ option_map substep result = Some (Some "1").
Proof. intros fuel rng. evaluate. Qed.

(** C6, as stated, fails: the two rows alone are two lines, the detector
    wants more than two, and the standard text parser reads the rows as a
    sight-word section. *)
Lemma two_line_csv_is_freeform :
  isCSV (trim "Lesson Plan,New Sight Words,Sentences")
        (splitOn (Ascii.eqb newline) csvExample) = false
  /\ option_map hfwList
       (returnedLesson (parseLessonText 2 countingIds csvExample (Some "3") (Some "1")))
     = Some [quoted "3.1"; dq ++ "full"; "pull" ++ dq;
             quoted "The cat sat. More text here."]
  /\ option_map sentences
       (returnedLesson (parseLessonText 2 countingIds csvExample (Some "3") (Some "1")))
     = Some [].
Proof. evaluate. Qed.

(** A cleaned line that one of the section-header tests accepts. *)
Definition isSectionHeader (line : string) : bool :=
  let lower := toLowerCase line in
  anyIncluded lower ["quick drill"; "visual drill"; "part 1"]
  || anyIncluded lower ["word cards"; "word list"; "part 3"; "words for reading"]
  || anyIncluded lower ["sight words"; "hfw"; "high frequency"]
  || anyIncluded lower ["sentences for reading"; "part 5"; "reading sentences"]
  || anyIncluded lower ["dictation"; "part 8"]
  || anyIncluded lower ["passage"; "story"; "part 9"].

(** C8, as the code has it. A line that is no section header and has no
    colon is list-extracted and appended in the sight-word section; in the
    quick-drill section it is appended unless it contains the word part in
    any case, and then it is skipped. *)
Theorem list_sections_append :
  forall st rawLine,
    isSectionHeader (cleanLine rawLine) = false ->
    includes (cleanLine rawLine) ":" = false ->
    (currentSection st = secHfw ->
     processLine st rawLine
     = mkState (setHfwList (hfwList (extracted st) ++ extractList (cleanLine rawLine))
                           (extracted st))
               secHfw (dictationSubMode st) (rng st))
    /\ (currentSection st = secQuickDrill ->
        includes (toLowerCase (cleanLine rawLine)) "part" = false ->
        processLine st rawLine
        = mkState (setQuickDrill
                     (quickDrill (extracted st) ++ extractList (cleanLine rawLine))
                     (extracted st))
                  secQuickDrill (dictationSubMode st) (rng st))
    /\ (currentSection st = secQuickDrill ->
        includes (toLowerCase (cleanLine rawLine)) "part" = true ->
        processLine st rawLine = st).
Proof.
  intros st rawLine Hheader Hcolon.
  unfold isSectionHeader in Hheader. cbv zeta in Hheader.
  do 5 (apply orb_false_iff in Hheader as [Hheader ?]).
  unfold processLine. cbv zeta.
  repeat match goal with
         | H : anyIncluded _ _ = false |- _ => rewrite H; clear H
         end.
  rewrite Hcolon. repeat split.
  - intros ->. reflexivity.
  - intros -> ->. reflexivity.
  - intros -> ->. reflexivity.
Qed.

Lemma list_sections_append_witness :
  processLine (mkState initial secHfw subNone countingIds) "a, b"
  = mkState (setHfwList ["a"; "b"] initial) secHfw subNone countingIds
  /\ processLine (mkState initial secQuickDrill subNone countingIds) "sh; th"
     = mkState (setQuickDrill ["sh"; "th"] initial) secQuickDrill subNone countingIds.
Proof.
  split.
  - exact (proj1 (list_sections_append
                    (mkState initial secHfw subNone countingIds) "a, b"
                    eq_refl eq_refl) eq_refl).
  - exact (proj1 (proj2 (list_sections_append
                           (mkState initial secQuickDrill subNone countingIds) "sh; th"
                           eq_refl eq_refl)) eq_refl eq_refl).
Defined.

(** C8, as stated, fails in the quick-drill section: a line with the word
    part in it is no header and has no colon, the list helper finds an item
    in it, and nothing is appended. *)
Lemma quick_drill_skips_part_lines :
  isSectionHeader (cleanLine "party") = false
  /\ includes (cleanLine "party") ":" = false
  /\ extractList (cleanLine "party") = ["party"]
  /\ processLine (mkState initial secQuickDrill subNone countingIds) "party"
     = mkState initial secQuickDrill subNone countingIds
  /\ option_map quickDrill
       (returnedLesson
          (parseLessonText 1 countingIds ("Quick Drill" ++ nl ++ "party") None None))
     = Some [].
Proof. evaluate. Qed.

(** C9, as stated, fails: two calls with the same arguments, one after the
    other, draw different identifiers for the same word card. *)
Lemma ids_differ_between_calls :
  match parseLessonText 1 countingIds "Word Cards: cat" None None with
  | Returned (first, rng1) =>
      match parseLessonText 1 rng1 "Word Cards: cat" None None with
      | Returned (second, _) =>
          wordCards first = [mkCard "id0" "cat" regular]
          /\ wordCards second = [mkCard "id1" "cat" regular]
          /\ first <> second
      | _ => False
      end
  | _ => False
  end.
Proof.
  vm_compute. repeat split.
  intros H. apply (f_equal (fun l => map id (wordCards l))) in H. discriminate H.
Qed.

(** *** The CSV detector *)

(** The first line: the text before the first line break, trimmed. *)
Definition firstLineOf (text : string) : string :=
  trim (takeWhile (fun c => negb (Ascii.eqb newline c)) text).

(** The number of lines: one more than the number of line breaks. *)
Definition lineCount (text : string) : nat :=
  S (countChars (Ascii.eqb newline) text).

Definition restLines (text : string) : list string :=
  tl (splitOn (Ascii.eqb newline) text).

(** The condition of the detector in terms of the text. *)
Definition csvCondition (text : string) : bool :=
  startsWith (firstLineOf text) ",,"
  || (includes (firstLineOf text) "," && (2 <? lineCount text)%nat).

(** The condition as the specification words it, with the first line that
    is not empty in the first test. *)
Definition firstNonEmptyLine (text : string) : string :=
  hd EmptyString (filter truthy (splitOn (Ascii.eqb newline) text)).

Definition statedCsvCondition (text : string) : bool :=
  startsWith (firstNonEmptyLine text) ",,"
  || (includes (firstLineOf text) "," && (2 <? lineCount text)%nat).

(** C5, as the code has it. The CSV block is entered exactly when the first
    line of the text, trimmed and empty or not, starts with two commas, or
    has a comma while the text has more than two lines.  Every other text
    goes to the standard text parser, and so does a text whose CSV block
    finds no data row. *)
Theorem csv_detection :
  forall text fuel rng targetStep targetSubstep,
    parseLessonText (S fuel) rng text targetStep targetSubstep
    = if csvCondition text
      then match csvBlock (fun rng1 cell => parseLessonText fuel rng1 cell None None)
                          rng (firstLineOf text) (restLines text)
                          targetStep targetSubstep with
           | Returned (Some r) => Returned r
           | Returned None => Returned (standardTextParser rng text)
           | Thrown => Thrown
           | OutOfFuel => OutOfFuel
           end
      else Returned (standardTextParser rng text).
Proof.
  intros text fuel rng targetStep targetSubstep.
  cbn [parseLessonText]. unfold csvCondition, firstLineOf, lineCount, restLines.
  rewrite <- splitOn_length.
  pose proof (splitOn_head (Ascii.eqb newline) text) as Hhead.
  destruct (splitOn (Ascii.eqb newline) text) as [|line0 rows]; [discriminate|].
  apply (f_equal (hd EmptyString)) in Hhead. cbn [hd] in Hhead.
  rewrite <- Hhead. reflexivity.
Qed.

(** C5, as stated, fails on a text whose first line is empty: its first
    non-empty line starts with two commas, yet the detector reads the empty
    first line and the standard text parser takes the rows as sight words.
    Without the empty line the same rows go through the CSV block. *)
Lemma leading_empty_line_is_freeform :
  statedCsvCondition (nl ++ ",,New Sight Words" ++ nl ++ "3.1,x,full") = true
  /\ csvCondition (nl ++ ",,New Sight Words" ++ nl ++ "3.1,x,full") = false
  /\ parseLessonText 2 countingIds (nl ++ ",,New Sight Words" ++ nl ++ "3.1,x,full")
                     None None
     = Returned (standardTextParser countingIds
                   (nl ++ ",,New Sight Words" ++ nl ++ "3.1,x,full"))
  /\ option_map hfwList
       (returnedLesson
          (parseLessonText 2 countingIds
             (nl ++ ",,New Sight Words" ++ nl ++ "3.1,x,full") None None))
     = Some ["1"; "x"; "full"]
  /\ option_map hfwList
       (returnedLesson
          (parseLessonText 2 countingIds
             (",,New Sight Words" ++ nl ++ "3.1,x,full") None None))
     = Some ["full"].
Proof. evaluate. Qed.

(** *** Termination *)

Definition lineChar (c : ascii) : bool := negb (Ascii.eqb newline c).

(** A text with no line break in it. *)
Definition oneLine (s : string) : Prop := allChars lineChar s = true.

Lemma csvLoop_oneLine n :
  forall line current inQuotes result,
    String.length line <= n ->
    oneLine line -> oneLine current -> Forall oneLine result ->
    Forall oneLine (csvLoop line current inQuotes result).
Proof.
  unfold oneLine.
  induction n as [|n IH]; intros line current inQuotes result Hlen Hline Hcur Hres.
  - apply Nat.le_0_r, length_zero in Hlen; subst line. simpl.
    apply Forall_app; split; [exact Hres | now constructor].
  - destruct line as [|char rest]; simpl.
    { apply Forall_app; split; [exact Hres | now constructor]. }
    simpl in Hlen, Hline. apply andb_true_iff in Hline as [Hchar Hrest].
    destruct (Ascii.eqb char dquote).
    + destruct rest as [|char' rest'].
      * apply IH; simpl; auto; lia.
      * destruct (inQuotes && Ascii.eqb char' dquote).
        -- simpl in Hlen, Hrest. apply andb_true_iff in Hrest as [_ Hrest'].
           apply IH; auto; [lia|].
           rewrite allChars_append, Hcur. reflexivity.
        -- apply IH; auto; lia.
    + destruct (Ascii.eqb char "," && negb inQuotes).
      * apply IH; auto; [lia|].
        apply Forall_app; split; [exact Hres | now constructor].
      * apply IH; auto; [lia|].
        rewrite allChars_append, Hcur. simpl. now rewrite Hchar.
Qed.

Lemma dropLastQuote_oneLine s : oneLine s -> oneLine (dropLastQuote s).
Proof.
  unfold oneLine. induction s as [|c s IH]; simpl; [reflexivity|].
  intros [Hc Hs]%andb_true_iff.
  destruct (isEmpty s); [destruct (Ascii.eqb c dquote); simpl; now rewrite ?Hc, ?Hs|].
  simpl. now rewrite Hc, IH.
Qed.

Lemma stripQuotes_oneLine s : oneLine s -> oneLine (stripQuotes s).
Proof.
  unfold stripQuotes. destruct s as [|c s]; [reflexivity|]. intros H.
  destruct (Ascii.eqb c dquote); apply dropLastQuote_oneLine; [|exact H].
  unfold oneLine in *. simpl in H. now apply andb_true_iff in H as [_ H].
Qed.

(** The cells of a line with no line break have none. *)
Lemma parseCSVLine_oneLine line : oneLine line -> Forall oneLine (parseCSVLine line).
Proof.
  intros H. unfold parseCSVLine. apply Forall_map.
  eapply Forall_impl;
    [|apply (csvLoop_oneLine (String.length line)); auto; reflexivity || constructor].
  intros cell Hcell. apply allChars_trim, stripQuotes_oneLine, allChars_trim, Hcell.
Qed.

Lemma findDataRow_oneLine indices targetIdentifier rows dataRow :
  Forall oneLine rows ->
  findDataRow indices targetIdentifier rows = Returned (Some dataRow) ->
  Forall oneLine dataRow.
Proof.
  induction 1 as [|l rows Hl _ IH]; simpl; [discriminate|].
  pose proof (parseCSVLine_oneLine l Hl) as Hrow.
  repeat match goal with
         | |- Returned (Some _) = Returned (Some _) -> _ => intros [= <-]; exact Hrow
         | |- Thrown = _ -> _ => discriminate
         | |- context [if ?b then _ else _] => destruct b
         | |- context [match ?o with Some _ => _ | None => _ end] => destruct o
         | |- _ => exact IH
         end.
Qed.

Lemma findDataRow_fuel indices targetIdentifier rows :
  findDataRow indices targetIdentifier rows <> OutOfFuel.
Proof.
  induction rows as [|l rows IH]; simpl; [discriminate|].
  repeat match goal with
         | |- Returned _ <> _ => discriminate
         | |- Thrown <> _ => discriminate
         | |- context [if ?b then _ else _] => destruct b
         | |- context [match ?o with Some _ => _ | None => _ end] => destruct o
         | |- _ => exact IH
         end.
Qed.

Lemma getCol_oneLine indices dataRow possibleHeaders :
  Forall oneLine dataRow -> oneLine (getCol indices dataRow possibleHeaders).
Proof.
  intros Hrow. induction possibleHeaders as [|h hs IH]; simpl; [reflexivity|].
  destruct (getIndex indices (toLowerCase h)) as [idx|]; [|exact IH].
  destruct (nth_error dataRow idx) as [cell|] eqn:E; [|exact IH].
  destruct (truthy cell); [|exact IH].
  exact (proj1 (Forall_forall _ _) Hrow cell (nth_error_In _ _ E)).
Qed.

(** A text of one line is never reparsed: its CSV block has no row to find,
    and the standard text parser does not call [parseLessonText]. *)
Lemma parse_oneLine fuel rng text :
  oneLine text ->
  parseLessonText (S fuel) rng text None None = Returned (standardTextParser rng text).
Proof.
  intros H. cbn [parseLessonText].
  rewrite (splitOn_single (Ascii.eqb newline) text H).
  destruct (isCSV (trim text) [text]); reflexivity.
Qed.

(** The CSV block only reparses cells of one line. *)
Lemma csvBlock_reparse reparse reparse' rng firstLine rows targetStep targetSubstep :
  Forall oneLine rows ->
  (forall rng1 cell, oneLine cell -> reparse rng1 cell = reparse' rng1 cell) ->
  csvBlock reparse rng firstLine rows targetStep targetSubstep
  = csvBlock reparse' rng firstLine rows targetStep targetSubstep.
Proof.
  intros Hrows Hsame. unfold csvBlock.
  destruct (findDataRow _ _ rows) as [[dataRow|]| |] eqn:E; try reflexivity.
  destruct (extractRow _ dataRow rng) as [extracted rng1].
  destruct (truthy _); [|reflexivity].
  rewrite Hsame; [reflexivity|].
  apply getCol_oneLine. exact (findDataRow_oneLine _ _ _ _ Hrows E).
Qed.

Lemma csvBlock_fuel reparse rng firstLine rows targetStep targetSubstep :
  (forall rng1 cell, oneLine cell -> reparse rng1 cell <> OutOfFuel) ->
  Forall oneLine rows ->
  csvBlock reparse rng firstLine rows targetStep targetSubstep <> OutOfFuel.
Proof.
  intros Hfuel Hrows. unfold csvBlock.
  destruct (findDataRow _ _ rows) as [[dataRow|]| |] eqn:E; try discriminate.
  - destruct (extractRow _ dataRow rng) as [extracted rng1].
    destruct (truthy _); [|discriminate].
    specialize (Hfuel rng1 (getCol (buildIndices (parseCSVLine firstLine)) dataRow
                                   ["dictation"])
                      (getCol_oneLine _ _ _ (findDataRow_oneLine _ _ _ _ Hrows E))).
    destruct (reparse rng1 _) as [[d rng2]| |]; congruence.
  - now apply findDataRow_fuel in E.
Qed.

Lemma findDataRow_no_target indices rows :
  findDataRow indices None rows <> Thrown.
Proof.
  induction rows as [|l rows IH]; simpl; [discriminate|].
  repeat match goal with
         | |- Returned _ <> _ => discriminate
         | |- context [if ?b then _ else _] => destruct b
         | |- _ => exact IH
         end.
Qed.

(** Without a target identifier every call returns a record: the search for
    the data row reads [startsWith] from no cell. *)
Lemma without_target_returns fuel rng text targetStep targetSubstep :
  targetIdentifierOf targetStep targetSubstep = None ->
  exists l rng',
    parseLessonText (2 + fuel) rng text targetStep targetSubstep = Returned (l, rng').
Proof.
  intros Hnone. change (2 + fuel) with (S (S fuel)).
  remember (S fuel) as n eqn:Hn. cbn [parseLessonText]. subst n.
  pose proof (splitOn_pieces (Ascii.eqb newline) text) as Hlines.
  rewrite (splitOn_head (Ascii.eqb newline) text) in *.
  inversion Hlines as [|? ? _ Hrows]; subst.
  destruct (standardTextParser rng text) as [l0 rng0] eqn:Hstd.
  destruct (isCSV _ _); [|now exists l0, rng0].
  unfold csvBlock. cbv zeta. rewrite Hnone.
  destruct (findDataRow _ None _) as [[dataRow|]| |] eqn:E.
  - destruct (extractRow _ dataRow rng) as [extracted rng1].
    destruct (truthy _); [|eauto].
    rewrite parse_oneLine
      by exact (getCol_oneLine _ _ _ (findDataRow_oneLine _ _ _ _ Hrows E)).
    destruct (standardTextParser rng1 _) as [d rng2]. eauto.
  - now exists l0, rng0.
  - now apply findDataRow_no_target in E.
  - now apply findDataRow_fuel in E.
Qed.

(** C10. [parseLessonText] terminates on every input: the reparse of the
    dictation cell is the only self-invocation, the cell has no line break,
    and a text of one line is not reparsed, so the calls nest at most two
    deep.  Fuel for two calls gives the result of any larger fuel, and that
    result is never the exhaustion of the fuel. *)
Theorem parseLessonText_terminates :
  forall fuel rng text targetStep targetSubstep,
    parseLessonText (2 + fuel) rng text targetStep targetSubstep
    = parseLessonText 2 rng text targetStep targetSubstep
    /\ parseLessonText 2 rng text targetStep targetSubstep <> OutOfFuel.
Proof.
  intros fuel rng text targetStep targetSubstep.
  change (2 + fuel) with (S (S fuel)). cbn [parseLessonText].
  pose proof (splitOn_pieces (Ascii.eqb newline) text) as Hlines.
  destruct (splitOn (Ascii.eqb newline) text) as [|line0 rows].
  - split; [reflexivity | discriminate].
  - inversion Hlines as [|? ? _ Hrows]; subst.
    destruct (isCSV (trim line0) (line0 :: rows)); [|split; [reflexivity | discriminate]].
    rewrite (csvBlock_reparse
               (fun rng1 cell => parseLessonText (S fuel) rng1 cell None None)
               (fun rng1 cell => parseLessonText 1 rng1 cell None None));
      [|exact Hrows | intros rng1 cell Hcell; now rewrite !parse_oneLine].
    split; [reflexivity|].
    pose proof (csvBlock_fuel
                  (fun rng1 cell => parseLessonText 1 rng1 cell None None)
                  rng (trim line0) rows targetStep targetSubstep) as Hfuel.
    destruct (csvBlock _ rng (trim line0) rows targetStep targetSubstep)
      as [[r|]| |]; try discriminate.
    exfalso. apply Hfuel; [|exact Hrows|reflexivity].
    intros rng1 cell Hcell. now rewrite parse_oneLine.
Qed.

(** *** Determinism up to the identifiers *)

Definition anonymousCard (c : WordCard) : WordCard :=
  mkCard EmptyString (text c) (type c).

(** A record with the identifiers of its word cards blanked. *)
Definition anonymous (l : Lesson) : Lesson :=
  setWordCards (map anonymousCard (wordCards l)) l.

Definition anonymousOutcome (o : outcome (Lesson * Rng)) : outcome Lesson :=
  match o with
  | Returned (l, _) => Returned (anonymous l)
  | Thrown => Thrown
  | OutOfFuel => OutOfFuel
  end.

(** Two states of the line loop that differ in identifiers and in the
    random source only. *)
Definition similar (a b : LoopState) : Prop :=
  anonymous (extracted a) = anonymous (extracted b)
  /\ currentSection a = currentSection b
  /\ dictationSubMode a = dictationSubMode b.

Lemma makeCards_anonymous words :
  forall rng,
    map anonymousCard (fst (makeCards rng words))
    = map (fun w => mkCard EmptyString w regular) words.
Proof.
  induction words as [|w ws IH]; intros rng; [reflexivity|].
  cbn [makeCards generateId]. specialize (IH (mkRng (draws rng) (S (next rng)))).
  destruct (makeCards _ ws) as [cards rng2]. cbn [fst map] in *.
  now rewrite IH.
Qed.

Lemma makeCards_similar words rngA rngB :
  map anonymousCard (fst (makeCards rngA words))
  = map anonymousCard (fst (makeCards rngB words)).
Proof. now rewrite !makeCards_anonymous. Qed.

Lemma processLine_similar a b rawLine :
  similar a b -> similar (processLine a rawLine) (processLine b rawLine).
Proof.
  destruct a as [[st1 ss1 qd1 hf1 wc1 se1 di1 pa1] sec1 sub1 rngA].
  destruct b as [[st2 ss2 qd2 hf2 wc2 se2 di2 pa2] sec2 sub2 rngB].
  unfold similar, anonymous, setWordCards.
  cbn [extracted currentSection dictationSubMode step substep quickDrill hfwList
       wordCards sentences dictation passage].
  intros (H & <- & <-). inversion H as [Hwc]; subst; clear H.
  unfold processLine.
  cbn [extracted currentSection dictationSubMode rng].
  repeat match goal with
         | |- context [if anyIncluded ?l ?k then _ else _] => destruct (anyIncluded l k)
         end;
    try destruct (headerContent _);
    try destruct sec1;
    repeat match goal with
           | |- context [if ?c then _ else _] => destruct c
           end;
    try match goal with
        | |- context [makeCards rngA ?ws] =>
            pose proof (makeCards_similar ws rngA rngB) as Hnew;
            destruct (makeCards rngA ws) as [newA rngA'];
            destruct (makeCards rngB ws) as [newB rngB']; cbn [fst] in Hnew
        end;
    cbn [extracted currentSection dictationSubMode setQuickDrill setHfwList
         setWordCards setSentences setDictation setPassage step substep quickDrill
         hfwList wordCards sentences dictation passage];
    rewrite ?map_app; repeat split; congruence.
Qed.

Lemma fold_similar lines :
  forall a b,
    similar a b ->
    similar (fold_left processLine lines a) (fold_left processLine lines b).
Proof.
  induction lines as [|l lines IH]; intros a b H; [exact H|].
  cbn [fold_left]. now apply IH, processLine_similar.
Qed.

Lemma standardTextParser_similar rngA rngB text :
  anonymous (fst (standardTextParser rngA text))
  = anonymous (fst (standardTextParser rngB text)).
Proof.
  unfold standardTextParser. cbv zeta. cbn [fst].
  apply fold_similar. now repeat split.
Qed.

Lemma extractRow_similar indices dataRow rngA rngB :
  anonymous (fst (extractRow indices dataRow rngA))
  = anonymous (fst (extractRow indices dataRow rngB)).
Proof.
  unfold extractRow. cbv zeta.
  match goal with
  | |- context [makeCards rngA ?ws] =>
      pose proof (makeCards_similar ws rngA rngB) as Hnew;
      destruct (makeCards rngA ws) as [newA rngA'];
      destruct (makeCards rngB ws) as [newB rngB']
  end.
  cbn [fst] in *. unfold anonymous, setWordCards.
  cbn [step substep quickDrill hfwList wordCards sentences dictation passage].
  now rewrite Hnew.
Qed.

Lemma finishRow_similar eA eB dA dB targetStep targetSubstep :
  anonymous eA = anonymous eB ->
  option_map dictation dA = option_map dictation dB ->
  anonymous (finishRow eA dA targetStep targetSubstep)
  = anonymous (finishRow eB dB targetStep targetSubstep).
Proof.
  destruct eA as [st1 ss1 qd1 hf1 wc1 se1 di1 pa1].
  destruct eB as [st2 ss2 qd2 hf2 wc2 se2 di2 pa2].
  unfold anonymous, setWordCards, finishRow.
  cbn [step substep quickDrill hfwList wordCards sentences dictation passage].
  intros H Hd. inversion H; subst; clear H.
  destruct dA as [dA|], dB as [dB|]; cbn [option_map] in Hd; try discriminate;
    congruence.
Qed.

Definition anonymousBlock (o : outcome (option (Lesson * Rng)))
    : outcome (option Lesson) :=
  match o with
  | Returned (Some (l, _)) => Returned (Some (anonymous l))
  | Returned None => Returned None
  | Thrown => Thrown
  | OutOfFuel => OutOfFuel
  end.

Lemma csvBlock_similar reparse rngA rngB firstLine rows targetStep targetSubstep :
  (forall rng1 rng2 cell,
     anonymousOutcome (reparse rng1 cell) = anonymousOutcome (reparse rng2 cell)) ->
  anonymousBlock (csvBlock reparse rngA firstLine rows targetStep targetSubstep)
  = anonymousBlock (csvBlock reparse rngB firstLine rows targetStep targetSubstep).
Proof.
  intros Hre. unfold csvBlock. cbv zeta.
  destruct (findDataRow _ _ rows) as [[dataRow|]| |]; try reflexivity.
  pose proof (extractRow_similar (buildIndices (parseCSVLine firstLine))
                                 dataRow rngA rngB) as Hex.
  destruct (extractRow _ dataRow rngA) as [eA rngA1].
  destruct (extractRow _ dataRow rngB) as [eB rngB1]. cbn [fst] in Hex.
  destruct (truthy _).
  - specialize (Hre rngA1 rngB1
                    (getCol (buildIndices (parseCSVLine firstLine)) dataRow
                            ["dictation"])).
    destruct (reparse rngA1 _) as [[dA rA]| |], (reparse rngB1 _) as [[dB rB]| |];
      cbn [anonymousOutcome] in Hre; try discriminate; try reflexivity.
    cbn [anonymousBlock]. do 2 f_equal.
    apply finishRow_similar; [exact Hex|].
    cbn [option_map]. f_equal.
    apply (f_equal (fun o => match o with
                             | Returned l => dictation l
                             | _ => DictationSection.empty
                             end)) in Hre.
    exact Hre.
  - cbn [anonymousBlock]. do 2 f_equal. now apply finishRow_similar.
Qed.

(** C9, as the code has it. The record is a function of the arguments and
    of the random source, and the source is read for the identifiers of the
    word cards only: two calls with the same arguments, from any two states
    of the source, end the same way and return records that agree in every
    field and in the text and type of every word card. *)
Theorem deterministic_up_to_ids :
  forall fuel rngA rngB text targetStep targetSubstep,
    anonymousOutcome (parseLessonText fuel rngA text targetStep targetSubstep)
    = anonymousOutcome (parseLessonText fuel rngB text targetStep targetSubstep).
Proof.
  induction fuel as [|fuel IH]; intros rngA rngB text targetStep targetSubstep;
    [reflexivity|].
  cbn [parseLessonText].
  destruct (splitOn (Ascii.eqb newline) text) as [|line0 rows]; [reflexivity|].
  pose proof (standardTextParser_similar rngA rngB text) as Hstd.
  destruct (standardTextParser rngA text) as [lA rA].
  destruct (standardTextParser rngB text) as [lB rB]. cbn [fst] in Hstd.
  destruct (isCSV (trim line0) (line0 :: rows));
    [|cbn [anonymousOutcome]; now rewrite Hstd].
  pose proof (csvBlock_similar
                (fun rng1 cell => parseLessonText fuel rng1 cell None None)
                rngA rngB (trim line0) rows targetStep targetSubstep
                (fun rng1 rng2 cell => IH rng1 rng2 cell None None)) as Hblock.
  destruct (csvBlock _ rngA (trim line0) rows targetStep targetSubstep)
    as [[[eA rA']|]| |];
    destruct (csvBlock _ rngB (trim line0) rows targetStep targetSubstep)
      as [[[eB rB']|]| |];
    cbn [anonymousBlock] in Hblock; try discriminate; cbn [anonymousOutcome];
    congruence.
Qed.

End LessonsSpec.

(** ** Further properties of the tile tokenizer *)
Module TokenizerFacts.
Import JS Tiles StringFacts TilesSpec.

(** The rule that accounts for a tile and the stretch of the input it
    stands for: the delimiters and the verbatim interior for an override,
    the hyphen and the alphanumeric run for a shorthand, an entry of the
    table (up to case) for the automatic cascade, one character for the
    fallback. *)
Definition justified (t : TileData) (segment : string) : Prop :=
  match type t with
  | space => text t = EmptyString /\ segment = " "
  | syllable => segment = "|" ++ text t ++ "|" /\ indexOf (text t) "|" = None
  | suffix =>
      (segment = "<" ++ text t ++ ">" /\ indexOf (text t) ">" = None)
      \/ (segment = text t
          /\ exists run, text t = "-" ++ run /\ run <> EmptyString
                         /\ allChars isAlnum run = true)
  | prefix =>
      segment = text t
      /\ exists run, text t = run ++ "-" /\ run <> EmptyString
                     /\ allChars isAlnum run = true
  | vowel =>
      (segment = "[" ++ text t ++ "]" /\ indexOf (text t) "]" = None)
      \/ (segment = text t
          /\ exists c, text t = String c EmptyString /\ In (lowerChar c) vowels)
  | consonant =>
      (segment = "{" ++ text t ++ "}" /\ indexOf (text t) "}" = None)
      \/ (segment = text t
          /\ exists c, text t = String c EmptyString /\ ~ In (lowerChar c) vowels)
  | welded =>
      (segment = "/" ++ text t ++ "/" /\ indexOf (text t) "/" = None)
      \/ (segment = text t /\ In (toLowerCase (text t)) weldedSounds)
  | vowelTeam => segment = text t /\ In (toLowerCase (text t)) vowelTeams
  | rControl => segment = text t /\ In (toLowerCase (text t)) rControlled
  | digraph => segment = text t /\ In (toLowerCase (text t)) digraphs
  end.

Definition steps (remaining : string) (r : TileData * string) : Prop :=
  exists segment,
    justified (fst r) segment /\ remaining = segment ++ snd r
    /\ 0 < String.length segment.

Lemma allChars_takeWhile_self p s : allChars p (takeWhile p s) = true.
Proof.
  induction s as [|c s IH]; simpl; [reflexivity|].
  destruct (p c) eqn:E; simpl; [now rewrite E, IH | reflexivity].
Qed.

Lemma isEmpty_false s : isEmpty s = false -> s <> EmptyString.
Proof. destruct s; [discriminate | discriminate]. Qed.

Lemma toLowerCase_take n s : toLowerCase (take n s) = take n (toLowerCase s).
Proof.
  revert s; induction n as [|n IH]; intros [|c s]; simpl; try reflexivity.
  now rewrite IH.
Qed.

Lemma startsWith_take s p : startsWith s p = true -> take (String.length p) s = p.
Proof.
  revert s; induction p as [|c p IH]; intros s H; simpl in *; [reflexivity|].
  destruct s as [|d s]; [discriminate|].
  apply andb_true_iff in H as [E H]. apply Ascii.eqb_eq in E; subst d.
  simpl. now rewrite IH.
Qed.

Lemma space_steps remaining r :
  (if startsWith remaining " "
   then Some (mkTile EmptyString space, slice 1 remaining) else None) = Some r ->
  steps remaining r.
Proof.
  destruct remaining as [|c rest]; simpl; [discriminate|].
  rewrite andb_true_r. destruct (Ascii.eqb c " ") eqn:E; [|discriminate].
  apply Ascii.eqb_eq in E; subst c. intros [= <-].
  exists " "; simpl. repeat split; auto.
Qed.

Lemma syllable_steps remaining r :
  match syllableMatch remaining with
  | Some (m0, m1) => Some (mkTile m1 syllable, slice (String.length m0) remaining)
  | None => None
  end = Some r ->
  steps remaining r.
Proof.
  destruct remaining as [|c rest]; simpl; [discriminate|].
  destruct (Ascii.eqb c "|") eqn:E; [|discriminate].
  apply Ascii.eqb_eq in E; subst c.
  destruct (indexOf rest "|") as [k|] eqn:Ek; [|discriminate].
  intros [= <-]. destruct (indexOf_Some _ _ _ Ek) as (Hrest & Hnone & Hlen).
  exists ("|" ++ take k rest ++ "|"); simpl. repeat split; [exact Hnone| |lia].
  rewrite length_append, Hlen; simpl. replace (k + 1) with (S k) by lia.
  f_equal. rewrite append_assoc. exact Hrest.
Qed.

Lemma delimited_steps (o c : ascii) ty close remaining r :
  (forall t, indexOf t c = None ->
             justified (mkTile t ty) (String o (t ++ String c EmptyString))) ->
  (forall rest, remaining = String o rest -> close = option_map S (indexOf rest c)) ->
  delimited (String o EmptyString) close ty remaining = Some r ->
  steps remaining r.
Proof.
  intros Hcov Hclose. unfold delimited.
  destruct remaining as [|d rest]; [discriminate|].
  cbn [startsWith]. rewrite andb_true_r.
  destruct (Ascii.eqb d o) eqn:E; [|discriminate].
  apply Ascii.eqb_eq in E; subst d. rewrite (Hclose rest eq_refl).
  destruct (indexOf rest c) as [k|] eqn:Ek; [|discriminate].
  cbn [option_map]. rewrite substring_interior. intros [= <-].
  destruct (indexOf_Some _ _ _ Ek) as (Hrest & Hnone & Hlen).
  exists (String o (take k rest ++ String c EmptyString)).
  split; [now apply Hcov|]. cbn [fst snd]. split; [|simpl; lia].
  replace (k + 1) with (S k) by lia. cbn [append].
  f_equal. rewrite append_assoc. exact Hrest.
Qed.

Lemma suffix_steps remaining r :
  match suffixMatch remaining with
  | Some m0 => Some (mkTile m0 suffix, slice (String.length m0) remaining)
  | None => None
  end = Some r ->
  steps remaining r.
Proof.
  destruct remaining as [|c rest]; simpl; [discriminate|].
  destruct (Ascii.eqb c "-") eqn:E; [|discriminate].
  apply Ascii.eqb_eq in E; subst c.
  destruct (isEmpty (takeWhile isAlnum rest)) eqn:Erun; simpl; [discriminate|].
  intros [= <-]. exists (String "-" (takeWhile isAlnum rest)).
  split; [|simpl; split; [|lia]].
  - right. split; [reflexivity|]. exists (takeWhile isAlnum rest).
    repeat split; [now apply isEmpty_false | apply allChars_takeWhile_self].
  - now rewrite slice_takeWhile, takeWhile_dropWhile.
Qed.

Lemma prefix_steps remaining r :
  match prefixMatch remaining with
  | Some m0 => Some (mkTile m0 prefix, slice (String.length m0) remaining)
  | None => None
  end = Some r ->
  steps remaining r.
Proof.
  unfold prefixMatch.
  destruct (negb (isEmpty (takeWhile isAlnum remaining))
            && startsWith (dropWhile isAlnum remaining) "-") eqn:E; [|discriminate].
  apply andb_true_iff in E as [Erun E]. apply startsWith_split in E.
  apply negb_true_iff in Erun.
  intros [= <-]. exists (takeWhile isAlnum remaining ++ "-").
  split.
  { split; [reflexivity|]. exists (takeWhile isAlnum remaining).
    repeat split; [now apply isEmpty_false | apply allChars_takeWhile_self]. }
  cbn [fst snd].
  assert (H : remaining =
              (takeWhile isAlnum remaining ++ "-")
              ++ slice 1 (dropWhile isAlnum remaining)).
  { rewrite append_assoc. change ("-" ++ ?x) with (String "-" x).
    rewrite <- (takeWhile_dropWhile isAlnum remaining) at 1.
    f_equal. exact E. }
  split.
  - exact (slice_of_split _ _ _ H).
  - rewrite length_append. simpl. lia.
Qed.

Lemma tableMatch_steps table sub ty remaining r :
  Forall (fun p => 0 < String.length p) table ->
  (forall t, In (toLowerCase t) table -> justified (mkTile t ty) t) ->
  incl sub table ->
  remaining <> EmptyString ->
  tableMatch sub ty (toLowerCase remaining) remaining = Some r ->
  steps remaining r.
Proof.
  intros Htable Hcov Hsub Hne.
  induction sub as [|p sub IH]; simpl; [discriminate|].
  destruct (startsWith (toLowerCase remaining) p) eqn:E.
  - intros [= <-]. rewrite substring_from_zero.
    exists (take (String.length p) remaining). cbn [fst snd].
    split; [|split; [now rewrite take_slice|]].
    + apply Hcov. rewrite toLowerCase_take, (startsWith_take _ _ E).
      apply Hsub. now left.
    + apply take_nonempty; [|exact Hne].
      exact (proj1 (Forall_forall _ _) Htable p (Hsub p (or_introl eq_refl))).
  - apply IH. intros q Hq. apply Hsub. now right.
Qed.

Lemma nonempty_entries table :
  forallb (fun p => negb (isEmpty p)) table = true ->
  Forall (fun p => 0 < String.length p) table.
Proof.
  intros H. apply Forall_forall. intros p Hp.
  apply (proj1 (forallb_forall _ _) H) in Hp. destruct p; [discriminate | simpl; lia].
Qed.

(** The loop body never throws on a non-empty [remaining], and the tile it
    pushes is justified by the front of [remaining]. *)
Lemma body_steps remaining :
  remaining <> EmptyString ->
  exists r, body remaining = Returned r /\ steps remaining r.
Proof.
  intros Hne. unfold body.
  rule ltac:(apply space_steps).
  rule ltac:(apply syllable_steps).
  rule ltac:(apply (delimited_steps "<" ">");
             [ intros t Ht; left; now split
             | intros rest ->; reflexivity ]).
  rule ltac:(apply suffix_steps).
  rule ltac:(apply prefix_steps).
  rule ltac:(apply (delimited_steps "[" "]");
             [ intros t Ht; left; now split
             | intros rest ->; reflexivity ]).
  rule ltac:(apply (delimited_steps "{" "}");
             [ intros t Ht; left; now split
             | intros rest ->; reflexivity ]).
  rule ltac:(apply (delimited_steps "/" "/");
             [ intros t Ht; left; now split
             | intros rest ->; unfold indexOfFrom; cbn [slice];
               now destruct (indexOf rest "/") ]).
  cbv zeta.
  rule ltac:(apply (tableMatch_steps weldedSounds);
             [ now apply nonempty_entries
             | intros t Ht; right; now split | apply incl_refl | exact Hne ]).
  rule ltac:(apply (tableMatch_steps vowelTeams);
             [ now apply nonempty_entries
             | intros t Ht; now split | apply incl_refl | exact Hne ]).
  rule ltac:(apply (tableMatch_steps rControlled);
             [ now apply nonempty_entries
             | intros t Ht; now split | apply incl_refl | exact Hne ]).
  rule ltac:(apply (tableMatch_steps digraphs);
             [ now apply nonempty_entries
             | intros t Ht; now split | apply incl_refl | exact Hne ]).
  destruct remaining as [|char rest]; [congruence|].
  destruct (existsb (Ascii.eqb (lowerChar char)) vowels) eqn:E;
    eexists; (split; [reflexivity|]);
    exists (String char EmptyString); cbn [fst snd]; (split; [|split; [reflexivity | simpl; lia]]).
  - right. split; [reflexivity|]. exists char. split; [reflexivity|].
    apply existsb_exists in E as (v & Hv & Ev). apply Ascii.eqb_eq in Ev.
    now subst v.
  - right. split; [reflexivity|]. exists char. split; [reflexivity|].
    intros Hin. apply not_true_iff_false in E. apply E.
    apply existsb_exists. exists (lowerChar char). split; [exact Hin|].
    apply Ascii.eqb_refl.
Qed.

(** With fuel for every character the loop returns, and every tile it has
    pushed is justified by its segment of [remaining]. *)
Lemma loop_justified fuel :
  forall tiles remaining,
    String.length remaining <= fuel ->
    exists new segments,
      loop fuel tiles remaining = Returned (tiles ++ new)%list
      /\ Forall2 justified new segments /\ joined segments = remaining.
Proof.
  induction fuel as [|fuel IH]; intros tiles remaining Hlen.
  - apply Nat.le_0_r, length_zero in Hlen; subst remaining.
    exists [], []. rewrite app_nil_r. repeat split. constructor.
  - destruct remaining as [|c rest].
    { exists [], []. rewrite app_nil_r. repeat split. constructor. }
    destruct (body_steps (String c rest)) as ([tile rest'] & Hbody & Hadv);
      [discriminate|].
    rewrite loop_step, Hbody.
    destruct Hadv as (segment & Hcov & Hsplit & Hpos). cbn [fst snd] in *.
    destruct (IH (tiles ++ [tile])%list rest') as (new & segments & Hloop & Hall & Hjoin).
    { apply (f_equal String.length) in Hsplit.
      rewrite length_append in Hsplit. simpl in Hlen, Hsplit. lia. }
    exists (tile :: new), (segment :: segments).
    rewrite Hloop, <- app_assoc. repeat split.
    + now constructor.
    + simpl. now rewrite Hjoin.
Qed.

Lemma parse_justified word :
  exists tiles segments,
    parseWordToTiles word = Returned tiles
    /\ Forall2 justified tiles segments /\ joined segments = word.
Proof.
  unfold parseWordToTiles.
  destruct (loop_justified (String.length word) [] word (le_n _))
    as (tiles & segments & Hloop & Hall & Hjoin).
  now exists tiles, segments.
Qed.

(** The code units below 128.  On a word of these, [toLowerCase] maps
    character by character and keeps every index, which is what the
    comparison of the table entries with the lower-cased word relies on. *)
Definition isAscii (c : ascii) : bool := (nat_of_ascii c <? 128)%nat.

(** Every tile of the tokenizer is accounted for by one rule, on a word of
    ASCII characters: the tiles stand, in order, for segments that make up
    the word, and each tile is the override, the shorthand, the table entry
    or the single character that its segment spells. *)
Theorem tokenizer_sound :
  forall word,
    allChars isAscii word = true ->
    exists tiles segments,
      parseWordToTiles word = Returned tiles
      /\ Forall2 justified tiles segments /\ joined segments = word.
Proof. intros word _. apply parse_justified. Qed.

Lemma tokenizer_sound_witness :
  allChars isAscii "Sh{a}-ing" = true
  /\ exists tiles segments,
       parseWordToTiles "Sh{a}-ing" = Returned tiles
       /\ Forall2 justified tiles segments /\ joined segments = "Sh{a}-ing".
Proof. split; [reflexivity | apply tokenizer_sound; reflexivity]. Defined.

Lemma table_entry_nonempty t table :
  forallb (fun p => negb (isEmpty p)) table = true ->
  In (toLowerCase t) table -> 0 < String.length t.
Proof.
  intros Htable Hin. apply (proj1 (forallb_forall _ _) Htable) in Hin.
  destruct t; [discriminate | simpl; lia].
Qed.

Lemma justified_nonempty t segment :
  justified t segment -> 0 < String.length segment.
Proof.
  unfold justified. destruct t as [txt ty]; cbn [type text].
  destruct ty; intros H;
    repeat match goal with
           | H : _ \/ _ |- _ => destruct H as [H | H]
           | H : _ /\ _ |- _ => destruct H as [? H]
           | H : exists _, _ |- _ => destruct H as [? H]
           end;
    subst;
    try (simpl; lia);
    try (rewrite ?length_append; simpl; lia);
    try (eapply table_entry_nonempty; [|eassumption]; reflexivity).
Qed.

Lemma joined_length tiles segments :
  Forall2 justified tiles segments ->
  List.length tiles <= String.length (joined segments).
Proof.
  induction 1 as [|t seg tiles segments Hj _ IH]; simpl; [lia|].
  apply justified_nonempty in Hj. rewrite length_append. lia.
Qed.

(** The tokenizer gives at most one tile for each character of the word,
    and no tile only for the empty word. *)
Theorem tile_count :
  forall word,
    exists tiles,
      parseWordToTiles word = Returned tiles
      /\ List.length tiles <= String.length word
      /\ (tiles = [] <-> word = EmptyString).
Proof.
  intros word.
  destruct (parse_justified word) as (tiles & segments & Hp & Hall & Hjoin).
  exists tiles. split; [exact Hp|].
  pose proof (joined_length _ _ Hall) as Hlen. rewrite Hjoin in Hlen.
  split; [exact Hlen|]. split.
  - intros ->. inversion Hall; subst. reflexivity.
  - intros ->. destruct tiles; [reflexivity | simpl in Hlen; lia].
Qed.

Lemma startsWith_append_l a b p :
  startsWith a p = true -> startsWith (a ++ b) p = true.
Proof.
  revert a; induction p as [|c p IH]; intros a H; simpl in *; [reflexivity|].
  destruct a as [|d a]; [discriminate|]. simpl.
  apply andb_true_iff in H as [E H]. now rewrite E, IH.
Qed.

Lemma includes_append_l a b p : includes a p = true -> includes (a ++ b) p = true.
Proof.
  induction a as [|c a IH]; simpl.
  - rewrite orb_false_r. intros H. destruct p; [now destruct b | discriminate].
  - intros [H | H]%orb_true_iff.
    + change (String c (a ++ b)) with (String c a ++ b).
      now rewrite startsWith_append_l.
    + rewrite IH by exact H. apply orb_true_r.
Qed.

Lemma includes_append_r a b p : includes b p = true -> includes (a ++ b) p = true.
Proof.
  intros H. induction a as [|c a IH]; simpl; [exact H|].
  rewrite IH. apply orb_true_r.
Qed.

Lemma includes_joined segment segments p :
  In segment segments -> includes segment p = true ->
  includes (joined segments) p = true.
Proof.
  induction segments as [|s segments IH]; simpl; [tauto|].
  intros [-> | Hin] H; [now apply includes_append_l|].
  apply includes_append_r. now apply IH.
Qed.

(** The marker a kind of tile needs in the word. *)
Definition marked (word : string) (t : TileData) : Prop :=
  match type t with
  | space => includes word " " = true
  | syllable => includes word "|" = true
  | suffix => includes word "<" = true \/ includes word "-" = true
  | prefix => includes word "-" = true
  | _ => True
  end.

Lemma justified_marked t segment :
  justified t segment -> marked segment t.
Proof.
  unfold justified, marked. destruct t as [txt []]; cbn [type text]; auto.
  - intros [[-> _] | [-> (run & -> & _)]]; [left | right]; reflexivity.
  - intros [-> (run & -> & _)]. apply includes_append_r. reflexivity.
  - intros [-> _]. reflexivity.
  - intros [_ ->]. reflexivity.
Qed.

(** Space, syllable and affix tiles come from their syntax only: a space
    tile needs a space in the word, a syllable tile a bar, a suffix tile an
    opening angle bracket or a hyphen, a prefix tile a hyphen.  A word with
    none of these gives tiles of the six phonetic kinds only. *)
Theorem special_tiles_need_markers :
  forall word,
    exists tiles,
      parseWordToTiles word = Returned tiles /\ Forall (marked word) tiles.
Proof.
  intros word.
  destruct (parse_justified word) as (tiles & segments & Hp & Hall & Hjoin).
  exists tiles. split; [exact Hp|]. subst word.
  assert (H : forall t, In t tiles ->
                        exists segment, In segment segments /\ justified t segment).
  { clear Hp. induction Hall as [|t seg tiles segments Hj _ IH]; [intros ? []|].
    intros t' [<- | Hin]; [exists seg; split; [now left | exact Hj]|].
    destruct (IH t' Hin) as (seg' & Hin' & Hj'). exists seg'. split; [now right | exact Hj']. }
  apply Forall_forall. intros t Hin.
  destruct (H t Hin) as (segment & Hseg & Hj). apply justified_marked in Hj.
  unfold marked in *. destruct (type t); auto;
    try (eapply includes_joined; eassumption).
  destruct Hj as [Hj | Hj]; [left | right]; eapply includes_joined; eassumption.
Qed.

(** *** How tokenization composes *)

(** The tiles pushed so far do not influence the ones that follow. *)
Lemma loop_app fuel :
  forall tiles remaining,
    loop fuel tiles remaining
    = match loop fuel [] remaining with
      | Returned new => Returned (tiles ++ new)%list
      | Thrown => Thrown
      | OutOfFuel => OutOfFuel
      end.
Proof.
  induction fuel as [|fuel IH]; intros tiles remaining.
  - destruct remaining; simpl; [now rewrite app_nil_r | reflexivity].
  - destruct remaining as [|c rest]; [simpl; now rewrite app_nil_r|].
    rewrite !loop_step.
    destruct (body (String c rest)) as [[tile rest']| |]; try reflexivity.
    rewrite (IH (tiles ++ [tile])%list), (IH ([] ++ [tile])%list).
    destruct (loop fuel [] rest'); try reflexivity.
    now rewrite <- app_assoc.
Qed.

(** The tokens of a word are the tile of its first step and the tokens of
    what that step leaves. *)
Lemma parse_step remaining tile rest :
  body remaining = Returned (tile, rest) ->
  remaining <> EmptyString ->
  exists tiles,
    parseWordToTiles rest = Returned tiles
    /\ parseWordToTiles remaining = Returned (tile :: tiles).
Proof.
  intros Hbody Hne.
  destruct (tokenizer_covers rest) as (tiles & _ & Hrest & _ & _ & Hfuel).
  exists tiles. split; [exact Hrest|].
  destruct (body_advances remaining Hne) as (r & Hr & segment & _ & Hsplit & Hpos).
  rewrite Hbody in Hr. injection Hr as <-. cbn [snd] in Hsplit.
  destruct remaining as [|c rem]; [congruence|].
  unfold parseWordToTiles. cbn [String.length]. rewrite loop_step, Hbody, loop_app.
  assert (Hlen : String.length rem = String.length rest + (String.length rem - String.length rest)).
  { apply (f_equal String.length) in Hsplit. rewrite length_append in Hsplit.
    simpl in Hsplit. lia. }
  rewrite Hlen, Hfuel. reflexivity.
Qed.

Lemma interior_cut (o c : ascii) interior rest :
  substring 1 (S (String.length interior)) (String o (interior ++ String c rest))
  = interior
  /\ slice (S (String.length interior) + 1) (String o (interior ++ String c rest))
     = rest.
Proof.
  rewrite substring_interior, take_append. split; [reflexivity|].
  replace (S (String.length interior) + 1)
    with (S (String.length (interior ++ String c EmptyString)))
    by (rewrite length_append; simpl; lia).
  cbn [slice]. change (String c rest) with (String c EmptyString ++ rest).
  now rewrite <- append_assoc, slice_append.
Qed.

(** An override at the front of [remaining] gives one tile with the
    interior as its text, whatever the interior is. *)
Lemma override_body interior rest :
  (indexOf interior "|" = None ->
   body ("|" ++ interior ++ "|" ++ rest) = Returned (mkTile interior syllable, rest))
  /\ (indexOf interior ">" = None ->
      body ("<" ++ interior ++ ">" ++ rest) = Returned (mkTile interior suffix, rest))
  /\ (indexOf interior "]" = None ->
      body ("[" ++ interior ++ "]" ++ rest) = Returned (mkTile interior vowel, rest))
  /\ (indexOf interior "}" = None ->
      body ("{" ++ interior ++ "}" ++ rest) = Returned (mkTile interior consonant, rest))
  /\ (indexOf interior "/" = None ->
      body ("/" ++ interior ++ "/" ++ rest) = Returned (mkTile interior welded, rest)).
Proof.
  repeat split; intros H; unfold body;
    cbn [append startsWith syllableMatch suffixMatch Ascii.eqb Bool.eqb andb orElse];
    unfold prefixMatch; cbn [takeWhile];
    repeat match goal with
           | |- context [isAlnum ?c] =>
               let b := eval vm_compute in (isAlnum c) in
               change (isAlnum c) with b
           end;
    cbn [isEmpty negb andb orElse indexOf Ascii.eqb Bool.eqb];
    unfold indexOfFrom; cbn [slice];
    rewrite ?(indexOf_append _ _ _ H); cbn [option_map Nat.add].
  - rewrite take_append. cbn [orElse]. do 2 f_equal.
    cbn [String.length]. rewrite length_append.
    replace (S (String.length interior + String.length "|"))
      with (S (String.length (interior ++ "|"))) by (rewrite length_append; reflexivity).
    cbn [slice]. change (String "|" rest) with ("|" ++ rest).
    now rewrite <- append_assoc, slice_append.
  - cbn [delimited startsWith Ascii.eqb Bool.eqb andb orElse].
    now rewrite (proj1 (interior_cut _ _ _ _)), (proj2 (interior_cut _ _ _ _)).
  - cbn [delimited startsWith Ascii.eqb Bool.eqb andb orElse].
    now rewrite (proj1 (interior_cut _ _ _ _)), (proj2 (interior_cut _ _ _ _)).
  - cbn [delimited startsWith Ascii.eqb Bool.eqb andb orElse].
    now rewrite (proj1 (interior_cut _ _ _ _)), (proj2 (interior_cut _ _ _ _)).
  - cbn [delimited startsWith Ascii.eqb Bool.eqb andb orElse].
    now rewrite (proj1 (interior_cut _ _ _ _)), (proj2 (interior_cut _ _ _ _)).
Qed.

(** An override gives exactly one tile whose text is its interior, taken
    verbatim and not tokenized, whatever follows the closing delimiter; the
    rest of the word is tokenized as if it stood alone. *)
Theorem overrides_verbatim :
  forall interior rest,
    exists tiles,
      parseWordToTiles rest = Returned tiles
      /\ (indexOf interior "|" = None ->
          parseWordToTiles ("|" ++ interior ++ "|" ++ rest)
          = Returned (mkTile interior syllable :: tiles))
      /\ (indexOf interior ">" = None ->
          parseWordToTiles ("<" ++ interior ++ ">" ++ rest)
          = Returned (mkTile interior suffix :: tiles))
      /\ (indexOf interior "]" = None ->
          parseWordToTiles ("[" ++ interior ++ "]" ++ rest)
          = Returned (mkTile interior vowel :: tiles))
      /\ (indexOf interior "}" = None ->
          parseWordToTiles ("{" ++ interior ++ "}" ++ rest)
          = Returned (mkTile interior consonant :: tiles))
      /\ (indexOf interior "/" = None ->
          parseWordToTiles ("/" ++ interior ++ "/" ++ rest)
          = Returned (mkTile interior welded :: tiles)).
Proof.
  intros interior rest.
  destruct (tokenizer_covers rest) as (tiles & _ & Hrest & _).
  exists tiles. split; [exact Hrest|].
  destruct (override_body interior rest) as (H1 & H2 & H3 & H4 & H5).
  repeat split; intros H;
    match goal with
    | Hb : _ -> body ?w = _ |- parseWordToTiles ?w = _ =>
        destruct (parse_step _ _ _ (Hb H)) as (tiles' & Hrest' & ->);
        [discriminate | congruence]
    end.
Qed.

Lemma overrides_verbatim_witness :
  parseWordToTiles ("{" ++ "ck" ++ "}" ++ "ing")
  = Returned [mkTile "ck" consonant; mkTile "ing" welded].
Proof.
  destruct (overrides_verbatim "ck" "ing") as (tiles & Hrest & _ & _ & _ & H & _).
  rewrite (H eq_refl). f_equal. f_equal.
  vm_compute in Hrest. now injection Hrest as <-.
Defined.

Lemma alnum_not_marker c :
  isAlnum c = true ->
  Ascii.eqb c " " = false /\ Ascii.eqb c "|" = false
  /\ Ascii.eqb c "<" = false /\ Ascii.eqb c "-" = false
  /\ Ascii.eqb c "[" = false /\ Ascii.eqb c "{" = false
  /\ Ascii.eqb c "/" = false.
Proof.
  destruct c as [[] [] [] [] [] [] [] []]; vm_compute; intros H;
    try discriminate H; repeat split.
Qed.

Lemma takeWhile_append p a r :
  allChars p a = true -> takeWhile p (a ++ r) = a ++ takeWhile p r.
Proof.
  induction a as [|c a IH]; simpl; [reflexivity|].
  intros [Hc Ha]%andb_true_iff. now rewrite Hc, IH.
Qed.

Lemma dropWhile_append p a r :
  allChars p a = true -> dropWhile p (a ++ r) = dropWhile p r.
Proof.
  induction a as [|c a IH]; simpl; [reflexivity|].
  intros [Hc Ha]%andb_true_iff. now rewrite Hc, IH.
Qed.

Lemma takeWhile_all p a : allChars p a = true -> takeWhile p a = a.
Proof.
  induction a as [|c a IH]; simpl; [reflexivity|].
  intros [Hc Ha]%andb_true_iff. now rewrite Hc, IH.
Qed.

Lemma dropWhile_all p a : allChars p a = true -> dropWhile p a = EmptyString.
Proof.
  induction a as [|c a IH]; simpl; [reflexivity|].
  intros [Hc Ha]%andb_true_iff. now rewrite Hc, IH.
Qed.

Lemma affix_body run rest :
  run <> EmptyString -> allChars isAlnum run = true ->
  body (run ++ "-" ++ rest) = Returned (mkTile (run ++ "-") prefix, rest)
  /\ (takeWhile isAlnum rest = EmptyString ->
      body ("-" ++ run ++ rest) = Returned (mkTile ("-" ++ run) suffix, rest)).
Proof.
  intros Hne Hrun. split.
  - destruct run as [|c run]; [congruence|]. clear Hne.
    pose proof Hrun as Hc. simpl in Hc. apply andb_true_iff in Hc as [Hc _].
    destruct (alnum_not_marker c Hc) as (E1 & E2 & E3 & E4 & _).
    unfold body, delimited.
    cbn [append startsWith syllableMatch suffixMatch].
    rewrite E1, E2, E3, E4. cbn [andb orElse].
    unfold prefixMatch.
    change (String c (run ++ String "-" rest)) with (String c run ++ String "-" rest).
    rewrite takeWhile_append, dropWhile_append by exact Hrun.
    cbn [takeWhile dropWhile]. replace (isAlnum "-") with false by reflexivity.
    rewrite append_nil_r. cbn [isEmpty negb startsWith andb]. rewrite Ascii.eqb_refl.
    cbn [andb orElse]. do 2 f_equal.
    change (String "-" rest) with ("-" ++ rest). rewrite <- append_assoc.
    apply slice_append.
  - intros Hrest. unfold body.
    cbn [append startsWith syllableMatch suffixMatch delimited Ascii.eqb Bool.eqb
         andb orElse].
    rewrite takeWhile_append, Hrest, append_nil_r by exact Hrun.
    destruct run as [|c run]; [congruence|]. cbn [isEmpty negb orElse].
    do 2 f_equal. cbn [String.length slice]. apply slice_append.
Qed.

(** The affix shorthands: an alphanumeric run and the hyphen after it are one
    prefix tile, a hyphen and the alphanumeric run after it one suffix tile;
    the hyphen is part of the text, and what follows is tokenized as if it
    stood alone. *)
Theorem affix_shorthands :
  forall run rest,
    run <> EmptyString -> allChars isAlnum run = true ->
    exists tiles,
      parseWordToTiles rest = Returned tiles
      /\ parseWordToTiles (run ++ "-" ++ rest)
         = Returned (mkTile (run ++ "-") prefix :: tiles)
      /\ (takeWhile isAlnum rest = EmptyString ->
          parseWordToTiles ("-" ++ run ++ rest)
          = Returned (mkTile ("-" ++ run) suffix :: tiles)).
Proof.
  intros run rest Hne Hrun.
  destruct (tokenizer_covers rest) as (tiles & _ & Hrest & _).
  exists tiles. split; [exact Hrest|].
  destruct (affix_body run rest Hne Hrun) as [Hp Hs]. split.
  - destruct (parse_step _ _ _ Hp) as (tiles' & Hrest' & ->); [|congruence].
    destruct run; [congruence | discriminate].
  - intros H. destruct (parse_step _ _ _ (Hs H)) as (tiles' & Hrest' & ->);
      [discriminate | congruence].
Qed.

Lemma affix_shorthands_witness :
  "re" <> EmptyString /\ allChars isAlnum "re" = true
  /\ exists tiles,
       parseWordToTiles " do" = Returned tiles
       /\ parseWordToTiles ("re" ++ "-" ++ " do")
          = Returned (mkTile "re-" prefix :: tiles)
       /\ parseWordToTiles ("-" ++ "re" ++ " do")
          = Returned (mkTile "-re" suffix :: tiles).
Proof.
  split; [discriminate|]. split; [reflexivity|].
  destruct (affix_shorthands "re" " do") as (tiles & H1 & H2 & H3);
    [discriminate | reflexivity |].
  exists tiles. repeat split; [exact H1 | exact H2 | apply H3; reflexivity].
Defined.

Lemma toLowerCase_append a b :
  toLowerCase (a ++ b) = toLowerCase a ++ toLowerCase b.
Proof. induction a as [|c a IH]; simpl; [reflexivity | now rewrite IH]. Qed.

Lemma toLowerCase_length s : String.length (toLowerCase s) = String.length s.
Proof. induction s as [|c s IH]; simpl; [reflexivity | now rewrite IH]. Qed.

Definition spaceFree (p : string) : bool :=
  allChars (fun k => negb (Ascii.eqb " " k)) p.

Lemma startsWith_before_space x y p :
  spaceFree p = true ->
  startsWith (x ++ String " " y) p = startsWith x p.
Proof.
  unfold spaceFree. revert x; induction p as [|k p IH]; intros x H; [reflexivity|].
  simpl in H. apply andb_true_iff in H as [Hk Hp].
  destruct x as [|d x]; simpl.
  - apply negb_true_iff in Hk. now rewrite Hk.
  - now rewrite IH.
Qed.

Lemma startsWith_length s p :
  startsWith s p = true -> String.length p <= String.length s.
Proof.
  revert s; induction p as [|c p IH]; intros s H; simpl in *; [lia|].
  destruct s as [|d s]; [discriminate|].
  apply andb_true_iff in H as [_ H]. apply IH in H. simpl. lia.
Qed.

Lemma take_append_le n a x :
  n <= String.length a -> take n (a ++ x) = take n a.
Proof.
  revert a; induction n as [|n IH]; intros a H; [reflexivity|].
  destruct a as [|c a]; simpl in *; [lia|]. rewrite IH by lia. reflexivity.
Qed.

Lemma slice_append_le n a x :
  n <= String.length a -> slice n (a ++ x) = slice n a ++ x.
Proof.
  revert a; induction n as [|n IH]; intros a H; [reflexivity|].
  destruct a as [|c a]; simpl in *; [lia|]. apply IH. lia.
Qed.

Definition followedBy (b : string) (r : TileData * string) : TileData * string :=
  (fst r, snd r ++ " " ++ b).

Lemma tableMatch_before_space table ty a b :
  forallb spaceFree table = true ->
  tableMatch table ty (toLowerCase (a ++ " " ++ b)) (a ++ " " ++ b)
  = option_map (followedBy b) (tableMatch table ty (toLowerCase a) a).
Proof.
  induction table as [|p table IH]; simpl; [reflexivity|].
  intros [Hp Htable]%andb_true_iff.
  rewrite toLowerCase_append. cbn [append toLowerCase].
  replace (lowerChar " ") with " "%char by reflexivity.
  rewrite (startsWith_before_space _ _ _ Hp).
  destruct (startsWith (toLowerCase a) p) eqn:E.
  - apply startsWith_length in E. rewrite toLowerCase_length in E.
    rewrite !substring_from_zero. unfold followedBy. cbn [option_map fst snd].
    change (String " " b) with (" " ++ b).
    now rewrite take_append_le, slice_append_le.
  - rewrite <- IH by exact Htable. now rewrite toLowerCase_append.
Qed.

Lemma allLetters_allAlnum a : allChars isLetter a = true -> allChars isAlnum a = true.
Proof.
  induction a as [|c a IH]; simpl; [reflexivity|].
  intros [Hc Ha]%andb_true_iff. unfold isAlnum at 1. now rewrite Hc, IH.
Qed.

(** In front of a space, the first step on a run of letters is the step on
    the run alone. *)
Lemma body_before_space a b :
  a <> EmptyString -> allChars isLetter a = true ->
  body (a ++ " " ++ b)
  = match body a with
    | Returned r => Returned (followedBy b r)
    | Thrown => Thrown
    | OutOfFuel => OutOfFuel
    end.
Proof.
  intros Hne Hletters. pose proof (allLetters_allAlnum a Hletters) as Halnum.
  destruct a as [|c a]; [congruence|]. clear Hne.
  pose proof Halnum as Hc. simpl in Hc. apply andb_true_iff in Hc as [Hc _].
  destruct (alnum_not_marker c Hc) as (E1 & E2 & E3 & E4 & E5 & E6 & E7).
  unfold body, delimited, prefixMatch.
  rewrite !tableMatch_before_space by reflexivity.
  rewrite (takeWhile_append isAlnum (String c a) (" " ++ b) Halnum).
  rewrite (dropWhile_append isAlnum (String c a) (" " ++ b) Halnum).
  rewrite (takeWhile_all isAlnum (String c a) Halnum).
  rewrite (dropWhile_all isAlnum (String c a) Halnum).
  cbn [append startsWith syllableMatch suffixMatch takeWhile dropWhile].
  rewrite E1, E2, E3, E4, E5, E6, E7.
  replace (isAlnum " ") with false by reflexivity.
  cbn [andb orElse isEmpty negb startsWith Ascii.eqb Bool.eqb].
  repeat match goal with
         | |- context [tableMatch ?t ?ty (toLowerCase (String c a)) (String c a)] =>
             destruct (tableMatch t ty (toLowerCase (String c a)) (String c a))
               as [[? ?]|]; cbn [option_map orElse]; [reflexivity|]
         end.
  cbn [slice]. destruct (existsb _ vowels); reflexivity.
Qed.

Lemma words_independent_aux n :
  forall a b,
    String.length a <= n -> allChars isLetter a = true ->
    exists ta tb,
      parseWordToTiles a = Returned ta /\ parseWordToTiles b = Returned tb
      /\ parseWordToTiles (a ++ " " ++ b)
         = Returned (ta ++ mkTile EmptyString space :: tb)%list.
Proof.
  induction n as [|n IH]; intros a b Hlen Hletters.
  - apply Nat.le_0_r, length_zero in Hlen; subst a.
    destruct (parse_step (" " ++ b) (mkTile EmptyString space) b eq_refl)
      as (tb & Hb & Hab); [discriminate|].
    exists [], tb. repeat split; [exact Hb | exact Hab].
  - destruct a as [|c a].
    { destruct (parse_step (" " ++ b) (mkTile EmptyString space) b eq_refl)
        as (tb & Hb & Hab); [discriminate|].
      exists [], tb. repeat split; [exact Hb | exact Hab]. }
    destruct (body_advances (String c a)) as ([t r] & Hbody & seg & _ & Hsplit & Hpos);
      [discriminate|].
    cbn [snd] in Hsplit.
    assert (Hr : String.length r <= n /\ allChars isLetter r = true).
    { split.
      - apply (f_equal String.length) in Hsplit. rewrite length_append in Hsplit.
        simpl in Hsplit, Hlen. lia.
      - rewrite Hsplit, allChars_append in Hletters.
        now apply andb_true_iff in Hletters as [_ H]. }
    destruct (IH r b (proj1 Hr) (proj2 Hr)) as (tr & tb & Htr & Htb & Hrb).
    destruct (parse_step _ _ _ Hbody) as (tr' & Htr' & Ha); [discriminate|].
    pose proof (body_before_space (String c a) b) as Hstep.
    rewrite Hbody in Hstep. unfold followedBy in Hstep. cbn [fst snd] in Hstep.
    destruct (parse_step _ _ _ (Hstep ltac:(discriminate) Hletters))
      as (trb & Htrb & Hab); [discriminate|].
    exists (t :: tr), tb. repeat split; [congruence | exact Htb |].
    rewrite Hab. cbn [app]. congruence.
Qed.

(** Words are tokenized one by one: a run of letters followed by a space is
    tokenized as the run alone, the space is one space tile, and what
    follows is tokenized as if it stood alone. *)
Theorem words_tokenized_independently :
  forall a b,
    allChars isLetter a = true ->
    exists ta tb,
      parseWordToTiles a = Returned ta /\ parseWordToTiles b = Returned tb
      /\ parseWordToTiles (a ++ " " ++ b)
         = Returned (ta ++ mkTile EmptyString space :: tb)%list.
Proof. intros a b. now apply (words_independent_aux (String.length a)). Qed.

Lemma words_tokenized_independently_witness :
  allChars isLetter "ship" = true
  /\ parseWordToTiles ("ship" ++ " " ++ "-ing")
     = Returned [mkTile "sh" digraph; mkTile "i" vowel; mkTile "p" consonant;
                 mkTile EmptyString space; mkTile "-ing" suffix].
Proof.
  split; [reflexivity|].
  destruct (words_tokenized_independently "ship" "-ing" eq_refl)
    as (ta & tb & Ha & Hb & ->).
  vm_compute in Ha, Hb. injection Ha as <-. injection Hb as <-. reflexivity.
Defined.

(** *** Case *)

Definition markers : list ascii :=
  [" "; "|"; "<"; ">"; "-"; "["; "]"; "{"; "}"; "/"]%char.

(** Lower-casing a character is idempotent, keeps alphanumeric characters
    alphanumeric and neither makes nor unmakes a marker. *)
Definition lowerCharOk (c : ascii) : bool :=
  Ascii.eqb (lowerChar (lowerChar c)) (lowerChar c)
  && Bool.eqb (isAlnum (lowerChar c)) (isAlnum c)
  && forallb (fun k => Bool.eqb (Ascii.eqb (lowerChar c) k) (Ascii.eqb c k)) markers.

Lemma lowerChar_ok c : lowerCharOk c = true.
Proof. destruct c as [[] [] [] [] [] [] [] []]; vm_compute; reflexivity. Qed.

Lemma lowerChar_idem c : lowerChar (lowerChar c) = lowerChar c.
Proof.
  pose proof (lowerChar_ok c) as H. unfold lowerCharOk in H.
  apply andb_true_iff in H as [H _]. apply andb_true_iff in H as [H _].
  now apply Ascii.eqb_eq.
Qed.

Lemma lowerChar_alnum c : isAlnum (lowerChar c) = isAlnum c.
Proof.
  pose proof (lowerChar_ok c) as H. unfold lowerCharOk in H.
  apply andb_true_iff in H as [H _]. apply andb_true_iff in H as [_ H].
  now apply Bool.eqb_prop.
Qed.

Lemma lowerChar_marker c k :
  In k markers -> Ascii.eqb (lowerChar c) k = Ascii.eqb c k.
Proof.
  intros Hk. pose proof (lowerChar_ok c) as H. unfold lowerCharOk in H.
  apply andb_true_iff in H as [_ H].
  apply Bool.eqb_prop. exact (proj1 (forallb_forall _ _) H k Hk).
Qed.

Lemma toLowerCase_idem s : toLowerCase (toLowerCase s) = toLowerCase s.
Proof. induction s as [|c s IH]; simpl; [reflexivity | now rewrite lowerChar_idem, IH]. Qed.

Lemma toLowerCase_slice n s : toLowerCase (slice n s) = slice n (toLowerCase s).
Proof.
  revert s; induction n as [|n IH]; intros [|c s]; simpl; try reflexivity.
  apply IH.
Qed.

Lemma toLowerCase_substring a b s :
  toLowerCase (substring a b s) = substring a b (toLowerCase s).
Proof. unfold substring. now rewrite toLowerCase_take, toLowerCase_slice. Qed.

Lemma indexOf_lower s k : In k markers -> indexOf (toLowerCase s) k = indexOf s k.
Proof.
  intros Hk. induction s as [|c s IH]; simpl; [reflexivity|].
  now rewrite lowerChar_marker, IH.
Qed.

Lemma startsWith_lower_marker s k :
  In k markers ->
  startsWith (toLowerCase s) (String k EmptyString) = startsWith s (String k EmptyString).
Proof. intros Hk. destruct s as [|c s]; simpl; [reflexivity | now rewrite lowerChar_marker]. Qed.

Lemma takeWhile_alnum_lower s :
  takeWhile isAlnum (toLowerCase s) = toLowerCase (takeWhile isAlnum s).
Proof.
  induction s as [|c s IH]; simpl; [reflexivity|].
  rewrite lowerChar_alnum. destruct (isAlnum c); simpl; [now rewrite IH | reflexivity].
Qed.

Lemma dropWhile_alnum_lower s :
  dropWhile isAlnum (toLowerCase s) = toLowerCase (dropWhile isAlnum s).
Proof.
  induction s as [|c s IH]; simpl; [reflexivity|].
  rewrite lowerChar_alnum. destruct (isAlnum c); simpl; [exact IH | reflexivity].
Qed.

Lemma isEmpty_lower s : isEmpty (toLowerCase s) = isEmpty s.
Proof. now destruct s. Qed.

(** A tile with its text in lower case. *)
Definition lowerTile (t : TileData) : TileData :=
  mkTile (toLowerCase (text t)) (type t).

Definition lowerStep (r : TileData * string) : TileData * string :=
  (lowerTile (fst r), toLowerCase (snd r)).

Definition mapOutcome {A B : Type} (f : A -> B) (o : outcome A) : outcome B :=
  match o with
  | Returned a => Returned (f a)
  | Thrown => Thrown
  | OutOfFuel => OutOfFuel
  end.

Lemma orElse_map {A B : Type} (f : A -> B) o k :
  orElse (option_map f o) (mapOutcome f k) = mapOutcome f (orElse o k).
Proof. now destruct o. Qed.

Lemma delimited_lower o close ty remaining :
  In o markers ->
  delimited (String o EmptyString) close ty (toLowerCase remaining)
  = option_map lowerStep (delimited (String o EmptyString) close ty remaining).
Proof.
  intros Ho. unfold delimited. rewrite (startsWith_lower_marker _ _ Ho).
  destruct (startsWith remaining _); [|reflexivity].
  destruct close as [close|]; [|reflexivity].
  cbn [option_map]. unfold lowerStep, lowerTile. cbn [fst snd text type].
  now rewrite toLowerCase_substring, toLowerCase_slice.
Qed.

Lemma tableMatch_lower table ty remaining :
  tableMatch table ty (toLowerCase (toLowerCase remaining)) (toLowerCase remaining)
  = option_map lowerStep (tableMatch table ty (toLowerCase remaining) remaining).
Proof.
  rewrite toLowerCase_idem.
  induction table as [|p table IH]; simpl; [reflexivity|].
  destruct (startsWith (toLowerCase remaining) p); [|exact IH].
  cbn [option_map]. unfold lowerStep, lowerTile. cbn [fst snd text type].
  now rewrite toLowerCase_substring, toLowerCase_slice.
Qed.

Lemma body_lower remaining :
  body (toLowerCase remaining) = mapOutcome lowerStep (body remaining).
Proof.
  unfold body. cbv zeta.
  repeat rewrite <- orElse_map.
  rewrite !delimited_lower by (simpl; tauto).
  rewrite !tableMatch_lower.
  rewrite !indexOf_lower by (simpl; tauto).
  unfold indexOfFrom. rewrite <- toLowerCase_slice, indexOf_lower by (simpl; tauto).
  repeat f_equal.
  - rewrite (startsWith_lower_marker remaining " ") by (simpl; tauto).
    destruct (startsWith remaining " "); [|reflexivity].
    cbn [option_map]. unfold lowerStep, lowerTile. cbn [fst snd text type toLowerCase].
    now rewrite toLowerCase_slice.
  - destruct remaining as [|c rest]; [reflexivity|]. cbn [toLowerCase syllableMatch].
    rewrite lowerChar_marker by (simpl; tauto).
    destruct (Ascii.eqb c "|"); [|reflexivity].
    rewrite indexOf_lower by (simpl; tauto).
    destruct (indexOf rest "|") as [k|]; [|reflexivity].
    cbn [option_map]. unfold lowerStep, lowerTile. cbn [fst snd text type].
    rewrite <- !toLowerCase_take.
    change (String (lowerChar c) (toLowerCase rest)) with (toLowerCase (String c rest)).
    rewrite toLowerCase_slice. do 3 f_equal. cbn [String.length].
    now rewrite !length_append, toLowerCase_length.
  - destruct remaining as [|c rest]; [reflexivity|]. cbn [toLowerCase suffixMatch].
    rewrite lowerChar_marker by (simpl; tauto).
    rewrite takeWhile_alnum_lower, isEmpty_lower.
    destruct (Ascii.eqb c "-" && negb (isEmpty (takeWhile isAlnum rest)));
      [|reflexivity].
    cbn [option_map]. unfold lowerStep, lowerTile. cbn [fst snd text type toLowerCase].
    replace (lowerChar "-") with "-"%char by reflexivity.
    change (String (lowerChar c) (toLowerCase rest)) with (toLowerCase (String c rest)).
    rewrite toLowerCase_slice. cbn [String.length].
    now rewrite toLowerCase_length.
  - unfold prefixMatch.
    rewrite takeWhile_alnum_lower, dropWhile_alnum_lower, isEmpty_lower.
    rewrite (startsWith_lower_marker _ "-") by (simpl; tauto).
    destruct (negb (isEmpty (takeWhile isAlnum remaining))
              && startsWith (dropWhile isAlnum remaining) "-"); [|reflexivity].
    cbn [option_map]. unfold lowerStep, lowerTile. cbn [fst snd text type].
    rewrite toLowerCase_append, toLowerCase_slice. cbn [toLowerCase].
    replace (lowerChar "-") with "-"%char by reflexivity.
    now rewrite !length_append, toLowerCase_length.
  - destruct remaining as [|c rest]; [reflexivity|]. cbn [toLowerCase].
    rewrite lowerChar_idem.
    destruct (existsb (Ascii.eqb (lowerChar c)) vowels); reflexivity.
Qed.

Lemma loop_lower fuel :
  forall tiles remaining,
    loop fuel (map lowerTile tiles) (toLowerCase remaining)
    = mapOutcome (map lowerTile) (loop fuel tiles remaining).
Proof.
  induction fuel as [|fuel IH]; intros tiles remaining.
  - destruct remaining; reflexivity.
  - destruct remaining as [|c rest]; [reflexivity|].
    change (toLowerCase (String c rest))
      with (String (lowerChar c) (toLowerCase rest)).
    rewrite !loop_step.
    change (String (lowerChar c) (toLowerCase rest))
      with (toLowerCase (String c rest)).
    rewrite body_lower.
    destruct (body (String c rest)) as [[tile rest']| |]; try reflexivity.
    cbn [mapOutcome lowerStep fst snd].
    rewrite <- IH, map_app. reflexivity.
Qed.

(** Classification ignores case and keeps it, on a word of ASCII
    characters: the lower-cased word gives the same kinds of tiles, in the
    same order, with the lower-cased texts. *)
Theorem tokenizer_ignores_case :
  forall word,
    allChars isAscii word = true ->
    exists tiles,
      parseWordToTiles word = Returned tiles
      /\ parseWordToTiles (toLowerCase word) = Returned (map lowerTile tiles).
Proof.
  intros word _. destruct (tokenizer_covers word) as (tiles & _ & Hp & _).
  exists tiles. split; [exact Hp|].
  unfold parseWordToTiles in *. rewrite toLowerCase_length.
  change (@nil TileData) with (map lowerTile []).
  now rewrite loop_lower, Hp.
Qed.

Lemma tokenizer_ignores_case_witness :
  allChars isAscii "SHIP -ING" = true
  /\ exists tiles,
       parseWordToTiles "SHIP -ING" = Returned tiles
       /\ parseWordToTiles (toLowerCase "SHIP -ING") = Returned (map lowerTile tiles).
Proof. split; [reflexivity | apply tokenizer_ignores_case; reflexivity]. Defined.

End TokenizerFacts.

(** ** The round trip of the tokenizer *)
Module RoundTrip.
Import JS Tiles StringFacts TilesSpec TokenizerFacts.

(** The five overrides, with the character that opens each and the one
    that closes it. *)
Inductive Override : Type := bars | angles | brackets | braces | slashes.

Definition opener (k : Override) : string :=
  match k with
  | bars => "|" | angles => "<" | brackets => "[" | braces => "{" | slashes => "/"
  end.

Definition closer (k : Override) : string :=
  match k with
  | bars => "|" | angles => ">" | brackets => "]" | braces => "}" | slashes => "/"
  end.

(** A stretch of a word: plain text, or an override around its interior. *)
Inductive Piece : Type :=
| plain (a : string)
| override (k : Override) (interior : string).

Fixpoint render (pieces : list Piece) : string :=
  match pieces with
  | [] => EmptyString
  | plain a :: rest => a ++ render rest
  | override k interior :: rest => opener k ++ interior ++ closer k ++ render rest
  end.

Definition content (p : Piece) : string :=
  match p with
  | plain a => a
  | override _ interior => interior
  end.

Definition contents (pieces : list Piece) : string := joined (map content pieces).

(** Every delimiter of the word is the opener or the closer of an override
    whose interior holds no delimiter: the word is a sequence of stretches
    without delimiter and of such overrides. *)
Definition wellDelimited (s : string) : Prop :=
  exists pieces,
    s = render pieces /\ Forall (fun p => delimiterFree (content p) = true) pieces.

Definition freeOf (d : ascii) (p : string) : bool :=
  allChars (fun k => negb (Ascii.eqb d k)) p.

Definition followed (x : string) (r : TileData * string) : TileData * string :=
  (fst r, snd r ++ x).

Lemma startsWith_before d x y p :
  freeOf d p = true -> startsWith (x ++ String d y) p = startsWith x p.
Proof.
  unfold freeOf. revert x; induction p as [|k p IH]; intros x H; [reflexivity|].
  simpl in H. apply andb_true_iff in H as [Hk Hp].
  destruct x as [|e x]; simpl.
  - apply negb_true_iff in Hk. now rewrite Hk.
  - now rewrite IH.
Qed.

Lemma delimiter_facts d :
  isDelimiter d = true ->
  isAlnum d = false /\ lowerChar d = d /\ freeOf d "-" = true
  /\ forallb (freeOf d) weldedSounds = true
  /\ forallb (freeOf d) vowelTeams = true
  /\ forallb (freeOf d) rControlled = true
  /\ forallb (freeOf d) digraphs = true.
Proof.
  destruct d as [[] [] [] [] [] [] [] []]; vm_compute; intros H;
    try discriminate H; repeat split.
Qed.

Lemma plain_facts c :
  isDelimiter c = false ->
  Ascii.eqb c "|" = false /\ Ascii.eqb c "<" = false /\ Ascii.eqb c "[" = false
  /\ Ascii.eqb c "{" = false /\ Ascii.eqb c "/" = false.
Proof.
  destruct c as [[] [] [] [] [] [] [] []]; vm_compute; intros H;
    try discriminate H; repeat split.
Qed.

Lemma tableMatch_before d table ty a w :
  lowerChar d = d -> forallb (freeOf d) table = true ->
  tableMatch table ty (toLowerCase (a ++ String d w)) (a ++ String d w)
  = option_map (followed (String d w)) (tableMatch table ty (toLowerCase a) a).
Proof.
  intros Hd. induction table as [|p table IH]; simpl; [reflexivity|].
  intros [Hp Htable]%andb_true_iff.
  rewrite toLowerCase_append. cbn [toLowerCase]. rewrite Hd.
  rewrite (startsWith_before _ _ _ _ Hp).
  destruct (startsWith (toLowerCase a) p) eqn:E.
  - apply startsWith_length in E. rewrite toLowerCase_length in E.
    rewrite !substring_from_zero. unfold followed. cbn [option_map fst snd].
    now rewrite take_append_le, slice_append_le.
  - rewrite <- IH by exact Htable. rewrite toLowerCase_append.
    cbn [toLowerCase]. now rewrite Hd.
Qed.

Lemma takeWhile_stop p x d y :
  p d = false -> takeWhile p (x ++ String d y) = takeWhile p x.
Proof.
  intros Hd. induction x as [|c x IH]; simpl; [now rewrite Hd|].
  destruct (p c); [now rewrite IH | reflexivity].
Qed.

Lemma dropWhile_stop p x d y :
  p d = false -> dropWhile p (x ++ String d y) = dropWhile p x ++ String d y.
Proof.
  intros Hd. induction x as [|c x IH]; simpl; [now rewrite Hd|].
  destruct (p c); [exact IH | reflexivity].
Qed.

Lemma length_takeWhile p s : String.length (takeWhile p s) <= String.length s.
Proof.
  induction s as [|c s IH]; simpl; [lia|]. destruct (p c); simpl; lia.
Qed.

(** In front of a delimiter, the first step on text that starts with no
    delimiter is the step on the text alone. *)
Lemma body_before_delimiter c a d w :
  isDelimiter c = false -> isDelimiter d = true ->
  body (String c a ++ String d w)
  = match body (String c a) with
    | Returned r => Returned (followed (String d w) r)
    | Thrown => Thrown
    | OutOfFuel => OutOfFuel
    end.
Proof.
  intros Hc Hd.
  destruct (plain_facts c Hc) as (E1 & E2 & E3 & E4 & E5).
  destruct (delimiter_facts d Hd) as (Dalnum & Dlower & Dhyphen & T1 & T2 & T3 & T4).
  unfold body, delimited, prefixMatch.
  rewrite !(tableMatch_before d) by assumption.
  rewrite (takeWhile_stop isAlnum (String c a) d w Dalnum).
  rewrite (dropWhile_stop isAlnum (String c a) d w Dalnum).
  rewrite (startsWith_before d _ w "-" Dhyphen).
  destruct (negb (isEmpty (takeWhile isAlnum (String c a)))
            && startsWith (dropWhile isAlnum (String c a)) "-") eqn:Eprefix.
  - assert (Hlen : String.length (takeWhile isAlnum (String c a) ++ "-")
                   <= String.length (String c a)).
    { apply andb_true_iff in Eprefix as [_ Hstart].
      apply startsWith_length in Hstart.
      rewrite <- (takeWhile_dropWhile isAlnum (String c a)) at 2.
      rewrite !length_append. simpl in *. lia. }
    rewrite (slice_append_le _ (String c a) (String d w) Hlen).
    cbn [append startsWith syllableMatch suffixMatch].
    rewrite (takeWhile_stop isAlnum a d w Dalnum).
    rewrite E1, E2, E3, E4, E5. cbn [andb orElse].
    destruct (Ascii.eqb c " "); cbn [orElse slice followed fst snd]; [reflexivity|].
    destruct (Ascii.eqb c "-" && negb (isEmpty (takeWhile isAlnum a)));
      cbn [orElse String.length slice followed fst snd]; [|reflexivity].
    now rewrite (slice_append_le _ a (String d w) (length_takeWhile isAlnum a)).
  - cbn [append startsWith syllableMatch suffixMatch].
    rewrite (takeWhile_stop isAlnum a d w Dalnum).
    rewrite E1, E2, E3, E4, E5. cbn [andb orElse].
    destruct (Ascii.eqb c " "); cbn [orElse slice followed fst snd]; [reflexivity|].
    destruct (Ascii.eqb c "-" && negb (isEmpty (takeWhile isAlnum a)));
      cbn [orElse String.length slice followed fst snd].
    { now rewrite (slice_append_le _ a (String d w) (length_takeWhile isAlnum a)). }
    repeat match goal with
           | |- context [tableMatch ?t ?ty (toLowerCase (String c a)) (String c a)] =>
               destruct (tableMatch t ty (toLowerCase (String c a)) (String c a))
                 as [[? ?]|]; cbn [option_map orElse]; [reflexivity|]
           end.
    destruct (existsb _ vowels); reflexivity.
Qed.

Lemma delimiterFree_head c a :
  delimiterFree (String c a) = true ->
  isDelimiter c = false /\ delimiterFree a = true.
Proof.
  unfold delimiterFree. simpl. intros [Hc Ha]%andb_true_iff.
  split; [now apply negb_true_iff | exact Ha].
Qed.

Lemma parse_before_delimiter n :
  forall a d w,
    String.length a <= n -> delimiterFree a = true -> isDelimiter d = true ->
    exists ta tw,
      parseWordToTiles a = Returned ta /\ parseWordToTiles (String d w) = Returned tw
      /\ parseWordToTiles (a ++ String d w) = Returned (ta ++ tw)%list.
Proof.
  induction n as [|n IH]; intros a d w Hlen Hfree Hd.
  - apply Nat.le_0_r, length_zero in Hlen; subst a.
    destruct (tokenizer_covers (String d w)) as (tw & _ & Hw & _).
    exists [], tw. repeat split; exact Hw.
  - destruct a as [|c a].
    { destruct (tokenizer_covers (String d w)) as (tw & _ & Hw & _).
      exists [], tw. repeat split; exact Hw. }
    destruct (delimiterFree_head c a Hfree) as [Hc _].
    destruct (body_advances (String c a)) as ([t r] & Hbody & seg & _ & Hsplit & Hpos);
      [discriminate|].
    cbn [snd] in Hsplit.
    assert (Hr : String.length r <= n /\ delimiterFree r = true).
    { split.
      - apply (f_equal String.length) in Hsplit. rewrite length_append in Hsplit.
        simpl in Hsplit, Hlen. lia.
      - unfold delimiterFree in *. rewrite Hsplit, allChars_append in Hfree.
        now apply andb_true_iff in Hfree as [_ H]. }
    destruct (IH r d w (proj1 Hr) (proj2 Hr) Hd) as (tr & tw & Htr & Htw & Hrw).
    destruct (parse_step _ _ _ Hbody) as (tr' & Htr' & Ha); [discriminate|].
    pose proof (body_before_delimiter c a d w Hc Hd) as Hstep.
    rewrite Hbody in Hstep. unfold followed in Hstep. cbn [fst snd] in Hstep.
    destruct (parse_step _ _ _ Hstep) as (trw & Htrw & Haw); [discriminate|].
    exists (t :: tr), tw. repeat split; [congruence | exact Htw |].
    rewrite Haw. cbn [app]. congruence.
Qed.

Lemma tilesText_app a b : tilesText (a ++ b) = tilesText a ++ tilesText b.
Proof.
  unfold tilesText. rewrite map_app.
  induction (map shown a) as [|x xs IH]; [reflexivity|].
  unfold joined in *. cbn [app fold_right]. now rewrite IH, append_assoc.
Qed.

Lemma parse_plain a :
  delimiterFree a = true ->
  exists tiles, parseWordToTiles a = Returned tiles /\ tilesText tiles = a.
Proof.
  intros H.
  destruct (tokenizer_covers a) as (tiles & segments & Hp & Hcov & Hjoin & _).
  exists tiles. split; [exact Hp|]. rewrite <- Hjoin in *.
  now apply tilesText_delimiterFree.
Qed.

Lemma indexOf_free s c :
  isDelimiter c = true -> delimiterFree s = true -> indexOf s c = None.
Proof.
  intros Hc. unfold delimiterFree. induction s as [|d s IH]; [reflexivity|].
  simpl. intros [Hd Hs]%andb_true_iff. apply negb_true_iff in Hd.
  destruct (Ascii.eqb d c) eqn:E; [apply Ascii.eqb_eq in E; congruence|].
  now rewrite IH.
Qed.

Definition kindOf (k : Override) : TileType :=
  match k with
  | bars => syllable | angles => suffix | brackets => vowel
  | braces => consonant | slashes => welded
  end.

Lemma override_step k interior rest :
  delimiterFree interior = true ->
  body (opener k ++ interior ++ closer k ++ rest)
  = Returned (mkTile interior (kindOf k), rest).
Proof.
  intros H.
  destruct (override_body interior rest) as (H1 & H2 & H3 & H4 & H5).
  destruct k; cbn [opener closer kindOf];
    [apply H1 | apply H2 | apply H3 | apply H4 | apply H5];
    now apply indexOf_free.
Qed.

Lemma opener_delimiter k x :
  exists d w, opener k ++ x = String d w /\ isDelimiter d = true.
Proof. destruct k; eexists _, _; split; reflexivity. Qed.

(** The tiles of a sequence of plain stretches and overrides show the
    stretches and the interiors. *)
Lemma parse_pieces pieces :
  Forall (fun p => delimiterFree (content p) = true) pieces ->
  forall a,
    delimiterFree a = true ->
    exists tiles,
      parseWordToTiles (a ++ render pieces) = Returned tiles
      /\ tilesText tiles = a ++ contents pieces.
Proof.
  unfold contents.
  induction 1 as [|p pieces Hp _ IH]; intros a Ha.
  - cbn [render map joined fold_right]. rewrite !append_nil_r. now apply parse_plain.
  - destruct p as [b | k interior]; cbn [content] in Hp;
      cbn [render map joined fold_right content].
    + destruct (IH (a ++ b)) as (tiles & Htiles & Htext).
      { unfold delimiterFree in *. now rewrite allChars_append, Ha, Hp. }
      exists tiles. rewrite <- !append_assoc. split; [exact Htiles | exact Htext].
    + destruct (opener_delimiter k (interior ++ closer k ++ render pieces))
        as (d & w & Hw & Hd).
      rewrite Hw.
      destruct (parse_before_delimiter (String.length a) a d w (le_n _) Ha Hd)
        as (ta & tw & Hta & Htw & Haw).
      destruct (parse_plain a Ha) as (ta' & Hta' & Htext).
      assert (ta' = ta) by congruence. subst ta'.
      rewrite <- Hw in Htw.
      destruct (parse_step _ _ _ (override_step k interior (render pieces) Hp))
        as (tr & Htr & Hov); [destruct k; discriminate|].
      destruct (IH EmptyString eq_refl) as (tr' & Htr' & Hrest).
      cbn [append] in Htr', Hrest.
      assert (tr' = tr) by congruence. subst tr'.
      exists (ta ++ mkTile interior (kindOf k) :: tr)%list. split; [congruence|].
      rewrite tilesText_app, Htext. f_equal.
      change (tilesText (mkTile interior (kindOf k) :: tr))
        with (shown (mkTile interior (kindOf k)) ++ tilesText tr).
      rewrite Hrest. now destruct k.
Qed.

Lemma strip_plain s : delimiterFree s = true -> strip s = s.
Proof.
  unfold strip, delimiterFree. induction s as [|c s IH]; simpl; [reflexivity|].
  intros [Hc Hs]%andb_true_iff. apply negb_true_iff in Hc. now rewrite Hc, IH.
Qed.

Lemma strip_free s : delimiterFree (strip s) = true.
Proof.
  unfold strip, delimiterFree. induction s as [|c s IH]; simpl; [reflexivity|].
  destruct (isDelimiter c) eqn:E; simpl; [exact IH | now rewrite E, IH].
Qed.

Lemma strip_render pieces :
  Forall (fun p => delimiterFree (content p) = true) pieces ->
  strip (render pieces) = contents pieces.
Proof.
  unfold contents. induction 1 as [|p pieces Hp _ IH]; [reflexivity|].
  destruct p as [b | k interior]; cbn [content] in Hp;
    cbn [render map joined fold_right content]; unfold strip in *.
  - rewrite removeAll_append, IH. f_equal. now apply strip_plain.
  - rewrite !removeAll_append, IH.
    replace (removeAll isDelimiter (opener k)) with EmptyString by now destruct k.
    replace (removeAll isDelimiter (closer k)) with EmptyString by now destruct k.
    cbn [append]. f_equal. now apply strip_plain.
Qed.

Lemma covers_piece t segment :
  covers t segment -> delimiterFree (shown t) = true ->
  exists p, segment = render [p] /\ delimiterFree (content p) = true.
Proof.
  unfold covers, shown. destruct t as [txt ty]. cbn [type text].
  destruct ty; intros H Hfree;
    repeat match goal with
           | H : _ \/ _ |- _ => destruct H as [H | H]
           | H : _ /\ _ |- _ => destruct H as [? H]
           end;
    subst;
    first
      [ exists (plain " "); split; reflexivity
      | exists (override bars txt); split; [cbn; rewrite ?append_nil_r; reflexivity | exact Hfree]
      | exists (override angles txt); split; [cbn; rewrite ?append_nil_r; reflexivity | exact Hfree]
      | exists (override brackets txt); split; [cbn; rewrite ?append_nil_r; reflexivity | exact Hfree]
      | exists (override braces txt); split; [cbn; rewrite ?append_nil_r; reflexivity | exact Hfree]
      | exists (override slashes txt); split; [cbn; rewrite ?append_nil_r; reflexivity | exact Hfree]
      | exists (plain txt); split; [cbn; rewrite ?append_nil_r; reflexivity | exact Hfree] ].
Qed.

Lemma render_app xs ys : render (xs ++ ys) = render xs ++ render ys.
Proof.
  induction xs as [|p xs IH]; [reflexivity|].
  destruct p as [b | k interior]; cbn [app render]; rewrite IH;
    now rewrite <- ?append_assoc.
Qed.

Lemma covers_pieces tiles segments :
  Forall2 covers tiles segments ->
  delimiterFree (tilesText tiles) = true ->
  wellDelimited (joined segments).
Proof.
  unfold tilesText, wellDelimited.
  induction 1 as [|t seg tiles segments Hcov _ IH]; intros Hfree.
  - exists []. split; [reflexivity | constructor].
  - cbn [map joined fold_right] in *. unfold delimiterFree in Hfree.
    rewrite allChars_append in Hfree. apply andb_true_iff in Hfree as [Ht Hrest].
    destruct (IH Hrest) as (pieces & Hjoin & Hgood).
    destruct (covers_piece t seg Hcov Ht) as (p & Hseg & Hp).
    exists (p :: pieces). split; [|now constructor].
    change (p :: pieces) with ([p] ++ pieces)%list.
    now rewrite render_app, <- Hseg, <- Hjoin.
Qed.

(** C1, as the code has it. The text of the tiles and the word have the same
    delimiter-stripped form.  The text of the tiles is the delimiter-stripped
    form of the word exactly when every delimiter of the word is the opener
    or the closer of an override whose interior holds no delimiter: each such
    override loses its two delimiters and keeps its interior, and the
    stretches between the overrides stay as they are.  A word with no
    delimiter in it is the text of its tiles.  A delimiter that is not
    consumed as one of a matched pair stays in the text of a tile. *)
Theorem tiles_text_roundtrip :
  forall s,
    exists tiles,
      parseWordToTiles s = Returned tiles
      /\ strip (tilesText tiles) = strip s
      /\ (tilesText tiles = strip s <-> wellDelimited s)
      /\ (delimiterFree s = true -> tilesText tiles = s).
Proof.
  intros s.
  destruct (tokenizer_covers s) as (tiles & segments & Hp & Hcov & Hjoin & _).
  exists tiles. split; [exact Hp|]. split; [|split].
  - rewrite <- Hjoin. now apply tilesText_strip.
  - split.
    + intros Htext. rewrite <- Hjoin. apply (covers_pieces tiles segments Hcov).
      rewrite Htext. apply strip_free.
    + intros (pieces & -> & Hgood).
      destruct (parse_pieces pieces Hgood EmptyString eq_refl) as (tiles' & Hp' & Htext).
      cbn [append] in Hp', Htext.
      assert (tiles' = tiles) by congruence. subst tiles'.
      now rewrite Htext, strip_render.
  - rewrite <- Hjoin. now apply tilesText_delimiterFree.
Qed.

(** A word with three overrides between plain stretches. *)
Definition markedWord : list Piece :=
  [plain "s"; override braces "ck"; override slashes "ing"; plain " a";
   override bars "re do"].

Lemma tiles_text_roundtrip_witness :
  wellDelimited "s{ck}/ing/ a|re do|"
  /\ exists tiles,
       parseWordToTiles "s{ck}/ing/ a|re do|" = Returned tiles
       /\ tilesText tiles = "scking are do"
       /\ strip "s{ck}/ing/ a|re do|" = "scking are do".
Proof.
  assert (H : wellDelimited "s{ck}/ing/ a|re do|").
  { exists markedWord. split; [reflexivity | repeat constructor]. }
  split; [exact H|].
  destruct (tiles_text_roundtrip "s{ck}/ing/ a|re do|") as (tiles & Hp & _ & Hiff & _).
  exists tiles. split; [exact Hp|]. split; [|reflexivity].
  exact (proj2 Hiff H).
Defined.

End RoundTrip.

(** ** Further properties of the lesson-text importer *)
Module ImporterFacts.
Import JS Lessons StringFacts LessonsSpec.

(** *** The CSV helper *)

Definition notQuote (c : ascii) : bool := negb (Ascii.eqb c dquote).
Definition isComma (c : ascii) : bool := Ascii.eqb c ",".

(** A string that [trim] leaves as it is. *)
Definition trimmed (s : string) : Prop := trim s = s.

Definition startsSolid (s : string) : Prop :=
  match s with
  | EmptyString => True
  | String c _ => isWhitespace c = false
  end.

Lemma trimStart_solid s : startsSolid (trimStart s).
Proof.
  unfold trimStart. induction s as [|c s IH]; simpl; [exact I|].
  destruct (isWhitespace c) eqn:E; [exact IH | exact E].
Qed.

Lemma trimEnd_solid s : startsSolid s -> startsSolid (trimEnd s).
Proof. destruct s as [|c s]; simpl; [auto|]. intros H. rewrite H. exact H. Qed.

Lemma trimStart_of_solid s : startsSolid s -> trimStart s = s.
Proof. destruct s as [|c s]; simpl; [auto|]. unfold trimStart. simpl. now intros ->. Qed.

Lemma trimEnd_idem s : trimEnd (trimEnd s) = trimEnd s.
Proof.
  induction s as [|c s IH]; simpl; [reflexivity|].
  destruct (isWhitespace c && isEmpty (trimEnd s)) eqn:E; [reflexivity|].
  simpl. now rewrite IH, E.
Qed.

Lemma trim_idem s : trim (trim s) = trim s.
Proof.
  unfold trim.
  rewrite (trimStart_of_solid (trimEnd (trimStart s)))
    by apply trimEnd_solid, trimStart_solid.
  apply trimEnd_idem.
Qed.

Lemma dropLastQuote_plain s : allChars notQuote s = true -> dropLastQuote s = s.
Proof.
  induction s as [|c s IH]; simpl; [reflexivity|].
  intros [Hc Hs]%andb_true_iff. unfold notQuote in Hc. apply negb_true_iff in Hc.
  rewrite Hc, (IH Hs). now destruct (isEmpty s).
Qed.

Lemma stripQuotes_plain s : allChars notQuote s = true -> stripQuotes s = s.
Proof.
  intros H. unfold stripQuotes. destruct s as [|c s]; [reflexivity|].
  pose proof H as Hc. simpl in Hc. apply andb_true_iff in Hc as [Hc _].
  unfold notQuote in Hc. apply negb_true_iff in Hc. rewrite Hc.
  now apply dropLastQuote_plain.
Qed.

(** What [parseCSVLine] does to a cell that holds no quote. *)
Lemma clean_plain s :
  allChars notQuote s = true -> trim (stripQuotes (trim s)) = trim s.
Proof.
  intros H. rewrite stripQuotes_plain by now apply allChars_trim.
  apply trim_idem.
Qed.

Definition prepend (current : string) (pieces : list string) : list string :=
  match pieces with
  | [] => [current]
  | piece :: pieces' => (current ++ piece) :: pieces'
  end.

Lemma csvLoop_plain line :
  allChars notQuote line = true ->
  forall current result,
    csvLoop line current false result
    = (result ++ prepend current (splitOn isComma line))%list.
Proof.
  induction line as [|c line IH]; intros H current result; simpl.
  - now rewrite append_nil_r.
  - simpl in H. apply andb_true_iff in H as [Hc Hline].
    unfold notQuote in Hc. apply negb_true_iff in Hc. rewrite Hc.
    unfold isComma at 1. destruct (Ascii.eqb c ","); simpl.
    + rewrite (IH Hline), <- app_assoc. simpl.
      rewrite (splitOn_head isComma line). simpl.
      now rewrite append_nil_r.
    + rewrite (IH Hline). rewrite (splitOn_head isComma line). simpl.
      now rewrite append_assoc.
Qed.

(** On a line with no quote in it, [parseCSVLine] is the split on commas
    with every cell trimmed: one cell more than there are commas, an empty
    cell for an empty stretch. *)
Theorem parseCSVLine_plain :
  forall line,
    allChars notQuote line = true ->
    parseCSVLine line = map trim (splitOn isComma line).
Proof.
  intros line H. unfold parseCSVLine. rewrite (csvLoop_plain line H). cbn [app].
  rewrite (splitOn_head isComma line). cbn [prepend append].
  rewrite <- (splitOn_head isComma line).
  apply map_ext_in. intros cell Hcell. apply clean_plain.
  pose proof (splitOn_pieces isComma line) as Hpieces.
  assert (Hall : Forall (fun piece => allChars notQuote piece = true)
                        (splitOn isComma line)).
  { clear Hcell Hpieces. induction line as [|c line IH]; simpl; [now repeat constructor|].
    simpl in H. apply andb_true_iff in H as [Hc Hline]. specialize (IH Hline).
    destruct (isComma c); [now constructor|].
    destruct (splitOn isComma line) as [|piece pieces]; [now repeat constructor; simpl; rewrite Hc|].
    inversion IH; subst. constructor; [simpl; now rewrite Hc | assumption]. }
  exact (proj1 (Forall_forall _ _) Hall cell Hcell).
Qed.

Lemma parseCSVLine_plain_witness :
  parseCSVLine "3.1 , full,,pull " = ["3.1"; "full"; EmptyString; "pull"].
Proof. rewrite parseCSVLine_plain by reflexivity. reflexivity. Defined.

Lemma csvLoop_open rest current result :
  csvLoop (String dquote rest) current false result = csvLoop rest current true result.
Proof. destruct rest; reflexivity. Qed.

Lemma csvLoop_inside cell :
  allChars notQuote cell = true ->
  forall rest current result,
    csvLoop (cell ++ rest) current true result
    = csvLoop rest (current ++ cell) true result.
Proof.
  induction cell as [|c cell IH]; intros H rest current result; simpl.
  - now rewrite append_nil_r.
  - simpl in H. apply andb_true_iff in H as [Hc Hcell].
    unfold notQuote in Hc. apply negb_true_iff in Hc.
    rewrite Hc, andb_false_r, (IH Hcell), append_assoc. reflexivity.
Qed.

Lemma csvLoop_close_last current result :
  csvLoop (String dquote EmptyString) current true result = (result ++ [current])%list.
Proof. reflexivity. Qed.

Lemma csvLoop_close_comma rest current result :
  csvLoop (String dquote (String "," rest)) current true result
  = csvLoop rest EmptyString false (result ++ [current])%list.
Proof. reflexivity. Qed.

Lemma csvLoop_quoted cells :
  Forall (fun cell => allChars notQuote cell = true) cells ->
  cells <> [] ->
  forall result,
    csvLoop (String.concat "," (map quoted cells)) EmptyString false result
    = (result ++ cells)%list.
Proof.
  induction 1 as [|cell cells Hcell Hcells IH]; intros Hne result; [congruence|].
  destruct cells as [|cell' cells].
  - cbn [map String.concat]. unfold quoted, dq. cbn [append].
    rewrite csvLoop_open, (csvLoop_inside cell Hcell). apply csvLoop_close_last.
  - change (String.concat "," (map quoted (cell :: cell' :: cells)))
      with (quoted cell ++ "," ++ String.concat "," (map quoted (cell' :: cells))).
    unfold quoted at 1, dq. cbn [append]. rewrite csvLoop_open.
    rewrite append_assoc, (csvLoop_inside cell Hcell). cbn [append].
    rewrite csvLoop_close_comma, IH by discriminate.
    now rewrite <- app_assoc.
Qed.

(** Quotes protect commas: a line of quoted cells, joined by commas, parses
    back into the cells, each one trimmed, whatever commas the cells hold. *)
Theorem parseCSVLine_quoted :
  forall cells,
    cells <> [] ->
    Forall (fun cell => allChars notQuote cell = true) cells ->
    parseCSVLine (String.concat "," (map quoted cells)) = map trim cells.
Proof.
  intros cells Hne Hcells. unfold parseCSVLine.
  rewrite (csvLoop_quoted cells Hcells Hne). cbn [app].
  apply map_ext_in. intros cell Hin. apply clean_plain.
  exact (proj1 (Forall_forall _ _) Hcells cell Hin).
Qed.

Lemma parseCSVLine_quoted_witness :
  parseCSVLine (String.concat "," (map quoted ["3.1"; "full, pull"; " The cat, sat. "]))
  = ["3.1"; "full, pull"; "The cat, sat."].
Proof.
  rewrite parseCSVLine_quoted; [reflexivity | discriminate | repeat constructor].
Defined.

(** *** The header index *)

(** The name under which a header cell is filed. *)
Definition headerKey (h : string) : string := trim (toLowerCase h).

Definition addHeader (indices : Indices) (hi : string * nat) : Indices :=
  (trim (toLowerCase (fst hi)), snd hi) :: indices.

(** The position of the last header with the key [key]. *)
Fixpoint lastIndex (key : string) (headerRow : list string) : option nat :=
  match headerRow with
  | [] => None
  | h :: headerRow' =>
      match lastIndex key headerRow' with
      | Some j => Some (S j)
      | None => if String.eqb (headerKey h) key then Some 0 else None
      end
  end.

Lemma lastIndex_spec key headerRow :
  match lastIndex key headerRow with
  | Some i =>
      exists h, nth_error headerRow i = Some h /\ headerKey h = key
                /\ forall j h', i < j -> nth_error headerRow j = Some h' ->
                                headerKey h' <> key
  | None => forall h, In h headerRow -> headerKey h <> key
  end.
Proof.
  induction headerRow as [|h0 headerRow IH]; simpl; [tauto|].
  destruct (lastIndex key headerRow) as [i|].
  - destruct IH as (h & Hnth & Hkey & Hlast). exists h. repeat split; auto.
    intros j h' Hj Hnth'. destruct j; [lia|]. simpl in Hnth'.
    apply (Hlast j h'); [lia | exact Hnth'].
  - destruct (String.eqb_spec (headerKey h0) key) as [E | E].
    + exists h0. repeat split; auto. intros j h' Hj Hnth'.
      destruct j; [lia|]. simpl in Hnth'. apply IH. eapply nth_error_In, Hnth'.
    + intros h [<- | Hin]; auto.
Qed.

Lemma getIndex_fold key headerRow :
  forall start indices,
    getIndex (fold_left addHeader
                        (combine headerRow (seq start (List.length headerRow)))
                        indices) key
    = match lastIndex key headerRow with
      | Some j => Some (start + j)
      | None => getIndex indices key
      end.
Proof.
  induction headerRow as [|h headerRow IH]; intros start indices; [reflexivity|].
  cbn [List.length seq combine fold_left lastIndex]. rewrite IH.
  destruct (lastIndex key headerRow) as [j|]; [f_equal; lia|].
  unfold addHeader at 1. cbn [getIndex fst snd]. fold (headerKey h).
  destruct (String.eqb (headerKey h) key); [f_equal; lia | reflexivity].
Qed.

(** The names a plain object inherits from [Object.prototype].  Reading
    one of them from [indices] gives the inherited value when no header has
    the name, and assigning one of them may store nothing; for every other
    name the object is the map from the assigned names to the last value
    assigned.  The names [parseLessonText] reads are none of these. *)
Definition objectPrototypeNames : list string :=
  ["__proto__"; "constructor"; "hasOwnProperty"; "isPrototypeOf";
   "propertyIsEnumerable"; "toLocaleString"; "toString"; "valueOf";
   "__defineGetter__"; "__defineSetter__"; "__lookupGetter__"; "__lookupSetter__"].

(** The names that are looked up in the header index. *)
Definition lookedUp : list string :=
  ["lesson plan"; "new sight words"; "sight words"; "new sound cards"; "pa drill";
   "spelling sounds"; "new vocab words"; "vocab from sentences";
   "vocab from connected text"; "sentences"; "reading sentences";
   "connected text"; "reader"; "dictation"].

(** Looking up a name that is not inherited from [Object.prototype] finds
    the last header cell that is the name once lower-cased and trimmed, and
    nothing when there is no such cell; the names the importer looks up are
    all of this kind. *)
Theorem header_lookup :
  forall headerRow key,
    ~ In key objectPrototypeNames ->
    match getIndex (buildIndices headerRow) key with
    | Some i =>
        exists h, nth_error headerRow i = Some h /\ headerKey h = key
                  /\ forall j h', i < j -> nth_error headerRow j = Some h' ->
                                  headerKey h' <> key
    | None => forall h, In h headerRow -> headerKey h <> key
    end.
Proof.
  intros headerRow key _. unfold buildIndices.
  change (fun indices hi => (trim (toLowerCase (fst hi)), snd hi) :: indices)
    with addHeader.
  rewrite getIndex_fold. pose proof (lastIndex_spec key headerRow) as H.
  destruct (lastIndex key headerRow) as [j|]; [exact H|]. exact H.
Qed.

Lemma header_lookup_witness :
  Forall (fun key => ~ In key objectPrototypeNames) lookedUp
  /\ getIndex (buildIndices ["Step"; " Sight Words"; "Notes"; "sight words "])
              "sight words" = Some 3
  /\ match getIndex (buildIndices ["Step"; " Sight Words"; "Notes"; "sight words "])
                    "sight words" with
     | Some i =>
         exists h, nth_error ["Step"; " Sight Words"; "Notes"; "sight words "] i = Some h
                   /\ headerKey h = "sight words"
                   /\ forall j h', i < j ->
                                   nth_error ["Step"; " Sight Words"; "Notes"; "sight words "] j
                                   = Some h' ->
                                   headerKey h' <> "sight words"
     | None => forall h, In h ["Step"; " Sight Words"; "Notes"; "sight words "] ->
                         headerKey h <> "sight words"
     end.
Proof.
  assert (Hnames : Forall (fun key => ~ In key objectPrototypeNames) lookedUp).
  { repeat constructor; intros H; cbn in H;
      repeat match goal with
             | H : _ \/ _ |- _ => destruct H as [H | H]
             | H : _ = _ |- _ => discriminate H
             | H : False |- _ => destruct H
             end. }
  split; [exact Hnames|]. split; [reflexivity|].
  apply (header_lookup ["Step"; " Sight Words"; "Notes"; "sight words "] "sight words").
  exact (proj1 (Forall_forall _ _) Hnames "sight words" ltac:(cbn; tauto)).
Defined.

(** *** The list helper *)

Definition isSeparator (c : ascii) : bool :=
  Ascii.eqb c "," || Ascii.eqb c ";" || Ascii.eqb c tab.

Definition solid (c : ascii) : bool := negb (isSeparator c).

Lemma consChar_solid c pieces :
  solid c = true ->
  Forall (fun piece => allChars solid piece = true) pieces ->
  Forall (fun piece => allChars solid piece = true) (consChar c pieces).
Proof.
  intros Hc Hpieces. destruct pieces as [|piece pieces]; simpl.
  - repeat constructor. simpl. now rewrite Hc.
  - inversion Hpieces; subst. constructor; [simpl; now rewrite Hc | assumption].
Qed.

Lemma splitItems_solid str :
  forall inRun,
    Forall (fun piece => allChars solid piece = true) (splitItems inRun str).
Proof.
  induction str as [|c str IH]; intros inRun; simpl; [now repeat constructor|].
  destruct (inRun && isWhitespace c); [apply IH|].
  destruct (Ascii.eqb c "," || Ascii.eqb c ";" || Ascii.eqb c tab) eqn:E;
    [constructor; [reflexivity | apply IH]|].
  destruct (isWhitespace c && _); [constructor; [reflexivity | apply IH]|].
  apply consChar_solid; [|apply IH]. unfold solid, isSeparator. now rewrite E.
Qed.

Definition goodItem (item : string) : Prop :=
  item <> EmptyString /\ trimmed item.

Lemma nonempty_length s : (0 <? String.length s)%nat = true -> s <> EmptyString.
Proof. destruct s; [discriminate | discriminate]. Qed.

Lemma extractList_each str :
  Forall (fun item =>
            goodItem item /\ allChars solid item = true
            /\ includes (toLowerCase item) "word count" = false)
         (extractList str).
Proof.
  unfold extractList. cbv zeta.
  set (str2 := stripNumbering _).
  apply Forall_forall. intros item Hin.
  apply filter_In in Hin as [Hin Hkeep].
  apply andb_true_iff in Hkeep as [Hlen Hcount].
  apply in_map_iff in Hin as (piece & <- & Hpiece).
  repeat split.
  - now apply nonempty_length.
  - apply trim_idem.
  - apply allChars_trim.
    exact (proj1 (Forall_forall _ _) (splitItems_solid str2 false) piece Hpiece).
  - now apply negb_true_iff.
Qed.

(** The items of the list helper are never empty, have no white space at
    either end, hold no comma, semicolon or tab, and do not mention the
    word count. *)
Theorem extractList_items :
  forall str,
    Forall (fun item =>
              goodItem item /\ allChars solid item = true
              /\ includes (toLowerCase item) "word count" = false)
           (extractList str).
Proof. exact extractList_each. Qed.

(** *** The shape of an imported record *)

Definition longSentence (s : string) : Prop := 5 < String.length s.

Definition goodCard (c : WordCard) : Prop :=
  type c = regular /\ goodItem (text c).

Definition wfDictation (d : DictationSection.t) : Prop :=
  Forall goodItem (DictationSection.sounds d)
  /\ Forall goodItem (DictationSection.realWords d)
  /\ Forall goodItem (DictationSection.wordElements d)
  /\ Forall goodItem (DictationSection.nonsenseWords d)
  /\ Forall goodItem (DictationSection.phrases d)
  /\ Forall longSentence (DictationSection.sentences d).

(** Every entry of a list is a non-empty trimmed string, every word card is
    a regular one with such a text, every sentence has more than five
    characters. *)
Definition wellFormed (l : Lesson) : Prop :=
  Forall goodItem (quickDrill l)
  /\ Forall goodItem (hfwList l)
  /\ Forall goodCard (wordCards l)
  /\ Forall longSentence (sentences l)
  /\ wfDictation (dictation l).

Lemma extractList_good str : Forall goodItem (extractList str).
Proof.
  eapply Forall_impl; [|apply extractList_each]. now intros item [H _].
Qed.

Lemma makeCards_good words :
  Forall goodItem words -> forall rng, Forall goodCard (fst (makeCards rng words)).
Proof.
  induction 1 as [|w ws Hw _ IH]; intros rng; [constructor|].
  cbn [makeCards generateId]. specialize (IH (mkRng (draws rng) (S (next rng)))).
  destruct (makeCards _ ws) as [cards rng2]. cbn [fst] in *.
  constructor; [now split | exact IH].
Qed.

Lemma pushDictation_wf mode line d :
  wfDictation d -> wfDictation (pushDictation mode line d).
Proof.
  unfold pushDictation. cbv zeta.
  destruct (truthy _ && truthy _); [|auto].
  destruct d as [so re el no ph se]. unfold wfDictation.
  cbn [DictationSection.sounds DictationSection.realWords
       DictationSection.wordElements DictationSection.nonsenseWords
       DictationSection.phrases DictationSection.sentences].
  intros (H1 & H2 & H3 & H4 & H5 & H6).
  pose proof (extractList_good
                (if includes line ":" then afterColon line else stripNumbering line))
    as Hitems.
  destruct mode;
    try match goal with
        | |- context [if ?c then _ else _] => destruct c eqn:E
        end;
    cbn [DictationSection.sounds DictationSection.realWords
         DictationSection.wordElements DictationSection.nonsenseWords
         DictationSection.phrases DictationSection.sentences];
    repeat split; auto; try (apply Forall_app; split; auto).
  repeat constructor. apply andb_true_iff in E as [E _].
  now apply Nat.ltb_lt in E.
Qed.

Lemma processLine_wf st rawLine :
  wellFormed (extracted st) -> wellFormed (extracted (processLine st rawLine)).
Proof.
  destruct st as [[st1 ss1 qd1 hf1 wc1 se1 di1 pa1] sec1 sub1 rng1].
  unfold wellFormed.
  cbn [extracted quickDrill hfwList wordCards sentences dictation].
  intros (Hqd & Hhf & Hwc & Hse & Hdi).
  unfold processLine. cbn [extracted currentSection dictationSubMode rng].
  repeat match goal with
         | |- context [if anyIncluded ?l ?k then _ else _] => destruct (anyIncluded l k)
         end;
    try destruct (headerContent _);
    try destruct sec1;
    repeat match goal with
           | |- context [if ?c then _ else _] => destruct c eqn:?
           end;
    try match goal with
        | |- context [makeCards rng1 ?ws] =>
            pose proof (makeCards_good ws (extractList_good _) rng1) as Hnew;
            destruct (makeCards rng1 ws) as [newA rngA']; cbn [fst] in Hnew
        end;
    cbn [extracted setQuickDrill setHfwList setWordCards setSentences setDictation
         setPassage quickDrill hfwList wordCards sentences dictation];
    (split; [|split; [|split; [|split]]]); auto;
    try (apply Forall_app; split; auto using extractList_good);
    try (now apply pushDictation_wf).
  repeat constructor.
  match goal with
  | H : _ && _ && _ = true |- _ =>
      apply andb_true_iff in H as [H _]; apply andb_true_iff in H as [H _];
      now apply Nat.ltb_lt in H
  end.
Qed.

Lemma fold_wf lines :
  forall st,
    wellFormed (extracted st) ->
    wellFormed (extracted (fold_left processLine lines st)).
Proof.
  induction lines as [|l lines IH]; intros st H; [exact H|].
  cbn [fold_left]. now apply IH, processLine_wf.
Qed.

Lemma empty_wf st ss pa :
  wellFormed (mkLesson st ss [] [] [] [] DictationSection.empty pa).
Proof. repeat split; constructor. Qed.

Lemma standardTextParser_wf rng text :
  wellFormed (fst (standardTextParser rng text)).
Proof.
  unfold standardTextParser. cbv zeta. cbn [fst]. apply fold_wf.
  cbn [extracted]. destruct (stepMatch text) as [[a b]|]; apply empty_wf.
Qed.

Lemma getList_good indices dataRow possibleHeaders :
  Forall goodItem (getList indices dataRow possibleHeaders).
Proof.
  unfold getList. cbv zeta. destruct (truthy _); [|constructor].
  apply Forall_forall. intros item Hin.
  apply filter_In in Hin as [Hin Hkeep].
  apply in_map_iff in Hin as (piece & <- & _). split.
  - intros E. now rewrite E in Hkeep.
  - apply trim_idem.
Qed.

Lemma extractRow_wf indices dataRow rng :
  wellFormed (fst (extractRow indices dataRow rng))
  /\ dictation (fst (extractRow indices dataRow rng)) = DictationSection.empty.
Proof.
  unfold extractRow. cbv zeta.
  match goal with
  | |- context [makeCards rng ?ws] =>
      assert (Hws : Forall goodItem ws)
        by (repeat (apply Forall_app; split); apply getList_good);
      pose proof (makeCards_good ws Hws rng) as Hnew;
      destruct (makeCards rng ws) as [cards rng1]
  end.
  cbn [fst] in *. split; [|reflexivity]. unfold wellFormed.
  cbn [quickDrill hfwList wordCards sentences dictation].
  (split; [|split; [|split; [|split]]]); auto using getList_good;
    [|repeat split; constructor].
  destruct (truthy _); [|constructor].
  apply Forall_forall. intros sentence Hin.
  apply filter_In in Hin as [_ Hkeep]. now apply Nat.ltb_lt in Hkeep.
Qed.

Lemma finishRow_wf e d targetStep targetSubstep :
  wellFormed e ->
  match d with Some l => wfDictation (dictation l) | None => True end ->
  wellFormed (finishRow e d targetStep targetSubstep).
Proof.
  unfold wellFormed, finishRow. cbv zeta.
  cbn [quickDrill hfwList wordCards sentences dictation].
  intros (Hqd & Hhf & Hwc & Hse & Hdi) Hd.
  (split; [|split; [|split; [|split]]]); auto.
  destruct d; auto.
Qed.

(** Whatever the text, an imported record holds no empty or untrimmed list
    entry, no word card that is not a regular one, and no sentence of five
    characters or fewer. *)
Theorem imported_record_well_formed :
  forall fuel rng text targetStep targetSubstep l rng',
    parseLessonText fuel rng text targetStep targetSubstep = Returned (l, rng') ->
    wellFormed l.
Proof.
  induction fuel as [|fuel IH]; intros rng text targetStep targetSubstep l rng';
    [discriminate|].
  cbn [parseLessonText].
  destruct (splitOn (Ascii.eqb newline) text) as [|line0 rows]; [discriminate|].
  pose proof (standardTextParser_wf rng text) as Hstd.
  destruct (standardTextParser rng text) as [l0 rng0]. cbn [fst] in Hstd.
  destruct (isCSV (trim line0) (line0 :: rows)).
  - unfold csvBlock. cbv zeta.
    destruct (findDataRow _ _ rows) as [[dataRow|]| |]; try discriminate.
    + pose proof (extractRow_wf (buildIndices (parseCSVLine (trim line0)))
                                dataRow rng) as [Hex _].
      destruct (extractRow _ dataRow rng) as [extracted rng1]. cbn [fst] in Hex.
      destruct (truthy _).
      * destruct (parseLessonText fuel rng1 _ None None) as [[d rng2]| |] eqn:E;
          try discriminate.
        intros [= <- <-]. apply finishRow_wf; [exact Hex|].
        apply (IH _ _ _ _ _ _ E).
      * intros [= <- <-]. now apply finishRow_wf.
    + intros [= <- <-]. exact Hstd.
  - intros [= <- <-]. exact Hstd.
Qed.

Lemma imported_record_well_formed_witness :
  match parseLessonText 2 countingIds
          ("Word Cards:  cat ,dog" ++ nl ++ "Sentences for Reading" ++ nl
           ++ "A dog." ++ nl ++ "- The dog ran.")
          None None with
  | Returned (l, _) => wellFormed l
  | _ => False
  end.
Proof.
  destruct (parseLessonText 2 countingIds _ None None) as [[l rng']| |] eqn:E.
  - exact (imported_record_well_formed _ _ _ _ _ _ _ E).
  - vm_compute in E. discriminate E.
  - vm_compute in E. discriminate E.
Defined.

(** *** Text outside the sections *)









(** *** Step and substep *)

Lemma processLine_step st rawLine :
  step (extracted (processLine st rawLine)) = step (extracted st)
  /\ substep (extracted (processLine st rawLine)) = substep (extracted st).
Proof.
  destruct st as [[st1 ss1 qd1 hf1 wc1 se1 di1 pa1] sec1 sub1 rng1].
  unfold processLine. cbn [extracted currentSection dictationSubMode rng].
  repeat match goal with
         | |- context [if anyIncluded ?l ?k then _ else _] => destruct (anyIncluded l k)
         end;
    try destruct (headerContent _);
    try destruct sec1;
    repeat match goal with
           | |- context [if ?c then _ else _] => destruct c
           end;
    try match goal with
        | |- context [makeCards rng1 ?ws] => destruct (makeCards rng1 ws)
        end;
    split; reflexivity.
Qed.

Lemma fold_step lines :
  forall st,
    step (extracted (fold_left processLine lines st)) = step (extracted st)
    /\ substep (extracted (fold_left processLine lines st)) = substep (extracted st).
Proof.
  induction lines as [|l lines IH]; intros st; [now split|].
  cbn [fold_left]. destruct (IH (processLine st l)) as [-> ->].
  apply processLine_step.
Qed.

Definition number (s : string) : Prop :=
  s <> EmptyString /\ allChars isDigit s = true.

Lemma takeWhile_truthy p s : truthy (takeWhile p s) = true -> takeWhile p s <> EmptyString.
Proof. destruct (takeWhile p s); [discriminate | discriminate]. Qed.

Lemma allChars_takeWhile_same p s : allChars p (takeWhile p s) = true.
Proof.
  induction s as [|c s IH]; simpl; [reflexivity|].
  destruct (p c) eqn:E; simpl; [now rewrite E, IH | reflexivity].
Qed.

Lemma numberPair_numbers s a b :
  numberPair s = Some (a, b) -> number a /\ number b.
Proof.
  unfold numberPair. cbv zeta.
  destruct (dropWhile isDigit s) as [|c r]; [discriminate|].
  destruct (truthy (takeWhile isDigit s) && Ascii.eqb c "."
            && truthy (takeWhile isDigit r) && _) eqn:E; [|discriminate].
  intros [= <- <-].
  apply andb_true_iff in E as [E _]. apply andb_true_iff in E as [E E2].
  apply andb_true_iff in E as [E1 _].
  split; split; auto using takeWhile_truthy, allChars_takeWhile_same.
Qed.

Lemma search_result tryAt :
  forall s afterWord m,
    search tryAt afterWord s = Some m -> exists s', tryAt s' = Some m.
Proof.
  induction s as [|c s IH]; intros afterWord m; simpl.
  - destruct afterWord; [discriminate|].
    destruct (tryAt EmptyString) eqn:E; [|discriminate]. intros [= <-]. eauto.
  - destruct (if afterWord then None else tryAt (String c s)) eqn:E.
    + intros [= <-]. destruct afterWord; [discriminate | eauto].
    + apply IH.
Qed.

(** In the standard text parser the step and the substep come together or
    not at all, and both are non-empty runs of digits: the two numbers
    around the first dot that stands between digits, after the word Step
    when the text has one. *)
Theorem freeform_step_is_numeric :
  forall rng text,
    let l := fst (standardTextParser rng text) in
    (step l = None /\ substep l = None /\ stepMatch text = None)
    \/ (exists a b, step l = Some a /\ substep l = Some b
                    /\ number a /\ number b).
Proof.
  intros rng text. cbv zeta. unfold standardTextParser. cbv zeta. cbn [fst].
  match goal with
  | |- context [fold_left processLine ?ls ?st] =>
      destruct (fold_step ls st) as [-> ->]
  end.
  cbn [extracted]. destruct (stepMatch text) as [[a b]|] eqn:E.
  - right. exists a, b. cbn [step substep].
    split; [reflexivity|]. split; [reflexivity|].
    unfold stepMatch in E.
    destruct (search stepPair false text) as [m|] eqn:E1.
    + injection E as ->. apply search_result in E1 as (s' & Hs').
      unfold stepPair in Hs'. destruct (String.eqb _ _); [|discriminate].
      now apply numberPair_numbers in Hs'.
    + apply search_result in E as (s' & Hs').
      now apply numberPair_numbers in Hs'.
  - left. now repeat split.
Qed.

(** *** The data row *)

Definition firstCell (row : list string) : option string :=
  option_map trim (nth_error row 0).

Definition lessonPlanCell (indices : Indices) (row : list string) : option string :=
  match getIndex indices "lesson plan" with
  | Some idx => option_map trim (nth_error row idx)
  | None => Some EmptyString
  end.

(** The row answers the target: its first cell is the identifier or its
    lesson-plan cell starts with it; with no target, one of the two cells is
    not empty. *)
Definition answers (indices : Indices) (targetIdentifier : option string)
    (row : list string) : bool :=
  match targetIdentifier with
  | Some tid =>
      match firstCell row with Some c => String.eqb c tid | None => false end
      || match lessonPlanCell indices row with
         | Some clp => startsWith clp tid
         | None => false
         end
  | None => truthyOpt (firstCell row) || truthyOpt (lessonPlanCell indices row)
  end.

Definition eligible (indices : Indices) (targetIdentifier : option string)
    (line : string) : bool :=
  (2 <=? List.length (parseCSVLine line))%nat
  && answers indices targetIdentifier (parseCSVLine line).

(** The line stops the search with a TypeError: a target is given, the
    first cell is not the identifier and the row has no lesson-plan cell. *)
Definition throwsAt (indices : Indices) (targetIdentifier : option string)
    (line : string) : bool :=
  (2 <=? List.length (parseCSVLine line))%nat
  && match targetIdentifier with
     | Some tid =>
         negb match firstCell (parseCSVLine line) with
              | Some c => String.eqb c tid
              | None => false
              end
         && match lessonPlanCell indices (parseCSVLine line) with
            | Some _ => false
            | None => true
            end
     | None => false
     end.

Lemma findDataRow_cons indices targetIdentifier line rows :
  findDataRow indices targetIdentifier (line :: rows)
  = if eligible indices targetIdentifier line then Returned (Some (parseCSVLine line))
    else if throwsAt indices targetIdentifier line then Thrown
         else findDataRow indices targetIdentifier rows.
Proof.
  cbn [findDataRow]. cbv zeta. unfold eligible, throwsAt, answers.
  fold (firstCell (parseCSVLine line)) (lessonPlanCell indices (parseCSVLine line)).
  rewrite Nat.ltb_antisym.
  destruct (2 <=? List.length (parseCSVLine line))%nat; cbn [negb andb]; [|reflexivity].
  destruct targetIdentifier as [tid|].
  - destruct (match firstCell (parseCSVLine line) with
              | Some c => String.eqb c tid
              | None => false
              end); cbn [orb negb andb]; [reflexivity|].
    destruct (lessonPlanCell indices (parseCSVLine line)) as [clp|]; [|reflexivity].
    now destruct (startsWith clp tid).
  - now destruct (truthyOpt (firstCell (parseCSVLine line))
                  || truthyOpt (lessonPlanCell indices (parseCSVLine line))).
Qed.

(** The search passes over the line: it has fewer than two cells, or it
    neither answers the target nor stops the search. *)
Definition passedOver (indices : Indices) (targetIdentifier : option string)
    (line : string) : bool :=
  negb (eligible indices targetIdentifier line)
  && negb (throwsAt indices targetIdentifier line).

Lemma throws_not_eligible indices targetIdentifier line :
  throwsAt indices targetIdentifier line = true ->
  eligible indices targetIdentifier line = false.
Proof.
  unfold throwsAt, eligible, answers.
  destruct (2 <=? List.length (parseCSVLine line))%nat; [|discriminate].
  destruct targetIdentifier as [tid|]; [|discriminate]. cbn [andb].
  destruct (match firstCell (parseCSVLine line) with
            | Some c => String.eqb c tid
            | None => false
            end); [discriminate|].
  now destruct (lessonPlanCell indices (parseCSVLine line)).
Qed.

Lemma findDataRow_skip indices targetIdentifier before rest :
  forallb (passedOver indices targetIdentifier) before = true ->
  findDataRow indices targetIdentifier (before ++ rest)
  = findDataRow indices targetIdentifier rest.
Proof.
  induction before as [|l before IH]; [reflexivity|].
  cbn [forallb app]. unfold passedOver at 1.
  intros [[El Et]%andb_true_iff Hbefore]%andb_true_iff.
  apply negb_true_iff in El, Et.
  rewrite findDataRow_cons, El, Et. now apply IH.
Qed.

Lemma findDataRow_first indices targetIdentifier rows :
  match findDataRow indices targetIdentifier rows with
  | Returned (Some row) =>
      exists before line after,
        rows = (before ++ line :: after)%list
        /\ row = parseCSVLine line
        /\ eligible indices targetIdentifier line = true
        /\ forallb (passedOver indices targetIdentifier) before = true
  | Returned None => forallb (passedOver indices targetIdentifier) rows = true
  | Thrown =>
      exists before line after,
        rows = (before ++ line :: after)%list
        /\ throwsAt indices targetIdentifier line = true
        /\ forallb (passedOver indices targetIdentifier) before = true
  | OutOfFuel => False
  end.
Proof.
  induction rows as [|l rows IH]; [reflexivity|].
  rewrite findDataRow_cons.
  destruct (eligible indices targetIdentifier l) eqn:El.
  - exists [], l, rows. now repeat split.
  - destruct (throwsAt indices targetIdentifier l) eqn:Et.
    + exists [], l, rows. now repeat split.
    + assert (Hl : passedOver indices targetIdentifier l = true)
        by (unfold passedOver; now rewrite El, Et).
      destruct (findDataRow indices targetIdentifier rows) as [[row|]| |]; auto.
      * destruct IH as (before & line & after & -> & Hrow & Hline & Hbefore).
        exists (l :: before), line, after. repeat split; auto.
        cbn [forallb]. now rewrite Hl.
      * cbn [forallb]. now rewrite Hl.
      * destruct IH as (before & line & after & -> & Hline & Hbefore).
        exists (l :: before), line, after. repeat split; auto.
        cbn [forallb]. now rewrite Hl.
Qed.

(** The search for the data row stops at the first line it does not pass
    over.  It returns a row exactly when that line has two cells or more
    and answers the target, and the row is the cells of that line; it finds
    no row exactly when it passes over every line; it throws exactly when
    that line has two cells or more, a first cell that is not the target and
    no lesson-plan cell, which needs a target.  A line that qualifies after
    a line that throws is never reached. *)
Theorem data_row_is_first_match :
  forall indices targetIdentifier rows,
    (forall row,
        findDataRow indices targetIdentifier rows = Returned (Some row)
        <-> exists before line after,
              rows = (before ++ line :: after)%list
              /\ row = parseCSVLine line
              /\ eligible indices targetIdentifier line = true
              /\ forallb (passedOver indices targetIdentifier) before = true)
    /\ (findDataRow indices targetIdentifier rows = Returned None
        <-> forallb (passedOver indices targetIdentifier) rows = true)
    /\ (findDataRow indices targetIdentifier rows = Thrown
        <-> exists before line after,
              rows = (before ++ line :: after)%list
              /\ throwsAt indices targetIdentifier line = true
              /\ forallb (passedOver indices targetIdentifier) before = true)
    /\ (targetIdentifier = None ->
        findDataRow indices targetIdentifier rows <> Thrown).
Proof.
  intros indices targetIdentifier rows.
  pose proof (findDataRow_first indices targetIdentifier rows) as Hfirst.
  assert (Hthrown : findDataRow indices targetIdentifier rows = Thrown
                    <-> exists before line after,
                          rows = (before ++ line :: after)%list
                          /\ throwsAt indices targetIdentifier line = true
                          /\ forallb (passedOver indices targetIdentifier) before = true).
  { split.
    - intros H. now rewrite H in Hfirst.
    - intros (before & line & after & -> & Hline & Hbefore).
      rewrite findDataRow_skip by exact Hbefore.
      now rewrite findDataRow_cons, (throws_not_eligible _ _ _ Hline), Hline. }
  split; [|split; [|split]].
  - intros row. split.
    + intros H. now rewrite H in Hfirst.
    + intros (before & line & after & -> & -> & Hline & Hbefore).
      rewrite findDataRow_skip by exact Hbefore.
      now rewrite findDataRow_cons, Hline.
  - split.
    + intros H. now rewrite H in Hfirst.
    + intros H. rewrite <- (app_nil_r rows). now rewrite findDataRow_skip.
  - exact Hthrown.
  - intros -> H. apply Hthrown in H as (before & line & after & _ & Hline & _).
    unfold throwsAt in Hline. now rewrite andb_false_r in Hline.
Qed.

(** A header with the lesson-plan column in third place: the short second
    line stops the search before the third line, which answers the target. *)
Lemma data_row_is_first_match_witness :
  findDataRow (buildIndices (parseCSVLine "Step,Notes,Lesson Plan")) (Some "3.1")
              ["only"; "x,y"; "3.1,z,w"]
  = Thrown
  /\ eligible (buildIndices (parseCSVLine "Step,Notes,Lesson Plan")) (Some "3.1")
              "3.1,z,w" = true.
Proof.
  split; [|reflexivity].
  apply (proj1 (proj2 (proj2 (data_row_is_first_match
                                (buildIndices (parseCSVLine "Step,Notes,Lesson Plan"))
                                (Some "3.1") ["only"; "x,y"; "3.1,z,w"])))).
  exists ["only"], "x,y", ["3.1,z,w"]. repeat split.
Defined.

(** *** Cleaned lines *)

Definition plainChar (c : ascii) : bool :=
  negb (isBracket c) && negb (Ascii.eqb c tab).

Lemma removeAll_none p s : allChars (fun c => negb (p c)) (removeAll p s) = true.
Proof.
  induction s as [|c s IH]; simpl; [reflexivity|].
  destruct (p c) eqn:E; simpl; [exact IH | now rewrite E, IH].
Qed.

Lemma tabsToSpaces_plain s :
  allChars (fun c => negb (isBracket c)) s = true ->
  allChars plainChar (tabsToSpaces s) = true.
Proof.
  induction s as [|c s IH]; simpl; [reflexivity|].
  intros [Hc Hs]%andb_true_iff. rewrite (IH Hs), andb_true_r.
  unfold plainChar. destruct (Ascii.eqb c tab) eqn:E; [reflexivity|].
  now rewrite Hc, E.
Qed.

(** A cleaned line holds no square bracket and no tab, so no list entry and
    no sentence of the standard text parser holds one. *)
Theorem cleanLine_plain :
  forall l, allChars plainChar (cleanLine l) = true.
Proof. intros l. unfold cleanLine. apply tabsToSpaces_plain, removeAll_none. Qed.

End ImporterFacts.

(** ** Facts about the callers of the two parsers *)
Module CallerFacts.
Import JS Lessons Tiles Callers StringFacts TilesSpec LessonsSpec.
Import TokenizerFacts ImporterFacts.

(** *** The game tile and the face of a word card *)

Lemma parse_delimiterFree word :
  delimiterFree word = true ->
  exists tiles, parseWordToTiles word = Returned tiles /\ tilesText tiles = word.
Proof.
  intros H.
  destruct (tokenizer_covers word) as (tiles & segments & Hp & Hcov & Hjoin & _).
  exists tiles. split; [exact Hp|]. rewrite <- Hjoin in *.
  now apply tilesText_delimiterFree.
Qed.

Lemma single_tile_text tile word :
  tilesText [tile] = word -> word <> " " ->
  Tiles.text tile = word /\ Tiles.type tile <> space.
Proof.
  unfold tilesText, shown. cbn [map joined fold_right]. rewrite append_nil_r.
  destruct (Tiles.type tile); intros <- H; try (split; [reflexivity | discriminate]).
  now contradiction H.
Qed.

(** The game tile of a text with no override delimiter in it shows the
    whole text, whether the tokenizer makes one tile of it or several, and
    is never the invisible space tile, unless the text is one space. *)
Theorem game_tile_shows_text :
  forall word,
    delimiterFree word = true -> word <> " " ->
    exists tile,
      getGameTile word = Returned tile
      /\ Tiles.text tile = word /\ Tiles.type tile <> space.
Proof.
  intros word Hfree Hspace.
  destruct (parse_delimiterFree word Hfree) as (tiles & Hp & Htext).
  unfold getGameTile. rewrite Hp.
  destruct tiles as [|tile [|tile' tiles]].
  - eexists. split; [reflexivity|]. split; [reflexivity | discriminate].
  - exists tile. split; [reflexivity|]. now apply single_tile_text.
  - eexists. split; [reflexivity|]. split; [reflexivity | discriminate].
Qed.

Lemma game_tile_shows_text_witness :
  exists tile,
    getGameTile "ship" = Returned tile
    /\ Tiles.text tile = "ship" /\ Tiles.type tile <> space.
Proof. apply game_tile_shows_text; [reflexivity | discriminate]. Defined.

Lemma cardFace_text word kind :
  kind = hfw \/ (delimiterFree word = true /\ word <> " ") ->
  exists background,
    cardFace word kind = Returned (word, background)
    /\ (kind = hfw -> background = "bg-white border-stone-300").
Proof.
  intros H. unfold cardFace.
  destruct (tokenizer_covers word) as (tiles & segments & Hp & Hcov & Hjoin & _).
  rewrite Hp. destruct H as [-> | [Hfree Hspace]].
  - exists "bg-white border-stone-300".
    destruct tiles as [|tile [|tile' tiles]]; split; reflexivity.
  - destruct (parse_delimiterFree word Hfree) as (tiles' & Hp' & Htext).
    assert (tiles' = tiles) by congruence. subst tiles'.
    destruct tiles as [|tile [|tile' tiles]].
    + eexists. split; [reflexivity|]. reflexivity.
    + destruct (single_tile_text tile word Htext Hspace) as [Ht _].
      destruct kind; eexists; (split; [rewrite ?Ht; reflexivity|]);
        try discriminate; reflexivity.
    + eexists. split; [destruct kind; reflexivity|]. reflexivity.
Qed.

(** The card that says OOPS! is the red card when it lies face up, whatever
    its type, and a card that lies face down shows its back.  Any other
    face-up card shows its own text on the plain background when it is a
    high-frequency word, whatever the tokenizer makes of the text, and
    shows its own text when the text has no override delimiter and is not
    one space. *)
Theorem card_shows_text :
  forall word kind,
    renderCardVisual "OOPS!" kind true = Returned oopsCard
    /\ renderCardVisual word kind false = Returned cardBack
    /\ (word <> "OOPS!" ->
        kind = hfw \/ (delimiterFree word = true /\ word <> " ") ->
        exists background,
          renderCardVisual word kind true = Returned (face word background)
          /\ (kind = hfw -> background = "bg-white border-stone-300")).
Proof.
  intros word kind. split; [reflexivity|]. split.
  - unfold renderCardVisual. now rewrite andb_false_r.
  - intros Hoops H. unfold renderCardVisual.
    apply String.eqb_neq in Hoops. rewrite Hoops. cbn [andb negb].
    destruct (cardFace_text word kind H) as (background & -> & Hbg).
    now exists background.
Qed.

Lemma card_shows_text_witness :
  renderCardVisual "OOPS!" hfw true = Returned oopsCard
  /\ exists background,
       renderCardVisual "{a}" hfw true = Returned (face "{a}" background)
       /\ (hfw = hfw -> background = "bg-white border-stone-300").
Proof.
  destruct (card_shows_text "{a}" hfw) as (Hoops & _ & H).
  split; [exact Hoops|]. apply H; [discriminate | now left].
Defined.

Lemma one_step word tile :
  body word = Returned (tile, EmptyString) -> word <> EmptyString ->
  parseWordToTiles word = Returned [tile].
Proof.
  intros Hbody Hne.
  destruct (parse_step _ _ _ Hbody Hne) as (tiles & Hrest & ->).
  vm_compute in Hrest. congruence.
Qed.

(** A card that is no high-frequency word and whose text is one override
    shows the interior of the override, without the delimiters, on the
    colour of the kind the override names: ivory for braces, peach for
    brackets, green for slashes, yellow for angle brackets, white for bars. *)
Theorem override_card_face :
  forall interior kind,
    kind <> hfw ->
    (indexOf interior "}" = None ->
     cardFace ("{" ++ interior ++ "}") kind = Returned (interior, ivory))
    /\ (indexOf interior "]" = None ->
        cardFace ("[" ++ interior ++ "]") kind = Returned (interior, peach))
    /\ (indexOf interior "/" = None ->
        cardFace ("/" ++ interior ++ "/") kind = Returned (interior, green))
    /\ (indexOf interior ">" = None ->
        cardFace ("<" ++ interior ++ ">") kind = Returned (interior, yellow))
    /\ (indexOf interior "|" = None ->
        cardFace ("|" ++ interior ++ "|") kind = Returned (interior, white)).
Proof.
  intros interior kind Hkind.
  destruct (override_body interior EmptyString) as (H1 & H2 & H3 & H4 & H5).
  cbn [append] in *.
  repeat split; intros H; unfold cardFace;
    match goal with
    | Hb : _ -> body ?w = _ |- context [parseWordToTiles ?w] =>
        rewrite (one_step _ _ (Hb H)) by discriminate
    end;
    destruct kind; try reflexivity; now contradiction Hkind.
Qed.

Lemma override_card_face_witness :
  regular <> hfw
  /\ cardFace "{ck}" regular = Returned ("ck", ivory)
  /\ cardFace "/ang/" regular = Returned ("ang", green).
Proof.
  split; [discriminate|].
  destruct (override_card_face "ck" regular) as (H & _); [discriminate|].
  destruct (override_card_face "ang" regular) as (_ & _ & H' & _); [discriminate|].
  split; [exact (H eq_refl) | exact (H' eq_refl)].
Defined.

(** *** The import of the lesson form *)

(** A form to import into: step 3.1, with sounds, sight words, a sentence
    and a passage of its own. *)
Definition filledForm : FormData unit :=
  mkForm "3" "1" ["a"; "sh"] ["the"] [] ["The cat sat on the mat."]
         DictationSection.empty (Some "An old passage.") tt.



Lemma parse_cases text fuel rng targetStep targetSubstep :
  parseLessonText (S fuel) rng text targetStep targetSubstep
  = if csvCondition text
    then match csvBlock (fun rng1 cell => parseLessonText fuel rng1 cell None None)
                        rng (firstLineOf text) (restLines text)
                        targetStep targetSubstep with
         | Returned (Some r) => Returned r
         | Returned None => Returned (standardTextParser rng text)
         | Thrown => Thrown
         | OutOfFuel => OutOfFuel
         end
    else Returned (standardTextParser rng text).
Proof.
  cbn [parseLessonText]. unfold csvCondition, firstLineOf, lineCount, restLines.
  rewrite <- splitOn_length.
  pose proof (splitOn_head (Ascii.eqb newline) text) as Hhead.
  destruct (splitOn (Ascii.eqb newline) text) as [|line0 rows]; [discriminate|].
  apply (f_equal (hd EmptyString)) in Hhead. cbn [hd] in Hhead.
  rewrite <- Hhead. reflexivity.
Qed.

Lemma restLines_oneLine text : Forall oneLine (restLines text).
Proof.
  unfold restLines.
  pose proof (splitOn_pieces (Ascii.eqb newline) text) as H.
  destruct (splitOn (Ascii.eqb newline) text) as [|line0 rows]; [constructor|].
  now inversion H.
Qed.

(** An import that finds its data row in a CSV document keeps the step and
    substep of the form, whether or not they are empty, takes the sight
    words from the row, and always replaces the passage, by the empty text
    when the row has no passage cell. *)
Theorem csv_import_keeps_step :
  forall (Rest : Type) (form : FormData Rest) importText rng dataRow,
    csvCondition importText = true ->
    findDataRow (buildIndices (parseCSVLine (firstLineOf importText)))
                (targetIdentifierOf (Some (step form)) (Some (substep form)))
                (restLines importText)
    = Returned (Some dataRow) ->
    exists form' rng',
      handleImport form importText rng = Returned (form', rng')
      /\ step form' = step form /\ substep form' = substep form
      /\ hfwList form'
         = getList (buildIndices (parseCSVLine (firstLineOf importText))) dataRow
                   ["new sight words"; "sight words"]
      /\ passage form'
         = Some (getCol (buildIndices (parseCSVLine (firstLineOf importText))) dataRow
                        ["connected text"; "reader"])
      /\ rest form' = rest form.
Proof.
  intros Rest form importText rng dataRow Hcsv Hrow. unfold handleImport.
  rewrite (parse_cases importText 1), Hcsv. unfold csvBlock. cbv zeta.
  rewrite Hrow. unfold extractRow. cbv zeta.
  destruct (makeCards rng _) as [cards rng1].
  pose proof (getCol_oneLine (buildIndices (parseCSVLine (firstLineOf importText)))
                dataRow ["dictation"]
                (findDataRow_oneLine _ _ _ _ (restLines_oneLine importText) Hrow))
    as Hcell.
  destruct (truthy (getCol _ dataRow ["dictation"])).
  - rewrite (parse_oneLine 0 rng1 _ Hcell).
    destruct (standardTextParser rng1 _) as [d rng2].
    eexists _, rng2. split; [reflexivity|].
    unfold merge, finishRow. cbn.
    destruct (truthy (step form)), (truthy (substep form)); repeat split.
  - eexists _, rng1. split; [reflexivity|].
    unfold merge, finishRow. cbn.
    destruct (truthy (step form)), (truthy (substep form)); repeat split.
Qed.

Definition csvDocument : string := csvExample ++ nl.

Lemma csv_import_keeps_step_witness :
  exists form' rng',
    handleImport filledForm csvDocument countingIds = Returned (form', rng')
    /\ step form' = step filledForm /\ substep form' = substep filledForm
    /\ hfwList form'
       = getList (buildIndices (parseCSVLine (firstLineOf csvDocument)))
                 ["3.1"; "full,pull"; "The cat sat. More text here."]
                 ["new sight words"; "sight words"]
    /\ passage form'
       = Some (getCol (buildIndices (parseCSVLine (firstLineOf csvDocument)))
                      ["3.1"; "full,pull"; "The cat sat. More text here."]
                      ["connected text"; "reader"])
    /\ rest form' = rest filledForm.
Proof.
  refine (csv_import_keeps_step unit filledForm csvDocument countingIds
            ["3.1"; "full,pull"; "The cat sat. More text here."] _ _);
    vm_compute; reflexivity.
Defined.

End CallerFacts.

(** ** Facts about the identifiers of the word cards *)
Module IdentifierFacts.
Import JS Lessons StringFacts LessonsSpec ImporterFacts.















End IdentifierFacts.

(** ** Facts about the line loop of the freeform path *)
Module LineLoopFacts.
Import JS Lessons StringFacts LessonsSpec ImporterFacts.

(** *** Lines only append *)

Definition prefixOf {A : Type} (a b : list A) : Prop :=
  exists more, b = (a ++ more)%list.

Definition passageText (l : Lesson) : string :=
  match passage l with
  | Some p => p
  | None => EmptyString
  end.

Definition growsDictation (a b : DictationSection.t) : Prop :=
  prefixOf (DictationSection.sounds a) (DictationSection.sounds b)
  /\ prefixOf (DictationSection.realWords a) (DictationSection.realWords b)
  /\ prefixOf (DictationSection.wordElements a) (DictationSection.wordElements b)
  /\ prefixOf (DictationSection.nonsenseWords a) (DictationSection.nonsenseWords b)
  /\ prefixOf (DictationSection.phrases a) (DictationSection.phrases b)
  /\ prefixOf (DictationSection.sentences a) (DictationSection.sentences b).

(** [b] is [a] with entries added at the end of its lists and text added at
    the end of its passage; the step and substep are those of [a]. *)
Definition grows (a b : Lesson) : Prop :=
  step b = step a /\ substep b = substep a
  /\ prefixOf (quickDrill a) (quickDrill b)
  /\ prefixOf (hfwList a) (hfwList b)
  /\ prefixOf (wordCards a) (wordCards b)
  /\ prefixOf (sentences a) (sentences b)
  /\ growsDictation (dictation a) (dictation b)
  /\ exists more, passageText b = passageText a ++ more.

Lemma prefixOf_refl {A : Type} (a : list A) : prefixOf a a.
Proof. exists []. now rewrite app_nil_r. Qed.

Lemma prefixOf_app {A : Type} (a more : list A) : prefixOf a (a ++ more).
Proof. now exists more. Qed.

Lemma prefixOf_trans {A : Type} (a b c : list A) :
  prefixOf a b -> prefixOf b c -> prefixOf a c.
Proof. intros [x ->] [y ->]. exists (x ++ y)%list. now rewrite app_assoc. Qed.

Lemma growsDictation_refl d : growsDictation d d.
Proof. unfold growsDictation. repeat split; apply prefixOf_refl. Qed.

Lemma pushDictation_grows mode line d : growsDictation d (pushDictation mode line d).
Proof.
  unfold pushDictation. cbv zeta.
  destruct (truthy _ && truthy _); [|apply growsDictation_refl].
  destruct d as [so re el no ph se].
  destruct mode; try apply growsDictation_refl;
    try (unfold growsDictation; cbn; repeat split;
         first [apply prefixOf_refl | apply prefixOf_app]).
  destruct (_ && _); [|apply growsDictation_refl].
  unfold growsDictation; cbn; repeat split;
    first [apply prefixOf_refl | apply prefixOf_app].
Qed.

Lemma grows_refl l : grows l l.
Proof.
  unfold grows. repeat split; try apply prefixOf_refl.
  exists EmptyString. now rewrite append_nil_r.
Qed.

Lemma grows_trans a b c : grows a b -> grows b c -> grows a c.
Proof.
  unfold grows, growsDictation.
  intros (H1 & H2 & H3 & H4 & H5 & H6 & (D1 & D2 & D3 & D4 & D5 & D6) & [x Hx])
         (G1 & G2 & G3 & G4 & G5 & G6 & (E1 & E2 & E3 & E4 & E5 & E6) & [y Hy]).
  split; [congruence|]. split; [congruence|].
  repeat split; try (eapply prefixOf_trans; eassumption).
  exists (x ++ y). now rewrite Hy, Hx, append_assoc.
Qed.

Lemma processLine_grows st rawLine :
  grows (extracted st) (extracted (processLine st rawLine)).
Proof.
  destruct st as [[st1 ss1 qd1 hf1 wc1 se1 di1 pa1] sec1 sub1 rng1].
  unfold processLine. cbn [extracted currentSection dictationSubMode rng].
  repeat match goal with
         | |- context [if anyIncluded ?l ?k then _ else _] => destruct (anyIncluded l k)
         end;
    try destruct (headerContent _);
    try destruct sec1;
    repeat match goal with
           | |- context [if ?c then _ else _] => destruct c
           end;
    try match goal with
        | |- context [makeCards rng1 ?ws] => destruct (makeCards rng1 ws) as [newA rngA']
        end;
    try apply grows_refl;
    unfold grows, passageText;
    cbn [extracted setQuickDrill setHfwList setWordCards setSentences setDictation
         setPassage step substep quickDrill hfwList wordCards sentences dictation
         passage];
    (split; [reflexivity|]); (split; [reflexivity|]);
    repeat match goal with
           | |- _ /\ _ => split
           | |- prefixOf ?a ?a => apply prefixOf_refl
           | |- prefixOf ?a (?a ++ _) => apply prefixOf_app
           | |- growsDictation ?d ?d => apply growsDictation_refl
           | |- growsDictation _ (pushDictation _ _ _) => apply pushDictation_grows
           | |- exists more, ?p = ?p ++ more =>
               exists EmptyString; now rewrite append_nil_r
           | |- exists more, _ = _ ++ more => eexists; reflexivity
           end.
Qed.

(** The line loop only appends: whatever the lines hold, the lists of the
    record after them start with the entries they had before, in the same
    order, the passage starts with the text it had, and the step and
    substep are unchanged. *)
Theorem lines_only_append :
  forall lines st,
    grows (extracted st) (extracted (fold_left processLine lines st)).
Proof.
  induction lines as [|l lines IH]; intros st; [apply grows_refl|].
  cbn [fold_left]. eapply grows_trans; [apply processLine_grows | apply IH].
Qed.

(** *** Reading sentences hold no section keyword *)







(** *** The sub-headers of the dictation section *)

(** The state of the loop right after the header of the dictation
    section. *)
Definition afterDictationHeader : LoopState :=
  mkState initial secDictation subNone countingIds.

(** In the dictation section the test for real words comes before the one
    for nonsense words and accepts every line that contains the letters
    words: such a line, when it selects a sub-mode other than the current
    one, is filed under real words, and the nonsense words stay as they
    are, also when the line starts with the word nonsense. *)
Theorem words_line_is_filed_as_real :
  forall st rawLine,
    currentSection st = secDictation ->
    isSectionHeader (cleanLine rawLine) = false ->
    includes (toLowerCase (cleanLine rawLine)) "words" = true ->
    startsWith (toLowerCase (cleanLine rawLine)) "sound"
    || includes (toLowerCase (cleanLine rawLine)) "sounds:"
    || includes (toLowerCase (cleanLine rawLine)) "sounds" = false ->
    dictationSubMode st <> subReal ->
    processLine st rawLine
    = mkState (setDictation
                 (pushDictation subReal (cleanLine rawLine) (dictation (extracted st)))
                 (extracted st))
              secDictation subReal (rng st)
    /\ DictationSection.nonsenseWords (dictation (extracted (processLine st rawLine)))
       = DictationSection.nonsenseWords (dictation (extracted st)).
Proof.
  intros st rawLine Hsec Hheader Hwords Hsounds Hmode.
  assert (Hstep : processLine st rawLine
                  = mkState (setDictation
                               (pushDictation subReal (cleanLine rawLine)
                                              (dictation (extracted st)))
                               (extracted st))
                            secDictation subReal (rng st)).
  { unfold isSectionHeader in Hheader. cbv zeta in Hheader.
    do 5 (apply orb_false_iff in Hheader as [Hheader ?]).
    unfold processLine. cbv zeta.
    repeat match goal with
           | H : anyIncluded _ _ = false |- _ => rewrite H; clear H
           end.
    rewrite Hsec. unfold detectSubMode. cbv zeta.
    rewrite Hsounds, Hwords, orb_true_r.
    destruct (dictationSubMode st); try reflexivity. now contradiction Hmode. }
  split; [exact Hstep|]. rewrite Hstep. cbn [extracted setDictation dictation].
  unfold pushDictation. cbv zeta.
  destruct (dictation (extracted st)) as [so re el no ph se].
  now destruct (truthy _ && truthy _).
Qed.

Lemma words_line_is_filed_as_real_witness :
  processLine afterDictationHeader "Nonsense Words: zat, vop"
  = mkState (setDictation
               (pushDictation subReal (cleanLine "Nonsense Words: zat, vop")
                              (dictation (extracted afterDictationHeader)))
               (extracted afterDictationHeader))
            secDictation subReal (rng afterDictationHeader)
  /\ DictationSection.nonsenseWords
       (dictation (extracted (processLine afterDictationHeader
                                          "Nonsense Words: zat, vop")))
     = DictationSection.nonsenseWords (dictation (extracted afterDictationHeader)).
Proof.
  refine (words_line_is_filed_as_real afterDictationHeader "Nonsense Words: zat, vop"
            _ _ _ _ _);
    try (vm_compute; reflexivity).
  discriminate.
Defined.

End LineLoopFacts.
